(** * MesaMate robot: motion command protocol and precision-movement state machine

    A shallow embedding of the three programs that cooperate to move the robot,
    followed by the properties proved about them:

    - [Planner]  : the renderer component that walks a grid path one segment at
                   a time (DeliverySystem: calculateTurnAngle,
                   getDirectionFromDelta, getNewDirection, moveRobot);
    - [Host]     : the main-process serial controller (arduino-communication.ts:
                   sendCommand, moveDistance, turnAngle, calculateTurnAngle,
                   updatePositionAfterMove, convertPathToPrecisionCommands);
    - [Bridge]   : the IPC forwarding from the renderer's calls to the
                   controller's methods;
    - [Firmware] : the microcontroller sketch (checkForObstacles, loop,
                   stopMotors, moveDistance, turnAngle, checkPrecisionMovement
                   and the legacy, test and LED commands).

    JavaScript numbers are modelled by exact rationals ([Q]) or integers
    ([Z]).  The firmware's [float]s are IEEE 754 binary32 values ([Float32],
    on the Standard Library's [SpecFloat]), its [int]s are 16 bits wide
    ([int16]) and its [unsigned long] values are integers taken modulo 2^32
    ([wrap32]).  Hardware reads (clock, echo pulses, accelerometer, serial
    input) are inputs of the model. *)

From Stdlib Require Import ZArith QArith Qround Qabs List String Ascii Bool Lia.
From Stdlib Require Import DecimalString.
From Stdlib Require Import Sorted Permutation DecimalN.
From Stdlib Require Import SpecFloat.
Import ListNotations.

Local Open Scope string_scope.
Local Open Scope list_scope.
Local Open Scope Z_scope.

(** ** Shared helpers *)

(** [Array.prototype.indexOf]: position of the first match, [-1] when absent. *)
Fixpoint indexOf {A : Type} (eqb : A -> A -> bool) (l : list A) (a : A) : Z :=
  match l with
  | [] => -1
  | b :: l' => if eqb b a then 0
               else let i := indexOf eqb l' a in
                    if i <? 0 then -1 else i + 1
  end.

(** Array read at an integer index; [None] is JavaScript's [undefined]. *)
Definition at_index {A : Type} (l : list A) (i : Z) : option A :=
  if i <? 0 then None else nth_error l (Z.to_nat i).

(** Decimal digits of a natural number. *)
Definition digits (n : Z) : string :=
  NilZero.string_of_uint (N.to_uint (Z.to_N n)).

Fixpoint zeros (k : nat) : string :=
  match k with
  | O => EmptyString
  | S k' => String "0" (zeros k')
  end.

(** A number printed with [f] decimals, as [Number.prototype.toFixed(f)] and
    the firmware's [String(float)] do on an exact value: sign first, then the
    integer nearest to [|v| * 10^f] (the larger one on a tie), printed with at
    least [f + 1] digits and a point before the last [f]. *)
Definition decimal (f : nat) (v : Q) : string :=
  let neg := negb (Qle_bool 0 v) in
  let a := if neg then Qopp v else v in
  let n := Qfloor (a * inject_Z (10 ^ Z.of_nat f) + (1 # 2)) in
  let m := digits n in
  let m := (zeros (S f - String.length m) ++ m)%string in
  let k := String.length m in
  let body :=
    match f with
    | O => m
    | _ => (substring 0 (k - f) m ++ "." ++ substring (k - f) f m)%string
    end in
  ((if neg then "-" else EmptyString) ++ body)%string.

(** The double nearest to a positive rational. *)
Definition toDouble (v : Q) : spec_float :=
  match Qnum v with
  | Zpos n =>
      SFdiv 53 1024 (S754_finite false n 0) (S754_finite false (Qden v) 0)
  | _ => S754_zero false
  end.

(** The whole number a double of 2^53 or more stands for. *)
Definition wholeOf (x : spec_float) : option Z :=
  match x with
  | S754_finite false m e => if 0 <=? e then Some (Zpos m * 2 ^ e) else None
  | _ => None
  end.

(** [s * 10^p] is read as the double [x]. *)
Definition readsAs (x : spec_float) (s p : Z) : bool :=
  match binary_normalize 53 1024 (s * 10 ^ p) 0 false, x with
  | S754_finite false m e, S754_finite false m' e' =>
      (Zpos m =? Zpos m') && (e =? e')
  | _, _ => false
  end.

(** The digits [s], a point after the first, and the power of ten that
    makes them [s * 10^p]. *)
Definition exponentText (s p : Z) : string :=
  let d := digits s in
  let k := String.length d in
  (substring 0 1 d
     ++ (if (k =? 1)%nat then EmptyString else "." ++ substring 1 (k - 1) d)
     ++ "e+" ++ digits (p + Z.of_nat k - 1))%string.

(** [Number::toString] looks for the fewest digits [s] that, with a power of
    ten, are read as the same double; of two such numbers of [k] digits
    the one nearer the double is taken.  [N] is the double's value and [n]
    the number of its digits. *)
Fixpoint shortest (x : spec_float) (N n k : Z) (fuel : nat) : string :=
  match fuel with
  | O => exponentText N 0
  | S fuel' =>
      let p := n - k in
      let lo := N / 10 ^ p in
      let hi := lo + 1 in
      let below := readsAs x lo p in
      let above := readsAs x hi p in
      let nearer :=
        match Z.compare (N - lo * 10 ^ p) (hi * 10 ^ p - N) with
        | Lt => true
        | Gt => false
        | Eq => Z.even lo
        end in
      let (hs, hp) :=
        if hi =? 10 ^ k then (10 ^ (k - 1), p + 1) else (hi, p) in
      if p <? 0 then exponentText N 0
      else if below && (negb above || nearer) then exponentText lo p
      else if above then exponentText hs hp
      else shortest x N n (k + 1) fuel'
  end.

(** A positive number of 10^21 or more as [Number::toString] prints it, in
    exponent notation; a number beyond the doubles is Infinity. *)
Definition exponential (v : Q) : string :=
  let x := toDouble v in
  match wholeOf x with
  | Some N => shortest x N (Z.of_nat (String.length (digits N))) 1 17
  | None => "Infinity"
  end.

(** Strict order on rationals as a boolean. *)
Definition Qlt_bool (a b : Q) : bool := negb (Qle_bool b a).

(** Conversion of a real value to an integer type: the fraction is dropped. *)
Definition truncate (q : Q) : Z := Z.quot (Qnum q) (Zpos (Qden q)).

(** ** The renderer-side planner (DeliverySystem) *)

Module Planner.

Inductive Direction : Type := Up | Right | Down | Left.

Definition Direction_eqb (a b : Direction) : bool :=
  match a, b with
  | Up, Up | Right, Right | Down, Down | Left, Left => true
  | _, _ => false
  end.

(** [const directions = ["up", "right", "down", "left"]] *)
Definition directions : list Direction := [Up; Right; Down; Left].

(** calculateTurnAngle: signed quarter steps from [currentDir] to
    [targetDir], brought into the range -2..+2, times 90. *)
Definition calculateTurnAngle (currentDir targetDir : Direction) : Z :=
  let currentIndex := indexOf Direction_eqb directions currentDir in
  let targetIndex := indexOf Direction_eqb directions targetDir in
  let turnSteps := targetIndex - currentIndex in
  let turnSteps := if turnSteps >? 2 then turnSteps - 4 else turnSteps in
  let turnSteps := if turnSteps <? -2 then turnSteps + 4 else turnSteps in
  turnSteps * 90.

(** getDirectionFromDelta: the facing that a grid step (dx, dy) asks for;
    [None] is the source's [null]. *)
Definition getDirectionFromDelta (dx dy : Z) : option Direction :=
  if dx >? 0 then Some Right
  else if dx <? 0 then Some Left
  else if dy >? 0 then Some Down
  else if dy <? 0 then Some Up
  else None.

(** getNewDirection: [directions[(currentIndex + angle / 90 + 4) % 4]].
    [angle / 90] is a real division in the source, so an angle that is not a
    multiple of 90 gives a fractional index and the array read is
    [undefined]; [%] is the truncating remainder. *)
Definition getNewDirection (currentDir : Direction) (angle : Z)
  : option Direction :=
  let currentIndex := indexOf Direction_eqb directions currentDir in
  if angle mod 90 =? 0 then
    let turns := angle / 90 in
    let newIndex := Z.rem (currentIndex + turns + 4) 4 in
    at_index directions newIndex
  else None.

Record Position : Type := mkPosition { x : Z; y : Z }.

Definition Position_eqb (p q : Position) : bool :=
  (x p =? x q) && (y p =? y q).

(** The eight table identifiers the selection screen offers. *)
Inductive Table : Type := T1 | T2 | T3 | T4 | T5 | T6 | T7 | T8.

Definition TABLE_POSITIONS (t : Table) : Position :=
  match t with
  | T1 => mkPosition 1 0
  | T2 => mkPosition 3 0
  | T3 => mkPosition 1 1
  | T4 => mkPosition 3 1
  | T5 => mkPosition 1 2
  | T6 => mkPosition 3 2
  | T7 => mkPosition 1 3
  | T8 => mkPosition 3 3
  end.

Definition ROBOT_START_POSITION : Position := mkPosition 2 4.

(** The number after the letter T, as [parseInt] reads it. *)
Definition tableNumber (t : Table) : Z :=
  match t with
  | T1 => 1 | T2 => 2 | T3 => 3 | T4 => 4
  | T5 => 5 | T6 => 6 | T7 => 7 | T8 => 8
  end.

Inductive DeliveryStatus : Type :=
  moving | arrived | delivered | returning | complete.

Record DeliveryState : Type := mkDeliveryState {
  currentPath : list Position;
  currentStep : nat;
  robotPosition : Position;
  robotDirection : Direction;
  isMoving : bool;
  currentTable : option Table;
  showModal : bool;
  deliveryStatus : DeliveryStatus
}.

Inductive Speed : Type := normal | precision | fast.

(** The calls the component makes on [window.robot]. *)
Inductive RobotCall : Type :=
| TurnAngle (degrees : Z)
| MoveDistance (inches : Z) (speed : Speed)
| TableArrived (tableNumber : Z).

(** The component: its delivery state, progress counter, the two refs and
    the connection flag polled from the main process. *)
Record Component : Type := mkComponent {
  deliveryState : DeliveryState;
  completedSteps : Z;
  isMovingRef : bool;
  isMountedRef : bool;
  arduinoConnected : bool
}.

Definition withState (c : Component) (s : DeliveryState) : Component :=
  mkComponent s (completedSteps c) (isMovingRef c) (isMountedRef c)
              (arduinoConnected c).

Definition markComplete (s : DeliveryState) : DeliveryState :=
  mkDeliveryState (currentPath s) (currentStep s) (robotPosition s)
                  (robotDirection s) false (currentTable s) (showModal s)
                  complete.

(** The functional update passed to [setDeliveryState] at the end of
    [moveRobot]; it also fires the table LED call. *)
Definition advance (selectedTables : list Table) (connected : bool)
           (turnAngle : Z) (prev : DeliveryState)
  : list RobotCall * DeliveryState :=
  if Z.of_nat (List.length (currentPath prev)) - 1
       <=? Z.of_nat (currentStep prev) then
    ([], markComplete prev)
  else
    let nextStep := S (currentStep prev) in
    match nth_error (currentPath prev) nextStep with
    | None => ([], prev)
    | Some nextPosition =>
        let newDirection :=
          if turnAngle =? 0 then robotDirection prev
          else match getNewDirection (robotDirection prev) turnAngle with
               | Some d => d
               | None => robotDirection prev
               end in
        match find (fun t => Position_eqb (TABLE_POSITIONS t) nextPosition)
                   selectedTables with
        | Some tableAtPosition =>
            let n := tableNumber tableAtPosition in
            ((if connected && (1 <=? n) && (n <=? 3)
              then [TableArrived n] else []),
             mkDeliveryState (currentPath prev) nextStep nextPosition
                             newDirection (isMoving prev)
                             (Some tableAtPosition) true arrived)
        | None =>
            ([], mkDeliveryState (currentPath prev) nextStep nextPosition
                                 newDirection true (currentTable prev)
                                 (showModal prev) (deliveryStatus prev))
        end
    end.

(** moveRobot: one path segment.  The waits between the calls are timers
    only and are left out; the re-entrancy flag is set on entry and cleared
    in [finally], so a completed call leaves it [false]. *)
Definition moveRobot (selectedTables : list Table) (c : Component)
  : list RobotCall * Component :=
  if isMovingRef c then ([], c)
  else
    let st := deliveryState c in
    let currentPos := robotPosition st in
    let currentDir := robotDirection st in
    match nth_error (currentPath st) (S (currentStep st)) with
    | None =>
        ([], if isMountedRef c then withState c (markComplete st) else c)
    | Some nextPos =>
        let dx := x nextPos - x currentPos in
        let dy := y nextPos - y currentPos in
        match getDirectionFromDelta dx dy with
        | None => ([], c)
        | Some targetDir =>
            let turnAngle := calculateTurnAngle currentDir targetDir in
            let sent :=
              if arduinoConnected c then
                (if turnAngle =? 0 then [] else [TurnAngle turnAngle])
                  ++ [MoveDistance 24 normal]
              else [] in
            if negb (isMountedRef c) then (sent, c)
            else
              let '(led, st') :=
                advance selectedTables (arduinoConnected c) turnAngle st in
              (sent ++ led,
               mkComponent st' (completedSteps c + 1) false
                           (isMountedRef c) (arduinoConnected c))
        end
    end.

(** Two facings are opposite when they are two quarter steps apart. *)
Definition opposite (a b : Direction) : bool :=
  Z.abs (indexOf Direction_eqb directions b
         - indexOf Direction_eqb directions a) =? 2.

Definition isTurn (call : RobotCall) : bool :=
  match call with
  | TurnAngle _ => true
  | _ => false
  end.

(** The path of the two-segment scenario. *)
Definition scenarioPath : list Position :=
  [mkPosition 2 4; mkPosition 2 3; mkPosition 3 3].

(** The component as [startDelivery] leaves it for a path, with the robot
    link up and nothing in flight. *)
Definition started (path : list Position) : Component :=
  mkComponent
    (mkDeliveryState path 0 ROBOT_START_POSITION Up true None false moving)
    0 false true true.

(** confirmDelivery: the number of the table whose light is switched off,
    if that call is made, and the component afterwards.  The timer it
    starts calls moveRobot, as the auto-move effect does. *)
Definition confirmDelivery (c : Component) : option Z * Component :=
  if isMountedRef c then
    let st := deliveryState c in
    (match currentTable st with
     | Some t =>
         if arduinoConnected c && (1 <=? tableNumber t) && (tableNumber t <=? 3)
         then Some (tableNumber t) else None
     | None => None
     end,
     withState c
       (mkDeliveryState (currentPath st) (currentStep st) (robotPosition st)
                        (robotDirection st) true None false moving))
  else (None, c).

(** The auto-move effect with no obstacle reported: its condition, and the
    check its timer makes before it calls moveRobot. *)
Definition autoMove (c : Component) : bool :=
  let st := deliveryState c in
  isMoving st
  && match deliveryStatus st with
     | moving => true
     | _ => false
     end
  && negb (isMovingRef c)
  && (negb (isMovingRef c) && isMountedRef c).

(** The arrival dialog, with its confirm button, is rendered. *)
Definition dialogUp (c : Component) : bool :=
  let st := deliveryState c in
  showModal st
  && match currentTable st with
     | Some _ => true
     | None => false
     end.

(** One event of a delivery: the auto-move timer fires and calls
    moveRobot, or else the customer confirms in the arrival dialog; the
    move that follows a confirmation is left to the next event. *)
Definition nextEvent (selectedTables : list Table) (c : Component)
  : Component :=
  if autoMove c then snd (moveRobot selectedTables c)
  else if dialogUp c then snd (confirmDelivery c)
  else c.

(** How far a delivery is from its end: two events for every step still
    to go, one for the step in hand, one more while a dialog is up. *)
Definition rank (c : Component) : nat :=
  let st := deliveryState c in
  let togo := (List.length (currentPath st) - 1 - currentStep st)%nat in
  match deliveryStatus st with
  | moving => (2 * togo + 1)%nat
  | arrived => (2 * togo + 2)%nat
  | _ => O
  end.

(** A delivery along [route] is in progress on a mounted component with no
    moveRobot in flight: the robot is on the cell of the route its step
    counter names, as many steps are completed as the counter says, and the
    delivery is moving, waiting at a table, or complete at the last cell. *)
Definition underway (route : list Position) (c : Component) : Prop :=
  let st := deliveryState c in
  currentPath st = route
  /\ isMountedRef c = true /\ isMovingRef c = false
  /\ nth_error route (currentStep st) = Some (robotPosition st)
  /\ completedSteps c = Z.of_nat (currentStep st)
  /\ ((deliveryStatus st = moving /\ isMoving st = true
       /\ showModal st = false)
      \/ (deliveryStatus st = arrived /\ dialogUp c = true)
      \/ (deliveryStatus st = complete /\ isMoving st = false
          /\ showModal st = false
          /\ S (currentStep st) = List.length route)).

End Planner.

(** ** The route planner (astar.ts) *)

Module Pathfinder.
Import Planner.

(** [Node].  The parent is held by value: a node is changed only while it
    is in the open set, and only nodes that have left the open set become
    parents, so no parent ever changes after it was linked. *)
#[warnings="-register-all"]
Inductive Node : Type :=
| mkNode (nx ny g h f : Z) (parent : option Node).

Definition nodeX (n : Node) : Z := let 'mkNode nx _ _ _ _ _ := n in nx.
Definition nodeY (n : Node) : Z := let 'mkNode _ ny _ _ _ _ := n in ny.
Definition nodeG (n : Node) : Z := let 'mkNode _ _ g _ _ _ := n in g.
Definition nodeH (n : Node) : Z := let 'mkNode _ _ _ h _ _ := n in h.
Definition nodeF (n : Node) : Z := let 'mkNode _ _ _ _ f _ := n in f.
Definition nodeParent (n : Node) : option Node :=
  let 'mkNode _ _ _ _ _ parent := n in parent.

Inductive Message : Type :=
| InvalidStart                 (* Invalid start position *)
| InvalidGoal                  (* Invalid goal position *)
| PathFound                    (* Path found successfully *)
| NoPathFound                  (* No path found *)
| NoTables                     (* No tables to visit *)
| CannotReach (table : Position) (why : Message)
| CannotReturn (why : Message)
| Planned (visited : nat).     (* Successfully planned route visiting <n> tables *)

Record PathfindingResult : Type := mkPathfindingResult {
  path : list Position;
  success : bool;
  message : Message
}.

(** [AStarPathfinder]: the grid and the sizes its constructor reads. *)
Record AStarPathfinder : Type := mkAStarPathfinder {
  grid : list (list Z);
  rows : Z;
  cols : Z
}.

(** The constructor; [grid[0].length] throws on an empty grid. *)
Definition create (grid : list (list Z)) : option AStarPathfinder :=
  match grid with
  | [] => None
  | row :: _ =>
      Some (mkAStarPathfinder grid (Z.of_nat (List.length grid))
                              (Z.of_nat (List.length row)))
  end.

(** heuristic: the Manhattan distance. *)
Definition heuristic (a b : Position) : Z :=
  Z.abs (x a - x b) + Z.abs (y a - y b).

(** isValidPosition; a cell beyond the end of a short row reads as
    [undefined], which is not [0]. *)
Definition isValidPosition (pf : AStarPathfinder) (px py : Z) : bool :=
  (0 <=? px) && (px <? cols pf) && (0 <=? py) && (py <? rows pf)
  && match at_index (grid pf) py with
     | Some row =>
         match at_index row px with
         | Some cell => cell =? 0
         | None => false
         end
     | None => false
     end.

(** getNeighbors: up, right, down, left, those that are valid. *)
Definition getNeighbors (pf : AStarPathfinder) (node : Node) : list Position :=
  filter (fun p => isValidPosition pf (x p) (y p))
    (map (fun dir => mkPosition (nodeX node + fst dir) (nodeY node + snd dir))
         [(0, -1); (1, 0); (0, 1); (-1, 0)]).

(** The scan for the node with the lowest f: a later node replaces the
    best one only when its f is strictly lower. *)
Fixpoint lowest (currentNode : Node) (currentIndex : nat) (rest : list Node)
         (i : nat) : Node * nat :=
  match rest with
  | [] => (currentNode, currentIndex)
  | node :: rest' =>
      if nodeF node <? nodeF currentNode then lowest node i rest' (S i)
      else lowest currentNode currentIndex rest' (S i)
  end.

(** [openSet.splice(index, 1)] *)
Fixpoint removeAt {A : Type} (index : nat) (l : list A) : list A :=
  match l, index with
  | [], _ => []
  | _ :: rest, O => rest
  | a :: rest, S index' => a :: removeAt index' rest
  end.

(** The closed set, keyed by position. *)
Definition has (closedSet : list Position) (p : Position) : bool :=
  existsb (Position_eqb p) closedSet.

Definition add (p : Position) (closedSet : list Position) : list Position :=
  if has closedSet p then closedSet else closedSet ++ [p].

Definition isAt (p : Position) (node : Node) : bool :=
  (nodeX node =? x p) && (nodeY node =? y p).

(** The assignments to [existingNode], which is the first node of the open
    set at that position. *)
Fixpoint improve (p : Position) (tentativeG : Z) (currentNode : Node)
         (openSet : list Node) : list Node :=
  match openSet with
  | [] => []
  | node :: rest =>
      if isAt p node then
        mkNode (nodeX node) (nodeY node) tentativeG (nodeH node)
               (tentativeG + nodeH node) (Some currentNode) :: rest
      else node :: improve p tentativeG currentNode rest
  end.

(** The body of the loop over the neighbours. *)
Definition explore (goal : Position) (closedSet : list Position)
           (currentNode : Node) (openSet : list Node) (neighborPos : Position)
  : list Node :=
  if has closedSet neighborPos then openSet
  else
    let tentativeG := nodeG currentNode + 1 in
    match find (isAt neighborPos) openSet with
    | None =>
        let h := heuristic neighborPos goal in
        openSet ++ [mkNode (x neighborPos) (y neighborPos) tentativeG h
                           (tentativeG + h) (Some currentNode)]
    | Some existingNode =>
        if tentativeG <? nodeG existingNode
        then improve neighborPos tentativeG currentNode openSet
        else openSet
    end.

(** The path read back through the parents, start first. *)
Fixpoint unwind (current : Node) (path : list Position) : list Position :=
  match current with
  | mkNode nx ny _ _ _ parent =>
      let path := mkPosition nx ny :: path in
      match parent with
      | Some p => unwind p path
      | None => path
      end
  end.

(** The [while (openSet.length > 0)] loop, for at most [fuel] passes;
    [None] when they are used up. *)
Fixpoint search (pf : AStarPathfinder) (goal : Position) (fuel : nat)
         (openSet : list Node) (closedSet : list Position)
  : option PathfindingResult :=
  match fuel with
  | O => None
  | S fuel' =>
      match openSet with
      | [] => Some (mkPathfindingResult [] false NoPathFound)
      | first :: rest =>
          let '(currentNode, currentIndex) := lowest first 0 rest 1 in
          let openSet := removeAt currentIndex openSet in
          let closedSet := add (mkPosition (nodeX currentNode)
                                           (nodeY currentNode)) closedSet in
          if (nodeX currentNode =? x goal) && (nodeY currentNode =? y goal)
          then Some (mkPathfindingResult (unwind currentNode []) true
                                         PathFound)
          else
            search pf goal fuel'
                   (fold_left (explore goal closedSet currentNode)
                              (getNeighbors pf currentNode) openSet)
                   closedSet
      end
  end.

(** findPath.  Every pass of the loop closes one more cell, so one pass
    per cell of the grid and one more are enough (shown below). *)
Definition findPath (pf : AStarPathfinder) (start goal : Position)
  : option PathfindingResult :=
  if negb (isValidPosition pf (x start) (y start)) then
    Some (mkPathfindingResult [] false InvalidStart)
  else if negb (isValidPosition pf (x goal) (y goal)) then
    Some (mkPathfindingResult [] false InvalidGoal)
  else
    let h := heuristic start goal in
    let startNode := mkNode (x start) (y start) 0 h (0 + h) None in
    search pf goal (S (Z.to_nat (rows pf * cols pf))) [startNode] [].

(** [array.slice(1)] *)
Definition slice1 {A : Type} (l : list A) : list A := tl l.

(** The loop of findDeliveryRoute over the tables, and the way back. *)
Fixpoint visit (pf : AStarPathfinder) (start : Position)
         (tables : list Position) (currentPosition : Position)
         (totalPath : list Position) (visitedTables : list Position)
  : option PathfindingResult :=
  match tables with
  | table :: rest =>
      match findPath pf currentPosition table with
      | None => None
      | Some result =>
          if negb (success result) then
            Some (mkPathfindingResult totalPath false
                    (CannotReach table (message result)))
          else
            visit pf start rest table (totalPath ++ slice1 (path result))
                  (visitedTables ++ [table])
      end
  | [] =>
      match findPath pf currentPosition start with
      | None => None
      | Some returnResult =>
          if negb (success returnResult) then
            Some (mkPathfindingResult totalPath false
                    (CannotReturn (message returnResult)))
          else
            Some (mkPathfindingResult
                    (totalPath ++ slice1 (path returnResult)) true
                    (Planned (List.length visitedTables)))
      end
  end.

(** findDeliveryRoute *)
Definition findDeliveryRoute (pf : AStarPathfinder) (start : Position)
           (tables : list Position) : option PathfindingResult :=
  match tables with
  | [] => Some (mkPathfindingResult [start] true NoTables)
  | _ => visit pf start tables start [start] []
  end.

(** [RESTAURANT_MAP]: 0 is walkable, 1 is a table. *)
Definition RESTAURANT_MAP : list (list Z) :=
  [[1; 0; 0; 0; 1];
   [1; 0; 0; 0; 1];
   [1; 0; 0; 0; 1];
   [1; 0; 0; 0; 1];
   [0; 0; 0; 0; 0]].

(** [pathfinder = new AStarPathfinder(RESTAURANT_MAP)] *)
Definition pathfinder : AStarPathfinder :=
  mkAStarPathfinder RESTAURANT_MAP 5 5.

(** startDelivery: the component once the route is planned, [None] when
    planning fails and the user is sent back to the selection. *)
Definition startDelivery (selectedTables : list Table) (c : Component)
  : option Component :=
  let tablePositions := map TABLE_POSITIONS selectedTables in
  match findDeliveryRoute pathfinder ROBOT_START_POSITION tablePositions with
  | Some result =>
      if success result then
        Some (mkComponent
                (mkDeliveryState (path result) 0 ROBOT_START_POSITION Up true
                                 None false moving)
                0 (isMovingRef c) (isMountedRef c) (arduinoConnected c))
      else None
  | None => None
  end.

(** *** Vocabulary for the properties *)

(** Two cells side by side. *)
Definition adjacent (p q : Position) : Prop :=
  Z.abs (x q - x p) + Z.abs (y q - y p) = 1.

(** Every step of a path goes to a cell side by side with the one
    before. *)
Fixpoint stepwise (l : list Position) : Prop :=
  match l with
  | p :: (q :: _) as rest => adjacent p q /\ stepwise rest
  | _ => True
  end.

Definition walkable (pf : AStarPathfinder) (p : Position) : Prop :=
  isValidPosition pf (x p) (y p) = true.

(** A walk from [a] to [b]: it starts at [a], ends at [b], goes step by
    step and stays on walkable cells. *)
Definition walk (pf : AStarPathfinder) (a b : Position)
           (l : list Position) : Prop :=
  hd_error l = Some a /\ last l a = b /\ stepwise l
  /\ Forall (walkable pf) l.

(** The chain of parents of a node is a walk back to [start]. *)
Fixpoint rooted (pf : AStarPathfinder) (start : Position) (n : Node) : Prop :=
  match n with
  | mkNode nx ny _ _ _ parent =>
      walkable pf (mkPosition nx ny)
      /\ match parent with
         | Some p =>
             adjacent (mkPosition (nodeX p) (nodeY p)) (mkPosition nx ny)
             /\ rooted pf start p
         | None => mkPosition nx ny = start
         end
  end.

(** The cells of the grid's bounding box. *)
Definition cells (pf : AStarPathfinder) : list Position :=
  map (fun c => mkPosition (Z.of_nat (fst c)) (Z.of_nat (snd c)))
      (list_prod (seq 0 (Z.to_nat (cols pf))) (seq 0 (Z.to_nat (rows pf)))).

(** The cell of a node. *)
Definition position (n : Node) : Position := mkPosition (nodeX n) (nodeY n).

(** A result of the search: a walk from [start] to [goal], or failure
    with no path. *)
Definition sound pf (start goal : Position) (r : PathfindingResult) : Prop :=
  if success r then walk pf start goal (path r)
  else path r = [].

(** The open set holds one node per position, all walkable and none
    closed; the closed cells are distinct and walkable. *)
Definition tidy pf (openSet : list Node) (closedSet : list Position) : Prop :=
  NoDup (map position openSet)
  /\ (forall n, In n openSet ->
                walkable pf (position n) /\ ~ In (position n) closedSet)
  /\ NoDup closedSet
  /\ (forall p, In p closedSet -> walkable pf p).

(** The tables are on the route, in the order given. *)
Fixpoint visits (tables : list Position) (l : list Position) : Prop :=
  match tables with
  | [] => True
  | t :: ts => exists l1 l2, l = l1 ++ t :: l2 /\ visits ts (t :: l2)
  end.

(** Whether findPath, between two walkable cells, finds a path of the
    Manhattan length. *)
Definition direct pf (a b : Position) : bool :=
  negb (isValidPosition pf (x a) (y a))
  || negb (isValidPosition pf (x b) (y b))
  || match findPath pf a b with
     | Some r =>
         success r
         && (Z.of_nat (List.length (path r)) =? heuristic a b + 1)
     | None => false
     end.

End Pathfinder.

(** ** The main-process serial controller (arduino-communication.ts) *)

Module Host.

Inductive Direction : Type := north | east | south | west.

Definition Direction_eqb (a b : Direction) : bool :=
  match a, b with
  | north, north | east, east | south, south | west, west => true
  | _, _ => false
  end.

Record RobotPosition : Type := mkRobotPosition {
  x : Z;
  y : Z;
  direction : Direction
}.

Inductive Speed : Type := normal | precision | fast.

(** The argument of [updatePositionAfterMove]. *)
Inductive Movement : Type := mv_forward | mv_left | mv_right.

(** The controller object: whether [port] is non-null, the connection flag
    and the believed pose. *)
Record Controller : Type := mkController {
  port : bool;
  isConnected : bool;
  currentPosition : RobotPosition
}.

(** The pose the controller is constructed with. *)
Definition initialPosition : RobotPosition := mkRobotPosition 2 4 north.

(** [Number.prototype.toFixed]: [f] decimals for a number below 10^21 in
    size, and what [Number::toString] gives from there on. *)
Definition toFixed (f : nat) (v : Q) : string :=
  if Qle_bool (inject_Z (10 ^ 21)) (Qabs v) then
    ((if Qle_bool 0 v then EmptyString else "-")
       ++ exponential (Qabs v))%string
  else decimal f v.

(** *** sendCommand *)

(** What the serial port does with one [write]: it throws, it calls back
    after some milliseconds with or without an error, or it never calls
    back. *)
Inductive WriteBehaviour : Type :=
| WriteThrows
| WriteCallback (after_ms : Z) (err : bool)
| WriteNoCallback.

(** The fate of the promise [sendCommand] returns. *)
Inductive Settled : Type :=
| Resolved (at_ms : Z)
| Rejected (at_ms : Z)
| Pending.

Inductive LogEntry : Type :=
| LogNotConnected (command : string)
| LogTimeout (command : string)
| LogWriteError (command : string)
| LogSent (command : string)
| LogException.

Record SendResult : Type := mkSendResult {
  settled : Settled;
  written : list string;      (* data handed to [port.write] and accepted *)
  log : list LogEntry
}.

Definition SEND_TIMEOUT_MS : Z := 5000.

(** sendCommand.  A promise settles once: the first [resolve] wins and the
    later ones are ignored, so the settle time is that of the earliest
    event among the write callback and the timer. *)
Definition sendCommand (c : Controller) (command : string)
           (w : WriteBehaviour) : SendResult :=
  if negb (port c) || negb (isConnected c) then
    mkSendResult (Resolved 0) [] [LogNotConnected command]
  else
    let line := (command ++ String "010" EmptyString)%string in
    match w with
    | WriteThrows =>
        mkSendResult (Resolved 0) [] [LogException; LogTimeout command]
    | WriteCallback after_ms err =>
        let outcome :=
          if err then LogWriteError command else LogSent command in
        if after_ms <? SEND_TIMEOUT_MS then
          mkSendResult (Resolved after_ms) [line] [outcome]
        else
          mkSendResult (Resolved SEND_TIMEOUT_MS) [line]
                       [LogTimeout command; outcome]
    | WriteNoCallback =>
        mkSendResult (Resolved SEND_TIMEOUT_MS) [line] [LogTimeout command]
    end.

(** *** Pose bookkeeping *)

Definition withPosition (c : Controller) (p : RobotPosition) : Controller :=
  mkController (port c) (isConnected c) p.

Definition updatePositionAfterMove (movement : Movement) (c : Controller)
  : Controller :=
  let p := currentPosition c in
  withPosition c
    match movement with
    | mv_forward =>
        match direction p with
        | north => mkRobotPosition (x p) (Z.max 0 (y p - 1)) (direction p)
        | south => mkRobotPosition (x p) (Z.min 4 (y p + 1)) (direction p)
        | east => mkRobotPosition (Z.min 4 (x p + 1)) (y p) (direction p)
        | west => mkRobotPosition (Z.max 0 (x p - 1)) (y p) (direction p)
        end
    | mv_left =>
        mkRobotPosition (x p) (y p)
          match direction p with
          | north => west | south => east | east => north | west => south
          end
    | mv_right =>
        mkRobotPosition (x p) (y p)
          match direction p with
          | north => east | south => west | east => south | west => north
          end
    end.

(** [await]: the code after it runs only if the promise resolves. *)
Definition afterAwait (r : SendResult) (c : Controller)
           (k : Controller -> Controller) : Controller * list string :=
  match settled r with
  | Resolved _ => (k c, written r)
  | _ => (c, written r)
  end.

(** moveDistance: returns the controller and the data written. *)
Definition moveDistance (inches : Q) (speed : Speed) (w : WriteBehaviour)
           (c : Controller) : Controller * list string :=
  if Qle_bool inches 0 then (c, [])
  else
    afterAwait
      (sendCommand c ("MOVE_DISTANCE:" ++ toFixed 2 inches)%string w) c
      (updatePositionAfterMove mv_forward).

(** turnAngle *)
Definition turnAngle (degrees : Q) (speed : Speed) (w : WriteBehaviour)
           (c : Controller) : Controller * list string :=
  if Qeq_bool degrees 0 then (c, [])
  else
    afterAwait
      (sendCommand c ("TURN_ANGLE:" ++ toFixed 1 degrees)%string w) c
      (if Qlt_bool 0 degrees
       then updatePositionAfterMove mv_right
       else updatePositionAfterMove mv_left).

(** [const directions = ['north', 'east', 'south', 'west']] *)
Definition directions : list Direction := [north; east; south; west].

(** calculateTurnAngle *)
Definition calculateTurnAngle (current required : Direction) : Z :=
  let currentIndex := indexOf Direction_eqb directions current in
  let requiredIndex := indexOf Direction_eqb directions required in
  let turns := Z.rem (requiredIndex - currentIndex + 4) 4 in
  if turns =? 1 then 90
  else if turns =? 2 then 180
  else if turns =? 3 then -90
  else 0.

(** [PrecisionMovementCommand] *)
Inductive PrecisionAction : Type := act_moveDistance | act_turnAngle.

Record PrecisionMovementCommand : Type := mkPrecisionMovementCommand {
  action : PrecisionAction;
  value : Q;
  speed : Speed
}.

(** [Math.sqrt(dx * dx + dy * dy)] and
    [Math.atan2(dy, dx) * (180 / Math.PI)] for a step along one axis, where
    both are whole numbers; a step off the axes needs floating point and is
    left out ([None]). *)
Definition axisStep (dx dy : Z) : option (Z * Z) :=
  if dy =? 0 then
    Some (Z.abs dx, if dx <? 0 then 180 else 0)
  else if dx =? 0 then
    Some (Z.abs dy, if dy <? 0 then -90 else 90)
  else None.

(** convertPathToPrecisionCommands, on paths whose steps run along the
    axes.  No caller of it exists in the application; the delivery flow goes
    through the renderer's moveRobot. *)
Fixpoint convertPathToPrecisionCommands (path : list (Z * Z))
  : option (list PrecisionMovementCommand) :=
  match path with
  | current :: (next :: _) as rest =>
      let dx := fst next - fst current in
      let dy := snd next - snd current in
      match axisStep dx dy, convertPathToPrecisionCommands rest with
      | Some (distance, angle), Some commands =>
          Some
            ((if distance >? 0 then
                let inchesToMove := distance * 24 in
                (if angle =? 0 then []
                 else [mkPrecisionMovementCommand act_turnAngle
                         (inject_Z angle) precision])
                  ++ [mkPrecisionMovementCommand act_moveDistance
                        (inject_Z inchesToMove) precision]
              else [])
               ++ commands)
      | _, _ => None
      end
  | _ => Some []
  end.

(** tableArrived: the LED command for tables 1 to 3. *)
Definition tableArrived (tableNumber : Z) (w : WriteBehaviour)
           (c : Controller) : Controller * list string :=
  if (tableNumber <? 1) || (tableNumber >? 3) then (c, [])
  else
    afterAwait
      (sendCommand c ("TABLE" ++ digits tableNumber ++ "_ARRIVED")%string w)
      c (fun c => c).

(** tableReceived: the LED-off command for tables 1 to 3. *)
Definition tableReceived (tableNumber : Z) (w : WriteBehaviour)
           (c : Controller) : Controller * list string :=
  if (tableNumber <? 1) || (tableNumber >? 3) then (c, [])
  else
    afterAwait
      (sendCommand c ("TABLE" ++ digits tableNumber ++ "_RECEIVED")%string w)
      c (fun c => c).

(** *** The fixed-duration commands *)

(** [MovementCommand] *)
Inductive Action : Type := act_forward | act_left | act_right | act_stop.

Record MovementCommand : Type := mkMovementCommand {
  mc_action : Action;
  mc_duration : option Z
}.

(** getTurnCommands *)
Definition getTurnCommands (current required : Direction)
  : list MovementCommand :=
  if Direction_eqb current required then []
  else
    let currentIndex := indexOf Direction_eqb directions current in
    let requiredIndex := indexOf Direction_eqb directions required in
    let turns := Z.rem (requiredIndex - currentIndex + 4) 4 in
    if turns =? 1 then [mkMovementCommand act_right None]
    else if turns =? 2 then
      [mkMovementCommand act_right None; mkMovementCommand act_right None]
    else if turns =? 3 then [mkMovementCommand act_left None]
    else [].

(** A run of the controller's asynchronous methods: the controller, how
    many times sendCommand has been called and the data written so far.
    The serial port is given by what it does at the [k]-th call.  The
    delays between the calls are timers only and are left out. *)
Record Run : Type := mkRun {
  ctl : Controller;
  calls : nat;
  wire : list string
}.

Definition Port : Type := nat -> WriteBehaviour.

(** [await this.sendCommand(command)]; [None] when the promise does not
    resolve, so that the method goes no further. *)
Definition awaitSend (p : Port) (command : string) (r : Run) : option Run :=
  let res := sendCommand (ctl r) command (p (calls r)) in
  match settled res with
  | Resolved _ => Some (mkRun (ctl r) (S (calls r)) (wire r ++ written res))
  | _ => None
  end.

Definition andThen (m : option Run) (k : Run -> option Run) : option Run :=
  match m with
  | Some r => k r
  | None => None
  end.

Definition updated (movement : Movement) (r : Run) : Run :=
  mkRun (updatePositionAfterMove movement (ctl r)) (calls r) (wire r).

(** moveForward, turnLeft, turnRight, stop *)
Definition moveForward (p : Port) (r : Run) : option Run :=
  andThen (awaitSend p "FORWARD" r) (fun r =>
  andThen (awaitSend p "STOP" r) (fun r =>
  Some (updated mv_forward r))).

Definition turnLeft (p : Port) (r : Run) : option Run :=
  andThen (awaitSend p "LEFT" r) (fun r =>
  andThen (awaitSend p "STOP" r) (fun r =>
  Some (updated mv_left r))).

Definition turnRight (p : Port) (r : Run) : option Run :=
  andThen (awaitSend p "RIGHT" r) (fun r =>
  andThen (awaitSend p "STOP" r) (fun r =>
  Some (updated mv_right r))).

Definition stop (p : Port) (r : Run) : option Run := awaitSend p "STOP" r.

(** executeMovementSequence *)
Fixpoint executeMovementSequence (p : Port) (commands : list MovementCommand)
         (r : Run) : option Run :=
  match commands with
  | [] => Some r
  | command :: rest =>
      andThen
        (match mc_action command with
         | act_forward => moveForward p r
         | act_left => turnLeft p r
         | act_right => turnRight p r
         | act_stop => stop p r
         end)
        (executeMovementSequence p rest)
  end.

(** convertPathToCommands: the direction every segment asks for, and the
    commands of the whole path.  Every segment's turn is computed from
    [this.currentPosition.direction], which the conversion does not change;
    a segment that stays on its cell is skipped. *)
Definition requiredDirection (dx dy : Z) : option Direction :=
  if dx >? 0 then Some east
  else if dx <? 0 then Some west
  else if dy >? 0 then Some south
  else if dy <? 0 then Some north
  else None.

Fixpoint convertPathToCommands (c : Controller) (path : list (Z * Z))
  : list MovementCommand :=
  match path with
  | current :: (next :: _) as rest =>
      let dx := fst next - fst current in
      let dy := snd next - snd current in
      match requiredDirection dx dy with
      | Some required =>
          getTurnCommands (direction (currentPosition c)) required
            ++ [mkMovementCommand act_forward (Some 1000)]
      | None => []
      end ++ convertPathToCommands c rest
  | _ => []
  end.

(** The handler of robot-execute-path: the path is converted, then the
    commands are executed. *)
Definition executePath (p : Port) (path : list (Z * Z)) (r : Run)
  : option Run :=
  executeMovementSequence p (convertPathToCommands (ctl r) path) r.

(** *** Vocabulary for the properties *)

(** The pose is on the 5 by 5 grid. *)
Definition onGrid (p : RobotPosition) : Prop :=
  0 <= x p <= 4 /\ 0 <= y p <= 4.

(** What one command does to the believed pose, and what a list of them
    does. *)
Definition book (command : MovementCommand) (c : Controller) : Controller :=
  match mc_action command with
  | act_forward => updatePositionAfterMove mv_forward c
  | act_left => updatePositionAfterMove mv_left c
  | act_right => updatePositionAfterMove mv_right c
  | act_stop => c
  end.

Definition booked (commands : list MovementCommand) (c : Controller)
  : Controller :=
  fold_left (fun c command => book command c) commands c.

(** The calls of sendCommand a list of commands makes: a movement sends its
    command and then STOP. *)
Fixpoint sends (commands : list MovementCommand) : nat :=
  match commands with
  | [] => O
  | command :: rest =>
      (match mc_action command with
       | act_stop => 1
       | _ => 2
       end + sends rest)%nat
  end.

(** The cell of a pose. *)
Definition cell (p : RobotPosition) : Z * Z := (x p, y p).

(** The cell one step ahead of a pose. *)
Definition ahead (p : RobotPosition) : RobotPosition :=
  match direction p with
  | north => mkRobotPosition (x p) (y p - 1) (direction p)
  | south => mkRobotPosition (x p) (y p + 1) (direction p)
  | east => mkRobotPosition (x p + 1) (y p) (direction p)
  | west => mkRobotPosition (x p - 1) (y p) (direction p)
  end.

(** The facing a quarter turn to the right. *)
Definition clockwise (d : Direction) : Direction :=
  match d with
  | north => east
  | east => south
  | south => west
  | west => north
  end.

End Host.

(** ** From the renderer to the controller

    [window.robot.*] forwards each call over IPC to the method of the same
    name on the controller singleton; a call without a speed gets the method's
    default, ['precision']. *)

Module Bridge.

Definition speed (s : Planner.Speed) : Host.Speed :=
  match s with
  | Planner.normal => Host.normal
  | Planner.precision => Host.precision
  | Planner.fast => Host.fast
  end.

Definition invoke (w : Host.WriteBehaviour) (call : Planner.RobotCall)
           (c : Host.Controller) : Host.Controller * list string :=
  match call with
  | Planner.TurnAngle degrees =>
      Host.turnAngle (inject_Z degrees) Host.precision w c
  | Planner.MoveDistance inches s =>
      Host.moveDistance (inject_Z inches) (speed s) w c
  | Planner.TableArrived n => Host.tableArrived n w c
  end.

(** The calls of one segment, in order; the written data is collected. *)
Fixpoint invokeAll (w : Host.WriteBehaviour) (calls : list Planner.RobotCall)
         (c : Host.Controller) : Host.Controller * list string :=
  match calls with
  | [] => (c, [])
  | call :: rest =>
      let '(c1, o1) := invoke w call c in
      let '(c2, o2) := invokeAll w rest c1 in
      (c2, o1 ++ o2)
  end.

Definition compass (d : Planner.Direction) : Host.Direction :=
  match d with
  | Planner.Up => Host.north
  | Planner.Right => Host.east
  | Planner.Down => Host.south
  | Planner.Left => Host.west
  end.

(** The same facing under its two names. *)
Definition facing (d : Host.Direction) : Planner.Direction :=
  match d with
  | Host.north => Planner.Up
  | Host.east => Planner.Right
  | Host.south => Planner.Down
  | Host.west => Planner.Left
  end.

(** The renderer's and the controller's idea of the pose agree. *)
Definition synced (comp : Planner.Component) (c : Host.Controller) : Prop :=
  let st := Planner.deliveryState comp in
  Planner.x (Planner.robotPosition st) = Host.x (Host.currentPosition c)
  /\ Planner.y (Planner.robotPosition st) = Host.y (Host.currentPosition c)
  /\ compass (Planner.robotDirection st)
     = Host.direction (Host.currentPosition c).

End Bridge.

(** ** The microcontroller's floating point *)

Module Float32.

(** [float], and [double], which is no wider on this board: IEEE 754
    binary32 values, with the operations rounding to nearest, ties to
    even. *)
Definition float : Type := spec_float.
Definition prec : Z := 24.
Definition emax : Z := 128.

Definition zero : float := S754_zero false.

(** An integer converted to [float]. *)
Definition ofZ (z : Z) : float := binary_normalize prec emax z 0 false.

Definition mul (a b : float) : float := SFmul prec emax a b.
Definition div (a b : float) : float := SFdiv prec emax a b.
Definition opp (a : float) : float := SFopp a.
Definition ltb (a b : float) : bool := SFltb a b.

(** Arduino's macro [abs(x)], [((x)>0?(x):-(x))], on a [float]. *)
Definition abs (x : float) : float := if ltb zero x then x else opp x.

Definition decimalDigits (m : Z) : Z := Z.of_nat (String.length (digits m)).

(** The [float] nearest to [m * 10^e], with the sign given: what a decimal
    numeral reads as.  A numeral of 10^39 or more is beyond the largest
    [float] and one below 10^-46 is less than half the smallest, so these
    need no arithmetic. *)
Definition ofDecimal (neg : bool) (m e : Z) : float :=
  if m <=? 0 then S754_zero neg
  else if 39 <? decimalDigits m + e then S754_infinity neg
  else if decimalDigits m + e <? -45 then S754_zero neg
  else if 0 <=? e then
    binary_normalize prec emax (cond_Zopp neg (m * 10 ^ e)) 0 false
  else
    SFdiv prec emax (S754_finite neg (Z.to_pos m) 0)
          (S754_finite false (Z.to_pos (10 ^ (- e))) 0).

(** The whole part of a finite [float]; [0] stands in for the infinities and
    NaN, whose conversion to an integer the language leaves open. *)
Definition truncate (x : float) : Z :=
  match x with
  | S754_finite s m e =>
      cond_Zopp s (if 0 <=? e then Zpos m * 2 ^ e else Zpos m / 2 ^ (- e))
  | _ => 0
  end.

(** The value of a finite [float]. *)
Definition value (x : float) : Q :=
  match x with
  | S754_finite s m e =>
      if 0 <=? e then inject_Z (cond_Zopp s (Zpos m * 2 ^ e))
      else Qmake (cond_Zopp s (Zpos m)) (Z.to_pos (2 ^ (- e)))
  | _ => 0%Q
  end.

Definition isZero (x : float) : bool :=
  match x with
  | S754_zero _ => true
  | _ => false
  end.

End Float32.

(** ** The microcontroller sketch *)

Module Firmware.

(** [unsigned long] arithmetic is taken modulo 2^32. *)
Definition wrap32 (z : Z) : Z := z mod 2 ^ 32.

(** [(unsigned long) f] for a [float] expression: the fraction is dropped;
    a value outside the range of [unsigned long] is taken modulo 2^32. *)
Definition to_ulong (x : Float32.float) : Z := wrap32 (Float32.truncate x).

(** [int] and [int16_t] arithmetic: the board the pin numbers name has
    16-bit [int]s, and a result outside -32768..32767 wraps round in two's
    complement. *)
Definition int16 (z : Z) : Z := (z + 2 ^ 15) mod 2 ^ 16 - 2 ^ 15.

(** Arduino's macro [abs(x)], [((x)>0?(x):-(x))], on an [int]. *)
Definition abs16 (z : Z) : Z := int16 (Z.abs z).

(** [constrain(v, lo, hi)] *)
Definition constrain (v lo hi : Z) : Z :=
  if v <? lo then lo else if v >? hi then hi else v.

(** *** Settings *)

Definition turnSpeed : Z := 120.
Definition precisionSpeed : Z := 150.
Definition baseLeft : Z := 180.
Definition baseRight : Z := 180.

Definition normalX : Z := 13.
Definition normalY : Z := 172.
Definition tolerance : Z := 4.

Definition UTS_ENABLED : bool := true.
Definition OBSTACLE_DISTANCE_CM : Q := 2032 # 100.
Definition MAX_DISTANCE : Z := 200.
Definition UTS_SAMPLES : nat := 5.
Definition CLEAR_HYSTERESIS_CM : Q := 5.
Definition REQUIRED_CONSECUTIVE_HITS : Z := 3.

Definition INCHES_PER_SECOND : Float32.float := Float32.ofZ 3.
Definition MS_PER_INCH : Float32.float :=
  Float32.div (Float32.ofZ 1000) INCHES_PER_SECOND.
Definition DEGREES_PER_MS : Float32.float :=
  Float32.div (Float32.ofZ 90) (Float32.ofZ 500).

Definition forwardTime : Z := 1000.

(** *** State *)

(** "Current robot state" *)
Record Motion : Type := mkMotion {
  isMoving : bool;
  currentCommand : string;
  movementStartTime : Z;
  targetDistance : Float32.float;
  targetAngle : Float32.float;
  isPrecisionMode : bool;
  pausedForObstacle : bool;
  pauseStartTime : Z;
  totalPausedMs : Z
}.

(** "Obstacle latch state with debounce" *)
Record Latch : Type := mkLatch {
  obstacleHitCount : Z;
  clearHitCount : Z;
  obstacleLatched : bool
}.

(** Output pins: the two H-bridge inputs and the PWM duty of each motor,
    and the three table LEDs. *)
Record Pins : Type := mkPins {
  motorA1 : bool;
  motorB1 : bool;
  speedMotorAB : Z;
  motora2 : bool;
  motorb2 : bool;
  speedMotorab : Z;
  TABLE1_LED_PIN : bool;
  TABLE2_LED_PIN : bool;
  TABLE3_LED_PIN : bool
}.

(** The whole device: the globals, the output pins and the two [static]
    locals ([lastObstacle] of [loop], [lastDebug] of
    [checkPrecisionMovement]). *)
Record Device : Type := mkDevice {
  motion : Motion;
  latch : Latch;
  pins : Pins;
  lastObstacle : bool;
  lastDebug : Z
}.

(** An accelerometer sample (x, y, z) as readAccel returns it: three
    [int16_t] values. *)
Definition Accel : Type := (Z * Z * Z)%type.

(** The echo pulse widths (microseconds, [0] = no echo) that one call of
    [checkForObstacles] reads: [UTS_SAMPLES] per sensor. *)
Record Scan : Type := mkScan {
  uts1 : list Z;
  uts2 : list Z;
  uts3 : list Z
}.

(** Lines printed on the serial link: one constructor per line, with its
    numbers as arguments (the fixed heading and closing lines of TEST_GYRO
    are grouped). *)
Inductive Line : Type :=
| Received (command : string)          (* Received: <command> *)
| UnknownCommand (command : string)    (* Unknown command: <command> *)
| Blocked                              (* BLOCKED: Robot already moving. Send RESET if stuck. *)
| MotorsStopped                        (* Motors stopped *)
| EmergencyStop                        (* EMERGENCY STOP *)
| MovingInches (inches : Float32.float) (ms : Z)
                                       (* Moving <inches> inches (<ms>ms) with GYRO correction *)
| TurningDegrees (degrees : Float32.float) (ms : Z)
                                       (* Turning <degrees> degrees (<ms>ms) *)
| MovementPaused                       (* MOVEMENT_PAUSED:OBSTACLE *)
| MovementResumed                      (* MOVEMENT_RESUMED *)
| DistanceComplete (inches : Float32.float)
                                       (* Distance movement complete: <inches> inches *)
| AngleComplete (degrees : Float32.float)
                                       (* Angle turn complete: <degrees> degrees *)
| MovementCompleteSuccess              (* MOVEMENT_COMPLETE:SUCCESS *)
| ObstacleLatchedLine (d1 d2 d3 : Z)   (* OBSTACLE LATCHED! UTS1: .. UTS2: .. UTS3: .. *)
| ObstacleClearedDebounced             (* OBSTACLE CLEARED (debounced) *)
| ObstacleDetected                     (* OBSTACLE:DETECTED *)
| ObstacleCleared                      (* OBSTACLE:CLEARED *)
| GyroDebug (x y deltaX deltaY leftSpeed rightSpeed : Z)
| GyroReadFailed                       (* GYRO READ FAILED - using base speed *)
| MovingForward                        (* Moving forward with gyroscope correction... *)
| StoppingObstacle                     (* STOPPING - Obstacle detected! *)
| ForwardComplete                      (* Forward movement complete *)
| TurningLeft                          (* Turning left... *)
| LeftComplete                         (* Left turn complete *)
| TurningRight                         (* Turning right... *)
| RightComplete                        (* Right turn complete *)
| TestingUts                           (* Testing Ultrasonic Sensors... *)
| UtsReading (sensor : Z) (cm : Z)     (* UTS<n> (...): <cm> cm *)
| UtsObstacle (found : bool)           (* Obstacle detected by at least one sensor! / No obstacles detected *)
| GyroTestHeader                       (* the four heading lines of TEST_GYRO *)
| GyroTestSample (i : Z) (sample : option Accel)
| GyroTestFooter                       (* rule, reference values, Gyro test complete *)
| TableLight (table : Z) (on : bool)   (* TABLE<n>_LIGHT:ON / OFF *)
| Status (text : string)               (* the text of getStatus() *)
| ResetDone.                           (* Robot state RESET - ready for commands *)

(** *** A state-and-output monad for the sketch *)

Definition M (A : Type) : Type := Device -> A * Device * list Line.

Definition ret {A : Type} (a : A) : M A := fun d => (a, d, []).

Definition bind {A B : Type} (m : M A) (k : A -> M B) : M B :=
  fun d =>
    let '(a, d1, o1) := m d in
    let '(b, d2, o2) := k a d1 in
    (b, d2, o1 ++ o2).

Notation "x <- m ;; k" := (bind m (fun x => k))
  (at level 61, m at next level, right associativity).
Notation "m ;; k" := (bind m (fun _ => k))
  (at level 61, right associativity).

Definition println (l : Line) : M unit := fun d => (tt, d, [l]).
Definition read {A : Type} (f : Device -> A) : M A := fun d => (f d, d, []).
Definition modify (f : Device -> Device) : M unit := fun d => (tt, f d, []).
Definition when (b : bool) (m : M unit) : M unit := if b then m else ret tt.

Definition state_of {A : Type} (r : A * Device * list Line) : Device :=
  snd (fst r).
Definition output_of {A : Type} (r : A * Device * list Line) : list Line :=
  snd r.

(** Assignments to the globals. *)
Definition onMotion (f : Motion -> Motion) (d : Device) : Device :=
  mkDevice (f (motion d)) (latch d) (pins d) (lastObstacle d) (lastDebug d).
Definition onPins (f : Pins -> Pins) (d : Device) : Device :=
  mkDevice (motion d) (latch d) (f (pins d)) (lastObstacle d) (lastDebug d).
Definition set_latch (l : Latch) (d : Device) : Device :=
  mkDevice (motion d) l (pins d) (lastObstacle d) (lastDebug d).
Definition set_lastObstacle (b : bool) (d : Device) : Device :=
  mkDevice (motion d) (latch d) (pins d) b (lastDebug d).
Definition set_lastDebug (t : Z) (d : Device) : Device :=
  mkDevice (motion d) (latch d) (pins d) (lastObstacle d) t.

Definition set_isMoving (b : bool) (m : Motion) : Motion :=
  mkMotion b (currentCommand m) (movementStartTime m) (targetDistance m)
           (targetAngle m) (isPrecisionMode m) (pausedForObstacle m)
           (pauseStartTime m) (totalPausedMs m).
Definition set_currentCommand (c : string) (m : Motion) : Motion :=
  mkMotion (isMoving m) c (movementStartTime m) (targetDistance m)
           (targetAngle m) (isPrecisionMode m) (pausedForObstacle m)
           (pauseStartTime m) (totalPausedMs m).
Definition set_movementStartTime (t : Z) (m : Motion) : Motion :=
  mkMotion (isMoving m) (currentCommand m) t (targetDistance m)
           (targetAngle m) (isPrecisionMode m) (pausedForObstacle m)
           (pauseStartTime m) (totalPausedMs m).
Definition set_targetDistance (q : Float32.float) (m : Motion) : Motion :=
  mkMotion (isMoving m) (currentCommand m) (movementStartTime m) q
           (targetAngle m) (isPrecisionMode m) (pausedForObstacle m)
           (pauseStartTime m) (totalPausedMs m).
Definition set_targetAngle (q : Float32.float) (m : Motion) : Motion :=
  mkMotion (isMoving m) (currentCommand m) (movementStartTime m)
           (targetDistance m) q (isPrecisionMode m) (pausedForObstacle m)
           (pauseStartTime m) (totalPausedMs m).
Definition set_isPrecisionMode (b : bool) (m : Motion) : Motion :=
  mkMotion (isMoving m) (currentCommand m) (movementStartTime m)
           (targetDistance m) (targetAngle m) b (pausedForObstacle m)
           (pauseStartTime m) (totalPausedMs m).
Definition set_pausedForObstacle (b : bool) (m : Motion) : Motion :=
  mkMotion (isMoving m) (currentCommand m) (movementStartTime m)
           (targetDistance m) (targetAngle m) (isPrecisionMode m) b
           (pauseStartTime m) (totalPausedMs m).
Definition set_pauseStartTime (t : Z) (m : Motion) : Motion :=
  mkMotion (isMoving m) (currentCommand m) (movementStartTime m)
           (targetDistance m) (targetAngle m) (isPrecisionMode m)
           (pausedForObstacle m) t (totalPausedMs m).
Definition set_totalPausedMs (t : Z) (m : Motion) : Motion :=
  mkMotion (isMoving m) (currentCommand m) (movementStartTime m)
           (targetDistance m) (targetAngle m) (isPrecisionMode m)
           (pausedForObstacle m) (pauseStartTime m) t.

Definition assign (f : Motion -> Motion) : M unit := modify (onMotion f).

(** Both motors at once: direction inputs and PWM duty of the left (A1, B1,
    AB) and of the right (a2, b2, ab) motor. *)
Definition drive (A1 B1 : bool) (AB : Z) (a2 b2 : bool) (ab : Z) : M unit :=
  modify (onPins (fun p =>
    mkPins A1 B1 AB a2 b2 ab
           (TABLE1_LED_PIN p) (TABLE2_LED_PIN p) (TABLE3_LED_PIN p))).

(** *** Ultrasonic sensors *)

(** readUltrasonicDistance, given the pulse width [pulseIn] returned. *)
Definition readUltrasonicDistance (duration : Z) : Z :=
  if duration =? 0 then MAX_DISTANCE
  else
    let distance := truncate (inject_Z duration * (343 # 10000) / 2) in
    Z.min distance MAX_DISTANCE.

(** One pass of the insertion sort: [key] goes after the elements that are
    not greater than it. *)
Fixpoint insert (key : Z) (sorted : list Z) : list Z :=
  match sorted with
  | [] => [key]
  | h :: t => if h >? key then key :: sorted else h :: insert key t
  end.

Definition insertionSort (readings : list Z) : list Z :=
  fold_left (fun sorted key => insert key sorted) readings [].

(** readUltrasonicMedian, given the [UTS_SAMPLES] pulse widths read (a
    missing one counts as no echo). *)
Definition readUltrasonicMedian (pulses : list Z) : Z :=
  let readings :=
    map (fun i => readUltrasonicDistance (nth i pulses 0))
        (seq 0 UTS_SAMPLES) in
  nth (UTS_SAMPLES / 2) (insertionSort readings) 0.

Definition anyBelow (d1 d2 d3 : Z) : bool :=
  Qlt_bool (inject_Z d1) OBSTACLE_DISTANCE_CM
  || Qlt_bool (inject_Z d2) OBSTACLE_DISTANCE_CM
  || Qlt_bool (inject_Z d3) OBSTACLE_DISTANCE_CM.

Definition allClearWithMargin (d1 d2 d3 : Z) : bool :=
  Qlt_bool (OBSTACLE_DISTANCE_CM + CLEAR_HYSTERESIS_CM) (inject_Z d1)
  && Qlt_bool (OBSTACLE_DISTANCE_CM + CLEAR_HYSTERESIS_CM) (inject_Z d2)
  && Qlt_bool (OBSTACLE_DISTANCE_CM + CLEAR_HYSTERESIS_CM) (inject_Z d3).

(** The part of checkForObstacles after the three medians are read:
    hysteresis and debounce on the latch. *)
Definition debounce (distance1 distance2 distance3 : Z) (l : Latch)
  : Latch * list Line :=
  let l1 :=
    if anyBelow distance1 distance2 distance3 then
      mkLatch (Z.min (obstacleHitCount l + 1) REQUIRED_CONSECUTIVE_HITS)
              0 (obstacleLatched l)
    else if allClearWithMargin distance1 distance2 distance3 then
      mkLatch 0 (Z.min (clearHitCount l + 1) REQUIRED_CONSECUTIVE_HITS)
              (obstacleLatched l)
    else l in
  let '(l2, o2) :=
    if negb (obstacleLatched l1)
       && (REQUIRED_CONSECUTIVE_HITS <=? obstacleHitCount l1)
    then (mkLatch (obstacleHitCount l1) (clearHitCount l1) true,
          [ObstacleLatchedLine distance1 distance2 distance3])
    else (l1, []) in
  let '(l3, o3) :=
    if obstacleLatched l2
       && (REQUIRED_CONSECUTIVE_HITS <=? clearHitCount l2)
    then (mkLatch (obstacleHitCount l2) (clearHitCount l2) false,
          [ObstacleClearedDebounced])
    else (l2, []) in
  (l3, o2 ++ o3).

(** checkForObstacles *)
Definition checkForObstacles (s : Scan) : M bool :=
  fun d =>
    let distance1 := readUltrasonicMedian (uts1 s) in
    let distance2 := readUltrasonicMedian (uts2 s) in
    let distance3 := readUltrasonicMedian (uts3 s) in
    let '(l, o) := debounce distance1 distance2 distance3 (latch d) in
    (obstacleLatched l, set_latch l d, o).

(** *** Motors *)

(** stopMotors *)
Definition stopMotors : M unit :=
  assign (set_isMoving false) ;;
  assign (set_currentCommand "STOP") ;;
  drive false false 0 false false 0 ;;
  println MotorsStopped.

(** emergencyStop *)
Definition emergencyStop : M unit :=
  stopMotors ;;
  println EmergencyStop.

(** The tilt trim shared by moveForward ([base] 180, bounds 25 and 8) and
    checkPrecisionMovement ([base] 150, bounds 30 and 10): the speeds of
    the left and right motor for an accelerometer reading. *)
Definition tiltCorrection (baseL baseR maxBoost maxAdjust x y : Z) : Z * Z :=
  let deltaX := int16 (x - normalX) in
  let deltaY := int16 (y - normalY) in
  let boost := constrain (Z.quot (abs16 deltaX) 4) 0 maxBoost in
  let rightSpeed := if deltaX >? tolerance then baseR + boost else baseR in
  let leftSpeed :=
    if deltaX >? tolerance then baseL
    else if deltaX <? - tolerance then baseL + boost else baseL in
  let adjust :=
    if abs16 deltaY >? tolerance
    then constrain (Z.quot (abs16 deltaY) 10) 0 maxAdjust else 0 in
  (constrain (leftSpeed - adjust) 100 255,
   constrain (rightSpeed - adjust) 100 255).

(** *** Precision movement *)

(** moveDistance; [now] is the value [millis()] returns. *)
Definition moveDistance (inches : Float32.float) (now : Z) : M unit :=
  moving <- read (fun d => isMoving (motion d)) ;;
  if moving then println Blocked
  else
    assign (set_isMoving true) ;;
    assign (set_isPrecisionMode true) ;;
    assign (set_currentCommand "MOVE_DISTANCE") ;;
    assign (set_targetDistance inches) ;;
    assign (set_movementStartTime now) ;;
    assign (set_pausedForObstacle false) ;;
    assign (set_totalPausedMs 0) ;;
    let movementTime := to_ulong (Float32.mul inches MS_PER_INCH) in
    println (MovingInches inches movementTime).

(** turnAngle *)
Definition turnAngle (degrees : Float32.float) (now : Z) : M unit :=
  moving <- read (fun d => isMoving (motion d)) ;;
  if moving then println Blocked
  else
    assign (set_isMoving true) ;;
    assign (set_isPrecisionMode true) ;;
    assign (set_currentCommand "TURN_ANGLE") ;;
    assign (set_targetAngle degrees) ;;
    assign (set_movementStartTime now) ;;
    let turnTime :=
      to_ulong (Float32.div (Float32.abs degrees) DEGREES_PER_MS) in
    println (TurningDegrees degrees turnTime) ;;
    if Float32.ltb Float32.zero degrees
    then drive true false turnSpeed false true turnSpeed
    else drive false true turnSpeed true false turnSpeed.

(** The gyro-corrected drive of checkPrecisionMovement. *)
Definition driveWithGyro (currentTime : Z) (accel : option Accel) : M unit :=
  match accel with
  | Some (x, y, _) =>
      let '(leftSpeed, rightSpeed) :=
        tiltCorrection precisionSpeed precisionSpeed 30 10 x y in
      last <- read lastDebug ;;
      when (wrap32 (currentTime - last) >? 200)
           (println (GyroDebug x y (int16 (x - normalX))
                                             (int16 (y - normalY))
                               leftSpeed rightSpeed) ;;
            modify (set_lastDebug currentTime)) ;;
      drive true false leftSpeed true false rightSpeed
  | None =>
      println GyroReadFailed ;;
      drive true false precisionSpeed true false precisionSpeed
  end.

(** checkPrecisionMovement; [currentTime] is [millis()], [s] and [accel]
    are what the sensors return if they are read. *)
Definition checkPrecisionMovement (currentTime : Z) (s : Scan)
           (accel : option Accel) : M unit :=
  m <- read motion ;;
  let effectiveElapsed :=
    wrap32 (currentTime - movementStartTime m - totalPausedMs m) in
  shouldStop <-
    (if String.eqb (currentCommand m) "MOVE_DISTANCE" then
       obstacle <- (if UTS_ENABLED then checkForObstacles s else ret false) ;;
       (if obstacle then
          when (negb (pausedForObstacle m))
               (stopMotors ;;
                assign (set_pausedForObstacle true) ;;
                assign (set_pauseStartTime currentTime) ;;
                println MovementPaused)
        else
          when (pausedForObstacle m)
               (assign (set_totalPausedMs
                          (wrap32 (totalPausedMs m
                                   + wrap32 (currentTime - pauseStartTime m)))) ;;
                assign (set_pausedForObstacle false) ;;
                println MovementResumed) ;;
          paused <- read (fun d => pausedForObstacle (motion d)) ;;
          when (negb paused) (driveWithGyro currentTime accel)) ;;
       paused <- read (fun d => pausedForObstacle (motion d)) ;;
       if negb paused then
         let targetTime :=
           to_ulong (Float32.mul (targetDistance m) MS_PER_INCH) in
         if targetTime <=? effectiveElapsed then
           println (DistanceComplete (targetDistance m)) ;;
           println MovementCompleteSuccess ;;
           ret true
         else ret false
       else ret false
     else if String.eqb (currentCommand m) "TURN_ANGLE" then
       let targetTime :=
         to_ulong (Float32.div (Float32.abs (targetAngle m))
                               DEGREES_PER_MS) in
       if targetTime <=? effectiveElapsed then
         println (AngleComplete (targetAngle m)) ;;
         println MovementCompleteSuccess ;;
         ret true
       else ret false
     else ret false) ;;
  when shouldStop
       (stopMotors ;;
        assign (set_isPrecisionMode false)).

(** *** Legacy fixed-duration commands *)

(** moveForwardWithGyro *)
Definition moveForwardWithGyro (leftSpeed rightSpeed : Z) : M unit :=
  drive true false leftSpeed true false rightSpeed.

(** What one pass of moveForward's [while] loop reads: the clock in the
    loop condition, the sensors, the accelerometer and the clock again for
    the debug print. *)
Record ForwardIter : Type := mkForwardIter {
  it_millis : Z;
  it_scan : Scan;
  it_accel : option Accel;
  it_now : Z
}.

(** The [while (millis() - startTime < forwardTime)] loop of moveForward,
    over the passes the clock allows; the result tells whether the function
    returned from inside the loop (obstacle).  The loop also ends when the
    recorded passes are used up. *)
Fixpoint forwardLoop (startTime lastDbg : Z) (iters : list ForwardIter)
  : M bool :=
  match iters with
  | [] => ret false
  | it :: rest =>
      if wrap32 (it_millis it - startTime) <? forwardTime then
        obstacle <- (if UTS_ENABLED then checkForObstacles (it_scan it)
                     else ret false) ;;
        if obstacle then
          println StoppingObstacle ;;
          stopMotors ;;
          assign (set_isMoving false) ;;
          ret true
        else
          dbg <-
            match it_accel it with
            | Some (x, y, _) =>
                let '(leftSpeed, rightSpeed) :=
                  tiltCorrection baseLeft baseRight 25 8 x y in
                let now := it_now it in
                dbg <- (if wrap32 (now - lastDbg) >? 200 then
                          println (GyroDebug x y (int16 (x - normalX))
                                             (int16 (y - normalY))
                                             leftSpeed rightSpeed) ;;
                          ret now
                        else ret lastDbg) ;;
                moveForwardWithGyro leftSpeed rightSpeed ;;
                ret dbg
            | None =>
                println GyroReadFailed ;;
                moveForwardWithGyro baseLeft baseRight ;;
                ret lastDbg
            end ;;
          forwardLoop startTime dbg rest
      else ret false
  end.

(** moveForward *)
Definition moveForward (startTime : Z) (iters : list ForwardIter) : M unit :=
  moving <- read (fun d => isMoving (motion d)) ;;
  if moving then println Blocked
  else
    assign (set_isMoving true) ;;
    assign (set_currentCommand "FORWARD") ;;
    println MovingForward ;;
    returned <- forwardLoop startTime 0 iters ;;
    if returned then ret tt
    else
      stopMotors ;;
      assign (set_isMoving false) ;;
      println ForwardComplete.

(** turnLeft *)
Definition turnLeft : M unit :=
  moving <- read (fun d => isMoving (motion d)) ;;
  if moving then println Blocked
  else
    assign (set_isMoving true) ;;
    assign (set_currentCommand "LEFT") ;;
    drive false true turnSpeed true false turnSpeed ;;
    println TurningLeft ;;
    stopMotors ;;
    assign (set_isMoving false) ;;
    println LeftComplete.

(** turnRight *)
Definition turnRight : M unit :=
  moving <- read (fun d => isMoving (motion d)) ;;
  if moving then println Blocked
  else
    assign (set_isMoving true) ;;
    assign (set_currentCommand "RIGHT") ;;
    drive true false turnSpeed false true turnSpeed ;;
    println TurningRight ;;
    stopMotors ;;
    assign (set_isMoving false) ;;
    println RightComplete.

(** *** Diagnostics and table LEDs *)

(** testUltrasonicSensors: three single readings, then one
    checkForObstacles. *)
Definition testUltrasonicSensors (pulses : Z * Z * Z) (s : Scan) : M unit :=
  let '(p1, p2, p3) := pulses in
  println TestingUts ;;
  println (UtsReading 1 (readUltrasonicDistance p1)) ;;
  println (UtsReading 2 (readUltrasonicDistance p2)) ;;
  println (UtsReading 3 (readUltrasonicDistance p3)) ;;
  found <- checkForObstacles s ;;
  println (UtsObstacle found).

(** testGyroSensor: ten samples. *)
Definition testGyroSensor (samples : list (option Accel)) : M unit :=
  println GyroTestHeader ;;
  fold_right
    (fun i rest =>
       println (GyroTestSample (Z.of_nat i + 1) (nth i samples None)) ;; rest)
    (println GyroTestFooter)
    (seq 0 10).

Definition set_led (tableNumber : Z) (level : bool) (p : Pins) : Pins :=
  mkPins (motorA1 p) (motorB1 p) (speedMotorAB p)
         (motora2 p) (motorb2 p) (speedMotorab p)
         (if tableNumber =? 1 then level else TABLE1_LED_PIN p)
         (if tableNumber =? 2 then level else TABLE2_LED_PIN p)
         (if tableNumber =? 3 then level else TABLE3_LED_PIN p).

Definition hasLed (tableNumber : Z) : bool :=
  (tableNumber =? 1) || (tableNumber =? 2) || (tableNumber =? 3).

(** tableArrived *)
Definition tableArrived (tableNumber : Z) : M unit :=
  when (hasLed tableNumber)
       (modify (onPins (set_led tableNumber true)) ;;
        println (TableLight tableNumber true)).

(** tableReceived *)
Definition tableReceived (tableNumber : Z) : M unit :=
  when (hasLed tableNumber)
       (modify (onPins (set_led tableNumber false)) ;;
        println (TableLight tableNumber false)).

(** [String(float)]: two decimals of a finite value. *)
Definition floatText (x : Float32.float) : string :=
  match x with
  | S754_nan => "NAN"
  | S754_infinity s => if s then "-INF" else "INF"
  | S754_zero s => if s then "-0.00" else "0.00"
  | _ => decimal 2 (Float32.value x)
  end.

(** getStatus *)
Definition getStatus (d : Device) : string :=
  let m := motion d in
  ("Status: " ++ (if isMoving m then "Moving" else "Stopped")
     ++ " | Command: " ++ currentCommand m
     ++ (if isPrecisionMode m then
           " | Precision Mode"
             ++ (if String.eqb (currentCommand m) "MOVE_DISTANCE" then
                   " | Target: " ++ floatText (targetDistance m) ++ " inches"
                 else if String.eqb (currentCommand m) "TURN_ANGLE" then
                   " | Target: " ++ floatText (targetAngle m) ++ " degrees"
                 else EmptyString)
         else EmptyString))%string.

(** *** Command lines *)

Definition code (c : ascii) : Z := Z.of_nat (nat_of_ascii c).

(** [isspace]: space, tab, line feed, vertical tab, form feed, carriage
    return. *)
Definition isspace (c : ascii) : bool :=
  (code c =? 32) || ((9 <=? code c) && (code c <=? 13)).

Fixpoint trimStart (s : string) : string :=
  match s with
  | EmptyString => EmptyString
  | String c r => if isspace c then trimStart r else s
  end.

Fixpoint trimEnd (s : string) : string :=
  match s with
  | EmptyString => EmptyString
  | String c r =>
      match trimEnd r with
      | EmptyString => if isspace c then EmptyString else String c EmptyString
      | r' => String c r'
      end
  end.

(** [String::trim]: leading and trailing white space removed. *)
Definition trim (s : string) : string := trimEnd (trimStart s).

(** [toupper] *)
Definition toupper (c : ascii) : ascii :=
  if (97 <=? code c) && (code c <=? 122)
  then ascii_of_nat (nat_of_ascii c - 32) else c.

(** [String::toUpperCase] *)
Fixpoint toUpperCase (s : string) : string :=
  match s with
  | EmptyString => EmptyString
  | String c r => String (toupper c) (toUpperCase r)
  end.

(** [String::startsWith] *)
Definition startsWith (s p : string) : bool := prefix p s.

(** [String::substring(from)] *)
Definition substringFrom (from : nat) (s : string) : string :=
  substring from (String.length s - from) s.

Definition isdigit (c : ascii) : bool := (48 <=? code c) && (code c <=? 57).

(** A run of decimal digits: its value after [acc], how many there were,
    and the rest of the text. *)
Fixpoint digitRun (s : string) (acc : Z) (n : nat) : Z * nat * string :=
  match s with
  | String c r =>
      if isdigit c then digitRun r (10 * acc + (code c - 48)) (S n)
      else (acc, n, s)
  | EmptyString => (acc, n, s)
  end.

(** An optional sign at the start of a text. *)
Definition readSign (s : string) : bool * string :=
  match s with
  | String "-" r => (true, r)
  | String "+" r => (false, r)
  | _ => (false, s)
  end.

(** The exponent part of a numeral: [e] or [E], an optional sign and at
    least one digit; anything else is not part of the number. *)
Definition readExponent (s : string) : Z :=
  match s with
  | String c r =>
      if (code c =? 101) || (code c =? 69) then
        let '(neg, r) := readSign r in
        let '(v, n, _) := digitRun r 0 O in
        if (n =? 0)%nat then 0 else if neg then - v else v
      else 0
  | EmptyString => 0
  end.

(** [String::toFloat], which is [atof]: optional white space and sign,
    then INF, INFINITY or NAN in either case, or digits with an optional
    point and an optional exponent; [0] when no number starts the text.
    The numeral is taken as converted to the nearest [float]. *)
Definition toFloat (s : string) : Float32.float :=
  let '(neg, s) := readSign (trimStart s) in
  let word := toUpperCase (substring 0 3 s) in
  if String.eqb word "INF" then S754_infinity neg
  else if String.eqb word "NAN" then S754_nan
  else
    let '(ip, ni, rest) := digitRun s 0 O in
    let '(fp, nf, rest) :=
      match rest with
      | String "." r => digitRun r 0 O
      | _ => (0, O, rest)
      end in
    if (ni + nf =? 0)%nat then Float32.zero
    else
      Float32.ofDecimal neg (ip * 10 ^ Z.of_nat nf + fp)
                        (readExponent rest - Z.of_nat nf).

(** *** The main loop *)

(** What one pass of [loop] may read from the hardware.  [rx] is the line
    waiting on the serial port, if any; the other fields are used only by
    the code that reads them. *)
Record Tick : Type := mkTick {
  loop_scan : Scan;                  (* checkForObstacles in loop *)
  rx : option string;                (* Serial.readStringUntil *)
  cmd_millis : Z;                    (* millis() in the command's handler *)
  forward_iters : list ForwardIter;  (* the passes of moveForward's loop *)
  test_pulses : Z * Z * Z;           (* TEST_UTS single readings *)
  test_scan : Scan;                  (* TEST_UTS checkForObstacles *)
  test_accels : list (option Accel); (* TEST_GYRO samples *)
  check_millis : Z;                  (* millis() in checkPrecisionMovement *)
  check_scan : Scan;                 (* its checkForObstacles *)
  check_accel : option Accel         (* its readAccel *)
}.

(** The RESET branch. *)
Definition resetState : M unit :=
  stopMotors ;;
  assign (set_isMoving false) ;;
  assign (set_isPrecisionMode false) ;;
  assign (set_pausedForObstacle false) ;;
  assign (set_currentCommand "STOP") ;;
  println ResetDone.

(** The [if]/[else if] chain of [loop] on the trimmed, upper-cased
    command. *)
Definition dispatch (command : string) (t : Tick) : M unit :=
  if startsWith command "MOVE_DISTANCE:" then
    moveDistance (toFloat (substringFrom 14 command)) (cmd_millis t)
  else if startsWith command "TURN_ANGLE:" then
    turnAngle (toFloat (substringFrom 11 command)) (cmd_millis t)
  else if String.eqb command "FORWARD" then
    moveForward (cmd_millis t) (forward_iters t)
  else if String.eqb command "LEFT" then turnLeft
  else if String.eqb command "RIGHT" then turnRight
  else if String.eqb command "STOP" then stopMotors
  else if String.eqb command "TEST_UTS" then
    testUltrasonicSensors (test_pulses t) (test_scan t)
  else if String.eqb command "TEST_GYRO" then testGyroSensor (test_accels t)
  else if String.eqb command "TABLE1_ARRIVED" then tableArrived 1
  else if String.eqb command "TABLE1_RECEIVED" then tableReceived 1
  else if String.eqb command "TABLE2_ARRIVED" then tableArrived 2
  else if String.eqb command "TABLE2_RECEIVED" then tableReceived 2
  else if String.eqb command "TABLE3_ARRIVED" then tableArrived 3
  else if String.eqb command "TABLE3_RECEIVED" then tableReceived 3
  else if String.eqb command "STATUS" then
    text <- read getStatus ;; println (Status text)
  else if String.eqb command "RESET" then resetState
  else println (UnknownCommand command).

(** Whether the chain above has a branch for the command. *)
Definition isKnownCommand (command : string) : bool :=
  startsWith command "MOVE_DISTANCE:"
  || startsWith command "TURN_ANGLE:"
  || existsb (String.eqb command)
       ["FORWARD"; "LEFT"; "RIGHT"; "STOP"; "TEST_UTS"; "TEST_GYRO";
        "TABLE1_ARRIVED"; "TABLE1_RECEIVED"; "TABLE2_ARRIVED";
        "TABLE2_RECEIVED"; "TABLE3_ARRIVED"; "TABLE3_RECEIVED";
        "STATUS"; "RESET"].

(** The "incoming commands" block of [loop] for a line that was read. *)
Definition receive (line : string) (t : Tick) : M unit :=
  let command := toUpperCase (trim line) in
  println (Received command) ;;
  dispatch command t.

(** The obstacle publishing block of [loop]. *)
Definition publishObstacle (s : Scan) : M unit :=
  obstacleNow <- checkForObstacles s ;;
  last <- read lastObstacle ;;
  when (negb (Bool.eqb obstacleNow last))
       (println (if obstacleNow then ObstacleDetected else ObstacleCleared) ;;
        modify (set_lastObstacle obstacleNow)).

(** loop *)
Definition loop (t : Tick) : M unit :=
  when UTS_ENABLED (publishObstacle (loop_scan t)) ;;
  match rx t with
  | Some line => receive line t
  | None => ret tt
  end ;;
  m <- read motion ;;
  when (isMoving m && isPrecisionMode m)
       (checkPrecisionMovement (check_millis t) (check_scan t)
                               (check_accel t)).

(** The globals as initialised, all pins low. *)
Definition initial : Device :=
  mkDevice (mkMotion false EmptyString 0 Float32.zero Float32.zero false
                     false 0 0)
           (mkLatch 0 0 false)
           (mkPins false false 0 false false 0 false false false)
           false 0.

(** What setup leaves behind once the accelerometer has answered (the
    sketch hangs in setup otherwise); its banner lines are not modelled. *)
Definition setup : M unit :=
  stopMotors ;;
  assign (set_isMoving false).

(** Successive passes of [loop]. *)
Fixpoint run (ticks : list Tick) : M unit :=
  match ticks with
  | [] => ret tt
  | t :: rest => loop t ;; run rest
  end.

(** The device when [loop] first runs. *)
Definition booted : Device := state_of (setup initial).


(** *** Vocabulary for the properties *)

(** How one sampling cycle, given its three medians, counts for the
    latch: some sensor below the trigger distance, all three above trigger
    plus margin, or neither (inside the hysteresis band). *)
Inductive Cycle : Type := Below | InBand | AllClear.

Definition classify (r : Z * Z * Z) : Cycle :=
  let '(d1, d2, d3) := r in
  if anyBelow d1 d2 d3 then Below
  else if allClearWithMargin d1 d2 d3 then AllClear
  else InBand.

Definition Cycle_eqb (a b : Cycle) : bool :=
  match a, b with
  | Below, Below | InBand, InBand | AllClear, AllClear => true
  | _, _ => false
  end.

(** The latch after one cycle, and after a sequence of cycles. *)
Definition cycle (l : Latch) (r : Z * Z * Z) : Latch :=
  let '(d1, d2, d3) := r in fst (debounce d1 d2 d3 l).

Definition cycles (rs : list (Z * Z * Z)) (l : Latch) : Latch :=
  fold_left cycle rs l.

(** The three medians of a scan. *)
Definition medians (s : Scan) : Z * Z * Z :=
  (readUltrasonicMedian (uts1 s), readUltrasonicMedian (uts2 s),
   readUltrasonicMedian (uts3 s)).

(** The cycles that move a counter. *)
Definition counted (c : Cycle) : bool :=
  match c with
  | InBand => false
  | _ => true
  end.

(** The kinds of the counted cycles, latest first, and the [n] most
    recent of them. *)
Definition history (rs : list (Z * Z * Z)) : list Cycle :=
  rev (filter counted (map classify rs)).

Definition lastCounted (n : nat) (rs : list (Z * Z * Z)) : list Cycle :=
  firstn n (history rs).

(** How many elements equal to [c] start the list. *)
Fixpoint leading (c : Cycle) (h : list Cycle) : nat :=
  match h with
  | [] => O
  | a :: h' => if Cycle_eqb a c then S (leading c h') else O
  end.

(** Text made of white space only. *)
Fixpoint whitespace (s : string) : bool :=
  match s with
  | EmptyString => true
  | String c r => isspace c && whitespace r
  end.

(** A scan in which every pulse of every sensor has the same width, and a
    pass of [loop] at clock value [now] with such a scan, a level
    accelerometer and possibly a line on the serial port. *)
Definition steadyScan (pulse : Z) : Scan :=
  let five := [pulse; pulse; pulse; pulse; pulse] in
  mkScan five five five.

Definition pass (pulse : Z) (line : option string) (now : Z) : Tick :=
  mkTick (steadyScan pulse) line now [] (0, 0, 0) (steadyScan pulse) []
         now (steadyScan pulse) (Some (normalX, normalY, 0)).

(** A 24 inch move accepted at time 0, then an obstacle at 10 cm (600
    microsecond echoes) seen from 1000 ms on: the latch engages during the
    pass at 2000 ms and the move is paused there. *)
Definition obstacleRun : list Tick :=
  [pass 0 (Some "MOVE_DISTANCE:24.00") 0;
   pass 600 None 1000; pass 600 None 2000].

(** The obstacle gone (no echo) from 3000 ms on, watched until well after
    the move was due. *)
Definition clearedRun : list Tick :=
  [pass 0 None 3000; pass 0 None 4000; pass 0 None 5000;
   pass 0 None 9000; pass 0 None 12000; pass 0 None 20000].


(** The motor pins as stopMotors sets them. *)
Definition stoppedPins (p : Pins) : Pins :=
  mkPins false false 0 false false 0
         (TABLE1_LED_PIN p) (TABLE2_LED_PIN p) (TABLE3_LED_PIN p).

(** The time a turn takes: [(unsigned long)(abs(degrees) / DEGREES_PER_MS)]. *)
Definition turnTimeMs (degrees : Float32.float) : Z :=
  to_ulong (Float32.div (Float32.abs degrees) DEGREES_PER_MS).

(** The time a move takes: [(unsigned long)(inches * MS_PER_INCH)]. *)
Definition moveTimeMs (inches : Float32.float) : Z :=
  to_ulong (Float32.mul inches MS_PER_INCH).

(** No pause time is on the books, and a distance move in hand is not
    marked paused. *)
Definition pauseFree (d : Device) : Prop :=
  totalPausedMs (motion d) = 0
  /\ (currentCommand (motion d) = "MOVE_DISTANCE" ->
      pausedForObstacle (motion d) = false).

(** A state change that leaves the pause accounting alone: the accumulated
    pause is kept, and unless the command in hand ends up different from
    MOVE_DISTANCE, so are the command and the paused flag. *)
Definition keepsPause (d d' : Device) : Prop :=
  totalPausedMs (motion d') = totalPausedMs (motion d)
  /\ (pausedForObstacle (motion d') = pausedForObstacle (motion d)
      \/ currentCommand (motion d') <> "MOVE_DISTANCE")
  /\ (currentCommand (motion d') = currentCommand (motion d)
      \/ currentCommand (motion d') <> "MOVE_DISTANCE").

Definition benign {A : Type} (m : M A) : Prop :=
  forall d, keepsPause d (state_of (m d)).


(** A move of [inches] started at clock value [start] is in progress, not
    paused and with no pause time on the books. *)
Definition movingState (inches : Float32.float) (start : Z) (d : Device)
  : Prop :=
  isMoving (motion d) = true
  /\ isPrecisionMode (motion d) = true
  /\ currentCommand (motion d) = "MOVE_DISTANCE"
  /\ targetDistance (motion d) = inches
  /\ movementStartTime (motion d) = start
  /\ totalPausedMs (motion d) = 0
  /\ pausedForObstacle (motion d) = false.

(** The device is idle with its motors stopped. *)
Definition stoppedState (d : Device) : Prop :=
  isMoving (motion d) = false
  /\ isPrecisionMode (motion d) = false
  /\ currentCommand (motion d) = "STOP"
  /\ pins d = stoppedPins (pins d).

(** The lines the obstacle monitor prints. *)
Definition sensorLine (l : Line) : Prop :=
  match l with
  | ObstacleLatchedLine _ _ _ | ObstacleClearedDebounced
  | ObstacleDetected | ObstacleCleared => True
  | _ => False
  end.

(** How often a line occurs in the output. *)
Definition isCompletion (l : Line) : bool :=
  match l with
  | MovementCompleteSuccess => true
  | _ => false
  end.

Definition completions (o : list Line) : nat :=
  List.length (filter isCompletion o).

(** Whether every character of a text passes a test, and the value of a
    text of decimal digits read after [acc]. *)
Fixpoint all (p : ascii -> bool) (s : string) : bool :=
  match s with
  | EmptyString => true
  | String c r => p c && all p r
  end.

Fixpoint valueOf (s : string) (acc : Z) : Z :=
  match s with
  | EmptyString => acc
  | String c r => valueOf r (10 * acc + (code c - 48))
  end.

(** The characters of a printed number, and those that [trim] and
    [toUpperCase] leave alone. *)
Definition numberChar (c : ascii) : bool :=
  isdigit c || (code c =? 45) || (code c =? 46).

Definition steadyChar (c : ascii) : bool :=
  negb (isspace c) && negb ((97 <=? code c) && (code c <=? 122)).

(** The whole number whose digits a print with [f] decimals shows:
    [|v| * 10^f] rounded, halves upward. *)
Definition scaled (f : nat) (v : Q) : Z :=
  Qfloor (Qabs v * inject_Z (10 ^ Z.of_nat f) + (1 # 2)).

(** The [UTS_SAMPLES] readings that readUltrasonicMedian sorts. *)
Definition sampleReadings (pulses : list Z) : list Z :=
  map (fun i => readUltrasonicDistance (nth i pulses 0)) (seq 0 UTS_SAMPLES).

(** How many elements of a list pass a test. *)
Definition countIf {A : Type} (f : A -> bool) (l : list A) : nat :=
  List.length (filter f l).

(** A computation whose every run is in the relation [T] between the state
    before, the lines printed and the state after. *)
Definition obeys (T : Device -> list Line -> Device -> Prop) {A : Type}
           (m : M A) : Prop :=
  forall d, T d (output_of (m d)) (state_of (m d)).

(** The latch after is the latch before taken through some sampling
    cycles. *)
Definition sampled (d : Device) (o : list Line) (d' : Device) : Prop :=
  exists rs, latch d' = cycles rs (latch d).

(** The counters are within 0..REQUIRED_CONSECUTIVE_HITS, never both
    running, and a full counter agrees with the latch. *)
Definition latchConsistent (l : Latch) : Prop :=
  0 <= obstacleHitCount l <= REQUIRED_CONSECUTIVE_HITS
  /\ 0 <= clearHitCount l <= REQUIRED_CONSECUTIVE_HITS
  /\ (obstacleHitCount l = 0 \/ clearHitCount l = 0)
  /\ (obstacleHitCount l = REQUIRED_CONSECUTIVE_HITS ->
      obstacleLatched l = true)
  /\ (clearHitCount l = REQUIRED_CONSECUTIVE_HITS ->
      obstacleLatched l = false).

(** The obstacle events among the printed lines: [true] for
    OBSTACLE:DETECTED, [false] for OBSTACLE:CLEARED. *)
Definition eventOf (l : Line) : option bool :=
  match l with
  | ObstacleDetected => Some true
  | ObstacleCleared => Some false
  | _ => None
  end.

Fixpoint events (o : list Line) : list bool :=
  match o with
  | [] => []
  | l :: o' =>
      match eventOf l with
      | Some b => b :: events o'
      | None => events o'
      end
  end.

(** Each event is the opposite of the one before it, the first one the
    opposite of [b]. *)
Fixpoint alternates (b : bool) (es : list bool) : bool :=
  match es with
  | [] => true
  | e :: es' => Bool.eqb e (negb b) && alternates e es'
  end.

(** The events printed alternate, starting from the value last published,
    and the value last published afterwards is that of the latest event. *)
Definition published (d : Device) (o : list Line) (d' : Device) : Prop :=
  alternates (lastObstacle d) (events o) = true
  /\ lastObstacle d' = last (events o) (lastObstacle d).

(** Both motors are switched off. *)
Definition motorsOff (p : Pins) : Prop := p = stoppedPins p.

(** Between two passes of [loop]: the motors are off unless isMoving is
    set, and isMoving is set only for a precision movement. *)
Definition safe (d : Device) : Prop :=
  (isMoving (motion d) = false -> motorsOff (pins d))
  /\ (isMoving (motion d) = true ->
      isPrecisionMode (motion d) = true
      /\ (currentCommand (motion d) = "MOVE_DISTANCE"
          \/ currentCommand (motion d) = "TURN_ANGLE")).

(** MOVEMENT_RESUMED is not among the lines printed. *)
Definition quiet (d : Device) (o : list Line) (d' : Device) : Prop :=
  ~ In MovementResumed o.

(** The device is not moving and its motors are off. *)
Definition settled (d : Device) : Prop :=
  isMoving (motion d) = false /\ motorsOff (pins d).

End Firmware.

(** * Properties *)

Module PlannerProofs.
Import Planner.

Lemma calculateTurnAngle_range (c t : Direction) :
  In (calculateTurnAngle c t) [-180; -90; 0; 90; 180].
Proof. destruct c, t; vm_compute; tauto. Qed.

Lemma getNewDirection_calculateTurnAngle (c t : Direction) :
  getNewDirection c (calculateTurnAngle c t) = Some t.
Proof. destruct c, t; reflexivity. Qed.

Lemma host_calculateTurnAngle_range (c t : Host.Direction) :
  In (Host.calculateTurnAngle c t) [-90; 0; 90; 180].
Proof. destruct c, t; vm_compute; tauto. Qed.

Lemma getNewDirection_host_angle (c t : Host.Direction) :
  getNewDirection (Bridge.facing c) (Host.calculateTurnAngle c t)
  = Some (Bridge.facing t).
Proof. destruct c, t; reflexivity. Qed.

(** C1, as stated, fails: for the pair (up, down) the planner computes
    180, which is outside {-180, -90, 0, 90}. *)
Lemma turn_angle_up_down_outside_claimed_set :
  calculateTurnAngle Up Down = 180
  /\ ~ In (calculateTurnAngle Up Down) [-180; -90; 0; 90].
Proof.
  split; [reflexivity|].
  cbn. intros [H|[H|[H|[H|[]]]]]; discriminate H.
Qed.

(** C1 (amended): for every pair of cardinal directions the computed turn
    angle lies in {-180, -90, 0, 90, 180}, and applying it to the current
    facing with getNewDirection yields exactly the target; the host
    controller's calculateTurnAngle stays within {-90, 0, 90, 180} and its
    angle, applied the same way, yields the target as well. *)
Theorem turn_angle_reaches_target :
  (forall current target : Direction,
      In (calculateTurnAngle current target) [-180; -90; 0; 90; 180]
      /\ getNewDirection current (calculateTurnAngle current target)
         = Some target)
  /\ (forall current target : Host.Direction,
         In (Host.calculateTurnAngle current target) [-90; 0; 90; 180]
         /\ getNewDirection (Bridge.facing current)
                            (Host.calculateTurnAngle current target)
            = Some (Bridge.facing target)).
Proof.
  split; intros current target; split.
  - apply calculateTurnAngle_range.
  - apply getNewDirection_calculateTurnAngle.
  - apply host_calculateTurnAngle_range.
  - apply getNewDirection_host_angle.
Qed.

(** C5, as stated, fails: the U-turn from down to up is computed as
    -180, not +180. *)
Lemma u_turn_down_up_is_minus_180 :
  opposite Down Up = true
  /\ calculateTurnAngle Down Up = -180
  /\ calculateTurnAngle Down Up <> 180.
Proof. repeat split; try reflexivity. discriminate. Qed.

Lemma advance_no_turn sel connected angle prev :
  filter isTurn (fst (advance sel connected angle prev)) = [].
Proof.
  unfold advance.
  destruct (_ <=? _); [reflexivity|].
  destruct (nth_error _ _); [|reflexivity].
  destruct (find _ _); [|reflexivity].
  cbn. destruct (_ && _); reflexivity.
Qed.

Lemma moveRobot_one_turn sel comp :
  (List.length (filter isTurn (fst (moveRobot sel comp))) <= 1)%nat.
Proof.
  unfold moveRobot.
  destruct (isMovingRef comp); [cbn; lia|].
  destruct (nth_error _ _); [|cbn; lia].
  destruct (getDirectionFromDelta _ _); [|cbn; lia].
  set (a := calculateTurnAngle _ _).
  assert (Hsent :
            (List.length (filter isTurn
                ((if (a =? 0)%Z then [] else [TurnAngle a])
                   ++ [MoveDistance 24 normal])) <= 1)%nat).
  { destruct (a =? 0); cbn; lia. }
  destruct (arduinoConnected comp); destruct (isMountedRef comp); cbn [negb].
  - pose proof (advance_no_turn sel true a (deliveryState comp)) as Hled.
    destruct (advance sel true a (deliveryState comp)) as [led st'].
    cbn [fst] in *. rewrite filter_app, Hled, app_nil_r. exact Hsent.
  - cbn [fst]. exact Hsent.
  - pose proof (advance_no_turn sel false a (deliveryState comp)) as Hled.
    destruct (advance sel false a (deliveryState comp)) as [led st'].
    cbn [fst app] in *. rewrite Hled. cbn; lia.
  - cbn; lia.
Qed.

(** C5 (amended): for every pair of opposite cardinal directions the
    planner computes one turn of 180 degrees in magnitude, +180 when the
    target comes later than the current facing in the order up, right,
    down, left (up to down, right to left) and -180 in the other order
    (down to up, left to right); the host controller's calculateTurnAngle
    gives +180 in both orders; and a segment never issues more than one
    turn command. *)
Theorem u_turn_is_one_turn_of_180 (current target : Direction) :
  opposite current target = true ->
  calculateTurnAngle current target
  = (if indexOf Direction_eqb directions current
        <? indexOf Direction_eqb directions target
     then 180 else -180)
  /\ Host.calculateTurnAngle (Bridge.compass current) (Bridge.compass target)
     = 180
  /\ forall sel comp,
      (List.length (filter isTurn (fst (moveRobot sel comp))) <= 1)%nat.
Proof.
  intros Hopp. split; [|split].
  - destruct current, target; try discriminate Hopp; reflexivity.
  - destruct current, target; try discriminate Hopp; reflexivity.
  - apply moveRobot_one_turn.
Qed.

Lemma u_turn_is_one_turn_of_180_witness :
  opposite Left Right = true
  /\ calculateTurnAngle Left Right = -180
  /\ Host.calculateTurnAngle Host.west Host.east = 180.
Proof.
  split; [reflexivity|].
  destruct (u_turn_is_one_turn_of_180 Left Right eq_refl) as [H1 [H2 _]].
  split; [exact H1 | exact H2].
Defined.

(** No selected table stands at a position where no table is. *)
Lemma find_table_none sel (p : Position) :
  (forall t, Position_eqb (TABLE_POSITIONS t) p = false) ->
  find (fun t => Position_eqb (TABLE_POSITIONS t) p) sel = None.
Proof.
  intros H. induction sel as [|t sel IH]; [reflexivity|].
  cbn [find]. rewrite H. exact IH.
Qed.

Lemma find_table_number sel (p : Position) (t : Table) :
  find (fun t => Position_eqb (TABLE_POSITIONS t) p) sel = Some t ->
  Position_eqb (TABLE_POSITIONS t) p = true.
Proof.
  intros H. apply find_some in H. exact (proj2 H).
Qed.

Lemma scenario_on_host (w : Host.WriteBehaviour) :
  Bridge.invokeAll w
    [MoveDistance 24 normal; TurnAngle 90; MoveDistance 24 normal]
    (Host.mkController true true Host.initialPosition)
  = (Host.mkController true true (Host.mkRobotPosition 3 3 Host.east),
     match w with
     | Host.WriteThrows => []
     | _ => ["MOVE_DISTANCE:24.00" ++ String "010" EmptyString;
             "TURN_ANGLE:90.0" ++ String "010" EmptyString;
             "MOVE_DISTANCE:24.00" ++ String "010" EmptyString]%string
     end).
Proof.
  destruct w as [|after_ms err|]; [reflexivity| |reflexivity].
  cbn [Bridge.invokeAll Bridge.invoke].
  unfold Host.moveDistance, Host.turnAngle, Host.sendCommand.
  destruct (after_ms <? Host.SEND_TIMEOUT_MS); reflexivity.
Qed.

(** C7: from the pose (2,4) facing up, the path [(2,4),(2,3),(3,3)] makes
    moveRobot issue Move(24) alone for the first segment and Turn(+90)
    then Move(24) for the second, whatever tables are selected, and leaves
    the pose at (3,3) facing right; the controller, fed these calls, writes
    MOVE_DISTANCE:24.00, TURN_ANGLE:90.0, MOVE_DISTANCE:24.00 and ends with
    its own pose at (3,3) facing east. *)
Theorem scenario_two_segments (sel : list Table) (w : Host.WriteBehaviour) :
  let c0 := started scenarioPath in
  let '(calls1, c1) := moveRobot sel c0 in
  let '(calls2, c2) := moveRobot sel c1 in
  calls1 = [MoveDistance 24 normal]
  /\ robotPosition (deliveryState c1) = mkPosition 2 3
  /\ robotDirection (deliveryState c1) = Up
  /\ calls2 = [TurnAngle 90; MoveDistance 24 normal]
  /\ robotPosition (deliveryState c2) = mkPosition 3 3
  /\ robotDirection (deliveryState c2) = Right
  /\ Bridge.invokeAll w (calls1 ++ calls2)
       (Host.mkController true true Host.initialPosition)
     = (Host.mkController true true (Host.mkRobotPosition 3 3 Host.east),
        match w with
        | Host.WriteThrows => []
        | _ => ["MOVE_DISTANCE:24.00" ++ String "010" EmptyString;
                "TURN_ANGLE:90.0" ++ String "010" EmptyString;
                "MOVE_DISTANCE:24.00" ++ String "010" EmptyString]%string
        end).
Proof.
  cbn zeta.
  unfold moveRobot at 1. cbn -[find moveRobot].
  rewrite (find_table_none sel (mkPosition 2 3))
    by (intros t; destruct t; reflexivity).
  cbn -[find Bridge.invokeAll].
  destruct (find _ sel) as [t|] eqn:Hfind.
  - pose proof (find_table_number _ _ _ Hfind) as Ht.
    destruct t; try discriminate Ht.
    cbn -[Bridge.invokeAll]. repeat split; try reflexivity.
    apply scenario_on_host.
  - cbn -[Bridge.invokeAll]. repeat split; try reflexivity.
    apply scenario_on_host.
Qed.

End PlannerProofs.

Module HostProofs.
Import Host.

Lemma sendCommand_resolves (c : Controller) (command : string)
      (w : WriteBehaviour) :
  exists t, settled (sendCommand c command w) = Resolved t
            /\ t <= SEND_TIMEOUT_MS.
Proof.
  unfold sendCommand.
  destruct (negb (port c) || negb (isConnected c)).
  - exists 0. split; [reflexivity|discriminate].
  - destruct w as [|after_ms err|].
    + exists 0. split; [reflexivity|discriminate].
    + destruct (Z.ltb_spec after_ms SEND_TIMEOUT_MS).
      * exists after_ms. split; [reflexivity|lia].
      * exists SEND_TIMEOUT_MS. split; [reflexivity|lia].
    + exists SEND_TIMEOUT_MS. split; [reflexivity|lia].
Qed.

(** C8: for every line and whatever the port does, the promise of
    sendCommand resolves and is never rejected or left pending, at the
    latest when the 5000 ms timer fires; without a connection it resolves
    at once with nothing written and one log entry; a write error still
    resolves it; a write whose callback has not come within 5000 ms is
    resolved by the timer. *)
Theorem sendCommand_never_rejects (c : Controller) (command : string)
        (w : WriteBehaviour) :
  (exists t, settled (sendCommand c command w) = Resolved t
             /\ t <= SEND_TIMEOUT_MS)
  /\ (port c && isConnected c = false ->
      sendCommand c command w
      = mkSendResult (Resolved 0) [] [LogNotConnected command])
  /\ (forall after_ms,
         w = WriteCallback after_ms true ->
         exists t, settled (sendCommand c command w) = Resolved t)
  /\ (port c && isConnected c = true ->
      (w = WriteNoCallback
       \/ exists after_ms err,
           w = WriteCallback after_ms err /\ SEND_TIMEOUT_MS <= after_ms) ->
      settled (sendCommand c command w) = Resolved SEND_TIMEOUT_MS).
Proof.
  split; [apply sendCommand_resolves|]. split; [|split].
  - intros Hoff. unfold sendCommand.
    destruct (port c), (isConnected c); try discriminate Hoff; reflexivity.
  - intros after_ms _.
    destruct (sendCommand_resolves c command w) as [t [Ht _]].
    exists t. exact Ht.
  - intros Hon Hlate. unfold sendCommand.
    destruct (port c), (isConnected c); try discriminate Hon. cbn.
    destruct Hlate as [-> | [after_ms [err [-> Hle]]]]; [reflexivity|].
    destruct (Z.ltb_spec after_ms SEND_TIMEOUT_MS); [lia|reflexivity].
Qed.

Lemma sendCommand_never_rejects_witness :
  sendCommand (mkController false false initialPosition) "RESET"
              WriteNoCallback
  = mkSendResult (Resolved 0) [] [LogNotConnected "RESET"]
  /\ (exists t, settled (sendCommand (mkController true true initialPosition)
                                     "RESET" (WriteCallback 12 true))
                = Resolved t)
  /\ settled (sendCommand (mkController true true initialPosition) "RESET"
                          (WriteCallback 7000 false))
     = Resolved SEND_TIMEOUT_MS.
Proof.
  split; [|split].
  - apply (sendCommand_never_rejects
             (mkController false false initialPosition) "RESET"
             WriteNoCallback).
    reflexivity.
  - apply (proj1 (proj2 (proj2
             (sendCommand_never_rejects
                (mkController true true initialPosition) "RESET"
                (WriteCallback 12 true)))) 12).
    reflexivity.
  - apply (sendCommand_never_rejects
             (mkController true true initialPosition) "RESET"
             (WriteCallback 7000 false)).
    + reflexivity.
    + right. exists 7000, false. split; [reflexivity|].
      unfold SEND_TIMEOUT_MS. lia.
Defined.

(** The controller's own path converter encodes the absolute heading of each
    step (0 for east, -90 for north), not the turn from the current facing:
    on the scenario path it asks for a turn of -90 before the first move and
    for none before the second.  The delivery flow does not call it. *)
Remark convertPathToPrecisionCommands_scenario :
  convertPathToPrecisionCommands [(2, 4); (2, 3); (3, 3)]
  = Some [mkPrecisionMovementCommand act_turnAngle (inject_Z (-90)) precision;
          mkPrecisionMovementCommand act_moveDistance (inject_Z 24) precision;
          mkPrecisionMovementCommand act_moveDistance (inject_Z 24) precision].
Proof. reflexivity. Qed.

(** C9: on the controller, moveDistance with a distance that is not
    positive and turnAngle with angle 0 do nothing: no data is written and
    the controller, pose included, is unchanged. *)
Theorem invalid_motion_is_noop (speed : Speed) (w : WriteBehaviour)
        (c : Controller) :
  (forall inches : Q,
      (inches <= 0)%Q -> moveDistance inches speed w c = (c, []))
  /\ (forall degrees : Q,
         (degrees == 0)%Q -> turnAngle degrees speed w c = (c, [])).
Proof.
  split.
  - intros inches Hle. unfold moveDistance.
    apply Qle_bool_iff in Hle. rewrite Hle. reflexivity.
  - intros degrees Hz. unfold turnAngle.
    apply Qeq_bool_iff in Hz. rewrite Hz. reflexivity.
Qed.

Lemma invalid_motion_is_noop_witness :
  let c := mkController true true initialPosition in
  moveDistance (- 5 # 1) normal WriteNoCallback c = (c, [])
  /\ moveDistance 0 precision WriteNoCallback c = (c, [])
  /\ turnAngle 0 precision WriteNoCallback c = (c, []).
Proof.
  cbn zeta.
  split; [|split].
  - apply (invalid_motion_is_noop normal WriteNoCallback
             (mkController true true initialPosition)).
    unfold Qle; cbn; lia.
  - apply (invalid_motion_is_noop precision WriteNoCallback
             (mkController true true initialPosition)).
    unfold Qle; cbn; lia.
  - apply (invalid_motion_is_noop precision WriteNoCallback
             (mkController true true initialPosition)).
    reflexivity.
Defined.

End HostProofs.

Module LatchProofs.
Import Firmware.

(** The thresholds on whole centimetres: below 20.32 is at most 20, above
    25.32 is at least 26. *)
Lemma anyBelow_spec (d1 d2 d3 : Z) :
  anyBelow d1 d2 d3 = (d1 <=? 20) || (d2 <=? 20) || (d3 <=? 20).
Proof.
  assert (H : forall d, Qlt_bool (inject_Z d) OBSTACLE_DISTANCE_CM
                        = (d <=? 20)).
  { intros d. unfold Qlt_bool, Qle_bool, OBSTACLE_DISTANCE_CM. cbn.
    destruct (Z.leb_spec 2032 (d * 100)), (Z.leb_spec d 20);
      cbn; try reflexivity; lia. }
  unfold anyBelow. rewrite !H. reflexivity.
Qed.

Lemma allClearWithMargin_spec (d1 d2 d3 : Z) :
  allClearWithMargin d1 d2 d3 = (26 <=? d1) && (26 <=? d2) && (26 <=? d3).
Proof.
  assert (H : forall d,
             Qlt_bool (OBSTACLE_DISTANCE_CM + CLEAR_HYSTERESIS_CM)
                      (inject_Z d) = (26 <=? d)).
  { intros d. unfold Qlt_bool, Qle_bool, OBSTACLE_DISTANCE_CM,
      CLEAR_HYSTERESIS_CM. cbn.
    destruct (Z.leb_spec (d * 100) 2532), (Z.leb_spec 26 d);
      cbn; try reflexivity; lia. }
  unfold allClearWithMargin. rewrite !H. reflexivity.
Qed.

(** The counters after a cycle, by the kind of the cycle. *)
Lemma cycle_counters (l : Latch) (r : Z * Z * Z) :
  obstacleHitCount (cycle l r)
  = match classify r with
    | Below => Z.min (obstacleHitCount l + 1) REQUIRED_CONSECUTIVE_HITS
    | AllClear => 0
    | InBand => obstacleHitCount l
    end
  /\ clearHitCount (cycle l r)
     = match classify r with
       | Below => 0
       | AllClear => Z.min (clearHitCount l + 1) REQUIRED_CONSECUTIVE_HITS
       | InBand => clearHitCount l
       end.
Proof.
  destruct r as [[d1 d2] d3]. unfold cycle, classify, debounce.
  destruct (anyBelow d1 d2 d3); [|destruct (allClearWithMargin d1 d2 d3)];
    cbn [obstacleLatched obstacleHitCount clearHitCount];
    repeat match goal with
           | |- context [if ?b then _ else _] => destruct b
           end; cbn; split; reflexivity.
Qed.

(** The latch changes only when the matching counter is full. *)
Lemma cycle_engages (l : Latch) (r : Z * Z * Z) :
  obstacleLatched l = false -> obstacleLatched (cycle l r) = true ->
  REQUIRED_CONSECUTIVE_HITS <= obstacleHitCount (cycle l r).
Proof.
  destruct r as [[d1 d2] d3]. unfold cycle, debounce. intros Hl.
  destruct (anyBelow d1 d2 d3); [|destruct (allClearWithMargin d1 d2 d3)];
    cbn [obstacleLatched obstacleHitCount clearHitCount]; rewrite ?Hl;
    cbn [negb andb];
    repeat match goal with
           | |- context [if ?b then _ else _] =>
               let E := fresh "E" in destruct b eqn:E
           end; cbn in *; intros H; try discriminate H; try congruence;
    repeat match goal with
           | E : (_ <=? _) = true |- _ => apply Z.leb_le in E
           | E : (_ && _) = true |- _ => apply andb_prop in E; destruct E
           end; try discriminate; try assumption.
Qed.

Lemma cycle_clears (l : Latch) (r : Z * Z * Z) :
  obstacleLatched l = true -> obstacleLatched (cycle l r) = false ->
  REQUIRED_CONSECUTIVE_HITS <= clearHitCount (cycle l r).
Proof.
  destruct r as [[d1 d2] d3]. unfold cycle, debounce. intros Hl.
  destruct (anyBelow d1 d2 d3); [|destruct (allClearWithMargin d1 d2 d3)];
    cbn [obstacleLatched obstacleHitCount clearHitCount]; rewrite ?Hl;
    cbn [negb andb];
    repeat match goal with
           | |- context [if ?b then _ else _] =>
               let E := fresh "E" in destruct b eqn:E
           end; cbn in *; intros H; try discriminate H; try congruence;
    repeat match goal with
           | E : (_ <=? _) = true |- _ => apply Z.leb_le in E
           | E : (_ && _) = true |- _ => apply andb_prop in E; destruct E
           end; try discriminate; try assumption.
Qed.

Lemma cycles_snoc (rs : list (Z * Z * Z)) (r : Z * Z * Z) (l : Latch) :
  cycles (rs ++ [r]) l = cycle (cycles rs l) r.
Proof. unfold cycles. rewrite fold_left_app. reflexivity. Qed.

Lemma history_snoc (rs : list (Z * Z * Z)) (r : Z * Z * Z) :
  history (rs ++ [r])
  = if counted (classify r) then classify r :: history rs else history rs.
Proof.
  unfold history. rewrite map_app, filter_app, rev_app_distr. cbn.
  destruct (counted (classify r)); reflexivity.
Qed.

(** Each counter is the length, capped at three, of the run of its kind
    that ends the counted history. *)
Lemma counters_track_history (rs : list (Z * Z * Z)) :
  obstacleHitCount (cycles rs (latch booted))
  = Z.min 3 (Z.of_nat (leading Below (history rs)))
  /\ clearHitCount (cycles rs (latch booted))
     = Z.min 3 (Z.of_nat (leading AllClear (history rs))).
Proof.
  induction rs as [|r rs [IHhit IHclear]] using rev_ind.
  - split; reflexivity.
  - rewrite cycles_snoc, history_snoc.
    destruct (cycle_counters (cycles rs (latch booted)) r) as [Hh Hc].
    rewrite Hh, Hc, IHhit, IHclear. unfold REQUIRED_CONSECUTIVE_HITS.
    destruct (classify r); cbn [counted leading Cycle_eqb]; split; lia.
Qed.

Lemma leading_three (c : Cycle) (h : list Cycle) :
  (3 <= leading c h)%nat -> firstn 3 h = [c; c; c].
Proof.
  destruct h as [|a [|b [|e h]]]; cbn; try lia;
    destruct a, c; cbn; try lia;
    destruct b; cbn; try lia;
    destruct e; cbn; try lia; reflexivity.
Qed.

Lemma engage_needs_three_hits (rs : list (Z * Z * Z)) (r : Z * Z * Z) :
  obstacleLatched (cycles rs (latch booted)) = false ->
  obstacleLatched (cycles (rs ++ [r]) (latch booted)) = true ->
  lastCounted 3 (rs ++ [r]) = [Below; Below; Below].
Proof.
  intros Hoff Hon. rewrite cycles_snoc in Hon.
  pose proof (cycle_engages _ _ Hoff Hon) as Hfull.
  rewrite <- cycles_snoc in Hfull.
  rewrite (proj1 (counters_track_history (rs ++ [r]))) in Hfull.
  unfold REQUIRED_CONSECUTIVE_HITS in Hfull.
  apply leading_three. lia.
Qed.

Lemma clear_needs_three_clears (rs : list (Z * Z * Z)) (r : Z * Z * Z) :
  obstacleLatched (cycles rs (latch booted)) = true ->
  obstacleLatched (cycles (rs ++ [r]) (latch booted)) = false ->
  lastCounted 3 (rs ++ [r]) = [AllClear; AllClear; AllClear].
Proof.
  intros Hon Hoff. rewrite cycles_snoc in Hoff.
  pose proof (cycle_clears _ _ Hon Hoff) as Hfull.
  rewrite <- cycles_snoc in Hfull.
  rewrite (proj2 (counters_track_history (rs ++ [r]))) in Hfull.
  unfold REQUIRED_CONSECUTIVE_HITS in Hfull.
  apply leading_three. lia.
Qed.

Lemma classify_Below (r : Z * Z * Z) :
  classify r = Below <->
  anyBelow (fst (fst r)) (snd (fst r)) (snd r) = true.
Proof.
  destruct r as [[d1 d2] d3]. unfold classify. cbn [fst snd].
  destruct (anyBelow d1 d2 d3); [tauto|].
  destruct (allClearWithMargin d1 d2 d3); split; discriminate.
Qed.

(** A full hit counter on a below-trigger cycle means the latch is on. *)
Lemma full_hits_latched (l : Latch) (r : Z * Z * Z) :
  classify r = Below ->
  REQUIRED_CONSECUTIVE_HITS <= obstacleHitCount (cycle l r) ->
  obstacleLatched (cycle l r) = true.
Proof.
  intros Hb. apply classify_Below in Hb.
  destruct r as [[d1 d2] d3]. cbn [fst snd] in Hb.
  unfold cycle, debounce. rewrite Hb.
  cbn [obstacleLatched obstacleHitCount clearHitCount].
  intros Hfull.
  destruct (obstacleLatched l); cbn [negb andb].
  - cbn. reflexivity.
  - destruct (Z.leb_spec REQUIRED_CONSECUTIVE_HITS
                (Z.min (obstacleHitCount l + 1) REQUIRED_CONSECUTIVE_HITS))
      as [_|Hlt].
    + reflexivity.
    + cbn in Hfull. lia.
Qed.

Lemma two_hits_do_not_engage (r1 r2 r3 : Z * Z * Z) :
  classify r1 = Below -> classify r2 = Below -> classify r3 <> Below ->
  obstacleLatched (cycles [r1; r2; r3] (latch booted)) = false.
Proof.
  intros H1 H2 H3.
  destruct (obstacleLatched (cycles [r1; r2; r3] (latch booted))) eqn:Hon;
    [|reflexivity].
  exfalso.
  assert (Hoff : obstacleLatched (cycles [r1; r2] (latch booted)) = false).
  { apply classify_Below in H1, H2.
    destruct r1 as [[a1 a2] a3], r2 as [[b1 b2] b3]. cbn [fst snd] in *.
    unfold cycles, cycle, debounce. cbn [fold_left]. rewrite H1.
    cbn. rewrite H2. reflexivity. }
  pose proof (engage_needs_three_hits [r1; r2] r3 Hoff Hon) as Hlast.
  unfold lastCounted in Hlast. rewrite history_snoc in Hlast.
  destruct (classify r3); cbn in Hlast; try congruence.
  unfold history in Hlast. cbn in Hlast. rewrite H1, H2 in Hlast.
  discriminate Hlast.
Qed.

Lemma three_hits_engage (rs : list (Z * Z * Z)) (r1 r2 r3 : Z * Z * Z) :
  classify r1 = Below -> classify r2 = Below -> classify r3 = Below ->
  obstacleLatched (cycles (rs ++ [r1; r2; r3]) (latch booted)) = true.
Proof.
  intros H1 H2 H3.
  change (rs ++ [r1; r2; r3]) with (rs ++ [r1; r2] ++ [r3]).
  rewrite app_assoc, cycles_snoc.
  apply full_hits_latched; [exact H3|].
  rewrite <- cycles_snoc.
  rewrite (proj1 (counters_track_history ((rs ++ [r1; r2]) ++ [r3]))).
  rewrite history_snoc, H3. cbn [counted].
  change (rs ++ [r1; r2]) with (rs ++ [r1] ++ [r2]).
  rewrite app_assoc, history_snoc, H2, history_snoc, H1.
  cbn [counted leading Cycle_eqb]. unfold REQUIRED_CONSECUTIVE_HITS. lia.
Qed.

Lemma checkForObstacles_cycle (s : Scan) (d : Device) :
  latch (state_of (checkForObstacles s d)) = cycle (latch d) (medians s)
  /\ fst (fst (checkForObstacles s d))
     = obstacleLatched (cycle (latch d) (medians s)).
Proof.
  unfold checkForObstacles, cycle, medians, state_of.
  destruct (debounce _ _ _ (latch d)) as [l o]. split; reflexivity.
Qed.

Lemma cycle_consistent (l : Latch) (r : Z * Z * Z) :
  latchConsistent l -> latchConsistent (cycle l r).
Proof.
  destruct r as [[d1 d2] d3]. destruct l as [hit clear on].
  unfold latchConsistent, cycle, debounce, REQUIRED_CONSECUTIVE_HITS.
  cbn [obstacleHitCount clearHitCount obstacleLatched].
  intros [Hh [Hc [Hz [Hfull Hclear]]]].
  destruct (anyBelow d1 d2 d3); [|destruct (allClearWithMargin d1 d2 d3)];
    cbn [obstacleHitCount clearHitCount obstacleLatched];
    repeat match goal with
           | |- context [if ?b then _ else _] =>
               let E := fresh "E" in destruct b eqn:E
           end;
    cbn [fst obstacleHitCount clearHitCount obstacleLatched] in *;
    repeat match goal with
           | E : (_ && _) = true |- _ =>
               apply andb_prop in E; destruct E
           | E : (_ && _) = false |- _ =>
               apply andb_false_iff in E; destruct E
           | E : negb _ = true |- _ => apply negb_true_iff in E
           | E : negb _ = false |- _ => apply negb_false_iff in E
           | E : (_ <=? _) = true |- _ => apply Z.leb_le in E
           | E : (_ <=? _) = false |- _ => apply Z.leb_gt in E
           end; subst;
    repeat split; try lia; try congruence;
    try (intros; first [reflexivity | lia | congruence
                       | (apply Hfull; lia) | (apply Hclear; lia)]).
Qed.

Lemma cycles_consistent (rs : list (Z * Z * Z)) (l : Latch) :
  latchConsistent l -> latchConsistent (cycles rs l).
Proof.
  revert l. induction rs as [|r rs IH]; intros l Hl; [exact Hl|].
  cbn. apply IH. apply cycle_consistent. exact Hl.
Qed.

(** A cycle inside the hysteresis band changes nothing of a latch whose
    full counters agree with it. *)
Lemma cycle_in_band (l : Latch) (r : Z * Z * Z) :
  latchConsistent l -> classify r = InBand -> cycle l r = l.
Proof.
  destruct r as [[d1 d2] d3]. destruct l as [hit clear on].
  unfold latchConsistent, classify, cycle, debounce,
    REQUIRED_CONSECUTIVE_HITS.
  cbn [obstacleHitCount clearHitCount obstacleLatched].
  intros [Hh [Hc [Hz [Hfull Hclear]]]].
  destruct (anyBelow d1 d2 d3); [discriminate|].
  destruct (allClearWithMargin d1 d2 d3); [discriminate|]. intros _.
  cbn [obstacleHitCount clearHitCount obstacleLatched].
  destruct on; cbn [negb andb obstacleHitCount clearHitCount obstacleLatched].
  - destruct (Z.leb_spec 3 clear) as [Hge|Hlt]; [|reflexivity].
    assert (true = false) by (apply Hclear; lia). discriminate.
  - destruct (Z.leb_spec 3 hit) as [Hge|Hlt]; [|reflexivity].
    assert (false = true) by (apply Hfull; lia). discriminate.
Qed.

Lemma booted_consistent : latchConsistent (latch booted).
Proof.
  unfold latchConsistent, REQUIRED_CONSECUTIVE_HITS. cbn.
  repeat split; try lia; intros H; discriminate H.
Qed.

(** An in-band cycle can be left out of a session without a trace: the
    counters and the latch go on from where they were. *)
Lemma in_band_leaves_no_trace (rs rs' : list (Z * Z * Z)) (r : Z * Z * Z) :
  classify r = InBand ->
  cycles (rs ++ r :: rs') (latch booted) = cycles (rs ++ rs') (latch booted).
Proof.
  intros Hr. unfold cycles. rewrite !fold_left_app. cbn [fold_left].
  fold (cycles rs (latch booted)).
  rewrite (cycle_in_band _ r (cycles_consistent rs _ booted_consistent) Hr).
  reflexivity.
Qed.

(** C4, as stated, fails: after two below-trigger cycles, one cycle inside
    the hysteresis band (nearest reading 22 cm) and one more below-trigger
    cycle the latch engages, although the three latest cycles are not all
    below trigger; and an active latch clears after two all-clear cycles,
    one in-band cycle and one more all-clear cycle. *)
Lemma latch_ignores_in_band_cycles :
  let hit := (10, 100, 100) in
  let band := (22, 100, 100) in
  let clear := (100, 100, 100) in
  (obstacleLatched (cycles [hit; hit; band] (latch booted)) = false
   /\ obstacleLatched (cycles [hit; hit; band; hit] (latch booted)) = true
   /\ map classify [hit; band; hit] = [Below; InBand; Below])
  /\ (obstacleLatched
        (cycles [hit; hit; hit; clear; clear; band] (latch booted)) = true
      /\ obstacleLatched
           (cycles [hit; hit; hit; clear; clear; band; clear]
                   (latch booted)) = false
      /\ map classify [clear; band; clear] = [AllClear; InBand; AllClear]).
Proof. cbn zeta. repeat split; reflexivity. Qed.

(** C4 (amended): the obstacle latch becomes active only at a cycle that
    completes three below-trigger cycles with no all-clear-with-margin
    cycle among them; cycles inside the hysteresis band (no sensor below
    the trigger distance, yet not all three above trigger plus margin)
    leave both counters as they are, so they neither count nor break the
    run: such a cycle can be left out of the session without a trace, and
    two below-trigger cycles, an in-band cycle and one more below-trigger
    cycle engage the latch.  Two below-trigger cycles followed by one
    cycle that is not below trigger do not engage the latch; three
    below-trigger cycles in a row always do.  Once active, the latch clears only at a cycle that
    completes three all-clear-with-margin cycles with no below-trigger
    cycle among them.  checkForObstacles performs exactly one such cycle
    on the medians of its scan. *)
Theorem latch_debounce_with_hysteresis :
  (forall rs r,
      obstacleLatched (cycles rs (latch booted)) = false ->
      obstacleLatched (cycles (rs ++ [r]) (latch booted)) = true ->
      lastCounted 3 (rs ++ [r]) = [Below; Below; Below])
  /\ (forall r1 r2 r3,
         classify r1 = Below -> classify r2 = Below ->
         classify r3 <> Below ->
         obstacleLatched (cycles [r1; r2; r3] (latch booted)) = false)
  /\ (forall rs r1 r2 r3,
         classify r1 = Below -> classify r2 = Below ->
         classify r3 = Below ->
         obstacleLatched (cycles (rs ++ [r1; r2; r3]) (latch booted))
         = true)
  /\ (forall rs r,
         obstacleLatched (cycles rs (latch booted)) = true ->
         obstacleLatched (cycles (rs ++ [r]) (latch booted)) = false ->
         lastCounted 3 (rs ++ [r]) = [AllClear; AllClear; AllClear])
  /\ (forall s d,
         latch (state_of (checkForObstacles s d))
         = cycle (latch d) (medians s)
         /\ fst (fst (checkForObstacles s d))
            = obstacleLatched (cycle (latch d) (medians s)))
  /\ (forall l r,
         classify r = InBand ->
         obstacleHitCount (cycle l r) = obstacleHitCount l
         /\ clearHitCount (cycle l r) = clearHitCount l)
  /\ (forall rs rs' r,
         classify r = InBand ->
         cycles (rs ++ r :: rs') (latch booted)
         = cycles (rs ++ rs') (latch booted))
  /\ (forall rs r1 r2 r3 band,
         classify r1 = Below -> classify r2 = Below ->
         classify r3 = Below -> classify band = InBand ->
         obstacleLatched
           (cycles (rs ++ [r1; r2; band; r3]) (latch booted)) = true).
Proof.
  split; [exact engage_needs_three_hits|].
  split; [exact two_hits_do_not_engage|].
  split; [exact three_hits_engage|].
  split; [exact clear_needs_three_clears|].
  split; [exact checkForObstacles_cycle|].
  split.
  { intros l r Hr. destruct (cycle_counters l r) as [Hh Hc].
    rewrite Hr in Hh, Hc. split; assumption. }
  split; [exact in_band_leaves_no_trace|].
  intros rs r1 r2 r3 band H1 H2 H3 Hb.
  change (rs ++ [r1; r2; band; r3]) with (rs ++ [r1; r2] ++ band :: [r3]).
  rewrite app_assoc, (in_band_leaves_no_trace _ _ _ Hb), <- app_assoc.
  exact (three_hits_engage rs r1 r2 r3 H1 H2 H3).
Qed.

Lemma latch_debounce_with_hysteresis_witness :
  let hit := (10, 100, 100) in
  let far := (100, 100, 100) in
  lastCounted 3 ([hit; hit] ++ [hit]) = [Below; Below; Below]
  /\ obstacleLatched (cycles [hit; hit; far] (latch booted)) = false
  /\ obstacleLatched (cycles ([far] ++ [hit; hit; hit]) (latch booted))
     = true
  /\ lastCounted 3 ([hit; hit; hit; far; far] ++ [far])
     = [AllClear; AllClear; AllClear].
Proof.
  cbn zeta.
  destruct latch_debounce_with_hysteresis as [H1 [H2 [H3 [H4 _]]]].
  split; [|split; [|split]].
  - apply H1; reflexivity.
  - apply H2; [reflexivity|reflexivity|discriminate].
  - apply H3; reflexivity.
  - apply H4; reflexivity.
Defined.

End LatchProofs.

Module CommandProofs.
Import Firmware.

Lemma isspace_toupper (c : ascii) : isspace (toupper c) = isspace c.
Proof. destruct c as [[] [] [] [] [] [] [] []]; reflexivity. Qed.

Lemma toupper_idem (c : ascii) : toupper (toupper c) = toupper c.
Proof. destruct c as [[] [] [] [] [] [] [] []]; reflexivity. Qed.

Lemma toUpperCase_idem (s : string) :
  toUpperCase (toUpperCase s) = toUpperCase s.
Proof.
  induction s as [|c r IH]; [reflexivity|].
  cbn. rewrite toupper_idem, IH. reflexivity.
Qed.

Lemma trimStart_upper (s : string) :
  trimStart (toUpperCase s) = toUpperCase (trimStart s).
Proof.
  induction s as [|c r IH]; [reflexivity|].
  cbn. rewrite isspace_toupper. destruct (isspace c); [exact IH|reflexivity].
Qed.

Lemma trimEnd_upper (s : string) :
  trimEnd (toUpperCase s) = toUpperCase (trimEnd s).
Proof.
  induction s as [|c r IH]; [reflexivity|].
  cbn. rewrite IH, isspace_toupper.
  destruct (trimEnd r); cbn; [destruct (isspace c)|]; reflexivity.
Qed.

Lemma trim_upper (s : string) : trim (toUpperCase s) = toUpperCase (trim s).
Proof. unfold trim. rewrite trimStart_upper, trimEnd_upper. reflexivity. Qed.

Lemma trimEnd_idem (s : string) : trimEnd (trimEnd s) = trimEnd s.
Proof.
  induction s as [|c r IH]; [reflexivity|].
  cbn. destruct (trimEnd r) as [|c' r'] eqn:E.
  - destruct (isspace c) eqn:Hc; cbn; [reflexivity|].
    rewrite Hc. reflexivity.
  - cbn [trimEnd] in *. rewrite IH. reflexivity.
Qed.

Lemma trimEnd_keeps_head (c : ascii) (r : string) :
  isspace c = false -> exists r', trimEnd (String c r) = String c r'.
Proof.
  intros Hc. cbn. destruct (trimEnd r) as [|c' r'].
  - rewrite Hc. eexists; reflexivity.
  - eexists; reflexivity.
Qed.

Lemma trimStart_cases (s : string) :
  trimStart s = EmptyString
  \/ exists c r, trimStart s = String c r /\ isspace c = false.
Proof.
  induction s as [|c r IH]; [left; reflexivity|].
  cbn. destruct (isspace c) eqn:Hc; [exact IH|].
  right. exists c, r. split; [reflexivity|exact Hc].
Qed.

Lemma trim_idem (s : string) : trim (trim s) = trim s.
Proof.
  unfold trim.
  destruct (trimStart_cases s) as [E | [c [r [E Hc]]]]; rewrite E.
  - reflexivity.
  - destruct (trimEnd_keeps_head c r Hc) as [r' Er]. rewrite Er.
    cbn [trimStart]. rewrite Hc, <- Er. apply trimEnd_idem.
Qed.

Lemma normalise_idem (s : string) :
  toUpperCase (trim (toUpperCase (trim s))) = toUpperCase (trim s).
Proof. rewrite trim_upper, trim_idem, toUpperCase_idem. reflexivity. Qed.

Lemma trimStart_whitespace (s : string) :
  whitespace s = true -> trimStart s = EmptyString.
Proof.
  induction s as [|c r IH]; [reflexivity|].
  cbn. intros H. apply andb_prop in H. destruct H as [Hc Hr].
  rewrite Hc. exact (IH Hr).
Qed.

Lemma trimEnd_whitespace (s : string) :
  whitespace s = true -> trimEnd s = EmptyString.
Proof.
  induction s as [|c r IH]; [reflexivity|].
  cbn. intros H. apply andb_prop in H. destruct H as [Hc Hr].
  rewrite (IH Hr), Hc. reflexivity.
Qed.

Lemma trimStart_pad (pre s : string) :
  whitespace pre = true -> trimStart (pre ++ s) = trimStart s.
Proof.
  induction pre as [|c r IH]; [reflexivity|].
  cbn. intros H. apply andb_prop in H. destruct H as [Hc Hr].
  rewrite Hc. exact (IH Hr).
Qed.

Lemma trimEnd_pad (s post : string) :
  whitespace post = true -> trimEnd (s ++ post) = trimEnd s.
Proof.
  intros Hp. induction s as [|c r IH].
  - cbn. apply trimEnd_whitespace, Hp.
  - cbn. rewrite IH. reflexivity.
Qed.

Lemma trimStart_app (s post : string) :
  trimStart (s ++ post)
  = match trimStart s with
    | EmptyString => trimStart post
    | t => (t ++ post)%string
    end.
Proof.
  induction s as [|c r IH]; [cbn; destruct (trimStart post); reflexivity|].
  cbn. destruct (isspace c); [exact IH|reflexivity].
Qed.

Lemma trim_pad (pre s post : string) :
  whitespace pre = true -> whitespace post = true ->
  trim (pre ++ s ++ post) = trim s.
Proof.
  intros Hpre Hpost. unfold trim.
  rewrite (trimStart_pad _ _ Hpre), trimStart_app.
  destruct (trimStart s) as [|c r].
  - rewrite (trimStart_whitespace _ Hpost). reflexivity.
  - apply trimEnd_pad, Hpost.
Qed.

Lemma dispatch_unknown (command : string) (t : Tick) :
  isKnownCommand command = false ->
  dispatch command t = println (UnknownCommand command).
Proof.
  unfold isKnownCommand, dispatch. cbn [existsb]. intros H.
  repeat match type of H with
         | (_ || _) = false =>
             let H1 := fresh "H" in
             apply orb_false_elim in H; destruct H as [H1 H]
         end.
  repeat match goal with
         | E : ?b = false |- context [if ?b then _ else _] => rewrite E
         | E : (?b || _) = false |- _ =>
             let H1 := fresh "H" in
             apply orb_false_elim in E; destruct E as [H1 E]
         end.
  reflexivity.
Qed.

Lemma receive_dispatch (line : string) (t : Tick) (d : Device) :
  receive line t d
  = (let '(u, d', o) := dispatch (toUpperCase (trim line)) t d in
     (u, d', Received (toUpperCase (trim line)) :: o)).
Proof. unfold receive, bind, println. reflexivity. Qed.

(** C10: every received line is trimmed and upper-cased before dispatch,
    so white space around it and the case of its letters make no
    difference (["reset"] acts as ["RESET"]); a line that matches no
    branch of the dispatch leaves the whole device state unchanged and is
    answered, after the echo every line gets, with the Unknown-command
    line only. *)
Theorem commands_are_normalised (line : string) (t : Tick) (d : Device) :
  let command := toUpperCase (trim line) in
  receive line t d
  = (let '(u, d', o) := dispatch command t d in
     (u, d', Received command :: o))
  /\ receive command t d = receive line t d
  /\ (forall pre post,
         whitespace pre = true -> whitespace post = true ->
         receive (pre ++ line ++ post) t d = receive line t d)
  /\ (forall line',
         toUpperCase line' = toUpperCase line ->
         receive line' t d = receive line t d)
  /\ receive "reset" t d = receive "RESET" t d
  /\ (isKnownCommand command = false ->
      dispatch command t d = (tt, d, [UnknownCommand command])
      /\ receive line t d
         = (tt, d, [Received command; UnknownCommand command])).
Proof.
  cbn zeta. split; [apply receive_dispatch|].
  split; [|split; [|split; [|split]]].
  - unfold receive. rewrite normalise_idem. reflexivity.
  - intros pre post Hpre Hpost. unfold receive.
    rewrite (trim_pad _ _ _ Hpre Hpost). reflexivity.
  - intros line' Hcase. unfold receive.
    rewrite <- !trim_upper, Hcase. reflexivity.
  - reflexivity.
  - intros Hunknown.
    rewrite receive_dispatch, (dispatch_unknown _ t Hunknown).
    split; reflexivity.
Qed.

Lemma commands_are_normalised_witness :
  let t := pass 0 None 0 in
  receive (" " ++ "hello" ++ String "013" EmptyString) t booted
  = receive "hello" t booted
  /\ receive "Hello" t booted = receive "hello" t booted
  /\ receive "hello" t booted
     = (tt, booted, [Received "HELLO"; UnknownCommand "HELLO"]).
Proof.
  cbn zeta.
  destruct (commands_are_normalised "hello" (pass 0 None 0) booted)
    as [_ [_ [Hpad [Hcase [_ Hunknown]]]]].
  split; [|split].
  - apply Hpad; reflexivity.
  - apply Hcase; reflexivity.
  - apply Hunknown. reflexivity.
Defined.

(** C3: while isMoving is true, moveDistance and turnAngle, called
    directly or through a MOVE_DISTANCE: or TURN_ANGLE: command line, print
    the Blocked line and return with every field of the device state as it
    was. *)
Theorem busy_device_blocks_motion (d : Device) :
  isMoving (motion d) = true ->
  (forall inches now, moveDistance inches now d = (tt, d, [Blocked]))
  /\ (forall degrees now, turnAngle degrees now d = (tt, d, [Blocked]))
  /\ (forall command t,
         startsWith command "MOVE_DISTANCE:" = true
         \/ startsWith command "TURN_ANGLE:" = true ->
         dispatch command t d = (tt, d, [Blocked])).
Proof.
  intros Hbusy.
  assert (Hmove : forall inches now,
             moveDistance inches now d = (tt, d, [Blocked])).
  { intros. unfold moveDistance, bind, read. rewrite Hbusy. reflexivity. }
  assert (Hturn : forall degrees now,
             turnAngle degrees now d = (tt, d, [Blocked])).
  { intros. unfold turnAngle, bind, read. rewrite Hbusy. reflexivity. }
  split; [exact Hmove|]. split; [exact Hturn|].
  intros command t Hcmd. unfold dispatch.
  destruct (startsWith command "MOVE_DISTANCE:"); [apply Hmove|].
  destruct Hcmd as [Hcmd|Hcmd]; [discriminate Hcmd|].
  rewrite Hcmd. apply Hturn.
Qed.

Lemma busy_device_blocks_motion_witness :
  let d := state_of (loop (pass 0 (Some "TURN_ANGLE:90.0") 0) booted) in
  isMoving (motion d) = true
  /\ moveDistance (Float32.ofZ 24) 100 d = (tt, d, [Blocked])
  /\ turnAngle (Float32.ofZ (-90)) 100 d = (tt, d, [Blocked])
  /\ dispatch "MOVE_DISTANCE:24.00" (pass 0 None 100) d
     = (tt, d, [Blocked]).
Proof.
  cbn zeta.
  assert (Hbusy : isMoving (motion (state_of
            (loop (pass 0 (Some "TURN_ANGLE:90.0") 0) booted))) = true)
    by reflexivity.
  destruct (busy_device_blocks_motion _ Hbusy) as [Hmove [Hturn Hline]].
  split; [exact Hbusy|]. split; [apply Hmove|]. split; [apply Hturn|].
  apply Hline. left. reflexivity.
Defined.

End CommandProofs.

Module MotionProofs.
Import Firmware.

Ltac monad :=
  unfold bind, ret, println, read, modify, when, assign, state_of, output_of
    in *.

Lemma debounce_lines (d1 d2 d3 : Z) (l : Latch) :
  Forall sensorLine (snd (debounce d1 d2 d3 l)).
Proof.
  unfold debounce.
  repeat match goal with
         | |- context [if ?b then _ else _] => destruct b
         end; cbn; repeat constructor.
Qed.

(** checkForObstacles touches the latch only. *)
Lemma checkForObstacles_frame (s : Scan) (d : Device) :
  let r := checkForObstacles s d in
  motion (state_of r) = motion d /\ pins (state_of r) = pins d
  /\ lastDebug (state_of r) = lastDebug d
  /\ lastObstacle (state_of r) = lastObstacle d
  /\ Forall sensorLine (output_of r).
Proof.
  cbn zeta. unfold checkForObstacles, state_of, output_of.
  pose proof (debounce_lines (readUltrasonicMedian (uts1 s))
                (readUltrasonicMedian (uts2 s))
                (readUltrasonicMedian (uts3 s)) (latch d)) as Hl.
  destruct (debounce _ _ _ (latch d)) as [l o]. cbn in *.
  repeat split; assumption.
Qed.

(** The obstacle publishing block touches the latch and [lastObstacle]
    only. *)
Lemma publishObstacle_frame (s : Scan) (d : Device) :
  let r := publishObstacle s d in
  motion (state_of r) = motion d /\ pins (state_of r) = pins d
  /\ lastDebug (state_of r) = lastDebug d
  /\ Forall sensorLine (output_of r).
Proof.
  cbn zeta. unfold publishObstacle.
  destruct (checkForObstacles_frame s d) as [Hm [Hp [Hd [_ Ho]]]].
  monad. destruct (checkForObstacles s d) as [[now d1] o1]. cbn in *.
  destruct (negb (Bool.eqb now (lastObstacle d1))); cbn.
  - repeat split; try assumption.
    apply Forall_app. split; [assumption|].
    destruct now; repeat constructor.
  - repeat split; try assumption. rewrite ?app_nil_r. assumption.
Qed.

Lemma sensorLine_not_completion (o : list Line) :
  Forall sensorLine o ->
  completions o = O /\ ~ In MovementResumed o
  /\ ~ In MovementCompleteSuccess o.
Proof.
  induction 1 as [|l o Hl _ [IHc [IHr IHm]]]; [cbn; tauto|].
  unfold completions in *. cbn.
  destruct l; cbn in Hl; try contradiction; cbn;
    (split; [assumption|split; intros [H|H]; try discriminate H; tauto]).
Qed.

(** A pass of [loop] with no line waiting: the obstacle block, then the
    precision check if a precision movement is on. *)
Lemma loop_no_line (t : Tick) (d : Device) :
  rx t = None ->
  loop t d
  = (let '(_, d1, o1) := publishObstacle (loop_scan t) d in
     if isMoving (motion d1) && isPrecisionMode (motion d1) then
       let '(_, d2, o2) :=
         checkPrecisionMovement (check_millis t) (check_scan t)
                                (check_accel t) d1 in
       (tt, d2, o1 ++ o2)
     else (tt, d1, o1)).
Proof.
  intros Hrx. unfold loop. rewrite Hrx. cbn [UTS_ENABLED when].
  unfold bind at 1. destruct (publishObstacle (loop_scan t) d) as [[u d1] o1].
  unfold bind at 1. unfold ret at 1. unfold bind, read.
  destruct (isMoving (motion d1) && isPrecisionMode (motion d1)); cbn [when].
  - destruct (checkPrecisionMovement _ _ _ d1) as [[u2 d2] o2].
    destruct u2. reflexivity.
  - unfold ret. rewrite app_nil_r. reflexivity.
Qed.

(** With isMoving false and no line waiting, a pass changes neither the
    motion state nor the pins and prints sensor lines only. *)
Lemma idle_pass (t : Tick) (d : Device) :
  rx t = None -> isMoving (motion d) = false ->
  motion (state_of (loop t d)) = motion d
  /\ pins (state_of (loop t d)) = pins d
  /\ Forall sensorLine (output_of (loop t d)).
Proof.
  intros Hrx Hidle. rewrite (loop_no_line _ _ Hrx).
  destruct (publishObstacle_frame (loop_scan t) d) as [Hm [Hp [_ Ho]]].
  monad. destruct (publishObstacle (loop_scan t) d) as [[u d1] o1].
  cbn in *. rewrite Hm, Hidle. cbn. repeat split; assumption.
Qed.

Lemma run_cons (t : Tick) (ticks : list Tick) (d : Device) :
  state_of (run (t :: ticks) d) = state_of (run ticks (state_of (loop t d)))
  /\ output_of (run (t :: ticks) d)
     = output_of (loop t d) ++ output_of (run ticks (state_of (loop t d))).
Proof.
  cbn [run]. monad. destruct (loop t d) as [[u d1] o1]. cbn.
  destruct (run ticks d1) as [[u2 d2] o2]. cbn. split; reflexivity.
Qed.

Lemma idle_run (ticks : list Tick) (d : Device) :
  Forall (fun t => rx t = None) ticks -> isMoving (motion d) = false ->
  motion (state_of (run ticks d)) = motion d
  /\ pins (state_of (run ticks d)) = pins d
  /\ Forall sensorLine (output_of (run ticks d)).
Proof.
  intros Hrx. revert d. induction Hrx as [|t ticks Ht _ IH]; intros d Hidle.
  - cbn. repeat split; constructor.
  - destruct (run_cons t ticks d) as [Hs Ho]. rewrite Hs, Ho.
    destruct (idle_pass t d Ht Hidle) as [Hm [Hp Hl]].
    destruct (IH (state_of (loop t d))) as [Hm' [Hp' Hl']].
    { rewrite Hm. exact Hidle. }
    rewrite Hm', Hp', Hm, Hp. repeat split.
    apply Forall_app. split; assumption.
Qed.

(** *** Pause accounting over a whole session *)

Lemma keepsPause_refl (d : Device) : keepsPause d d.
Proof. unfold keepsPause. auto. Qed.

Lemma keepsPause_trans (d1 d2 d3 : Device) :
  keepsPause d1 d2 -> keepsPause d2 d3 -> keepsPause d1 d3.
Proof.
  unfold keepsPause. intros [Ht [Hp Hc]] [Ht' [Hp' Hc']].
  split; [congruence|]. split.
  - destruct Hp' as [Hp'|Hp']; [|right; exact Hp'].
    destruct Hp as [Hp|Hp]; [left; congruence|].
    destruct Hc' as [Hc'|Hc']; [right; congruence|right; exact Hc'].
  - destruct Hc' as [Hc'|Hc']; [|right; exact Hc'].
    destruct Hc as [Hc|Hc]; [left; congruence|right; congruence].
Qed.

Lemma pauseFree_keeps (d d' : Device) :
  keepsPause d d' -> pauseFree d -> pauseFree d'.
Proof.
  unfold keepsPause, pauseFree. intros [Ht [Hp Hc]] [Hz Hm].
  split; [congruence|]. intros Hcmd.
  destruct Hp as [Hp|Hp]; [|contradiction].
  destruct Hc as [Hc|Hc]; [|contradiction].
  rewrite Hp. apply Hm. congruence.
Qed.

Lemma benign_ret {A : Type} (a : A) : benign (ret a).
Proof. intros d. apply keepsPause_refl. Qed.

Lemma benign_println (l : Line) : benign (println l).
Proof. intros d. apply keepsPause_refl. Qed.

Lemma benign_read {A : Type} (f : Device -> A) : benign (read f).
Proof. intros d. apply keepsPause_refl. Qed.

Lemma benign_bind {A B : Type} (m : M A) (k : A -> M B) :
  benign m -> (forall a, benign (k a)) -> benign (bind m k).
Proof.
  intros Hm Hk d. specialize (Hm d). unfold bind, state_of in *.
  destruct (m d) as [[a d1] o1]. specialize (Hk a d1).
  destruct (k a d1) as [[b d2] o2]. cbn in *.
  eapply keepsPause_trans; eassumption.
Qed.

Lemma benign_when (b : bool) (m : M unit) : benign m -> benign (when b m).
Proof. intros Hm. destruct b; [exact Hm|apply benign_ret]. Qed.

Lemma benign_pins (f : Pins -> Pins) : benign (modify (onPins f)).
Proof. intros d. unfold keepsPause. cbn. auto. Qed.

Lemma benign_drive A1 B1 AB a2 b2 ab : benign (drive A1 B1 AB a2 b2 ab).
Proof. apply benign_pins. Qed.

Lemma benign_lastObstacle (b : bool) : benign (modify (set_lastObstacle b)).
Proof. intros d. unfold keepsPause. cbn. auto. Qed.

Lemma benign_lastDebug (t : Z) : benign (modify (set_lastDebug t)).
Proof. intros d. unfold keepsPause. cbn. auto. Qed.

Lemma benign_isMoving (b : bool) : benign (assign (set_isMoving b)).
Proof. intros d. unfold keepsPause. cbn. auto. Qed.

Lemma benign_isPrecisionMode (b : bool) :
  benign (assign (set_isPrecisionMode b)).
Proof. intros d. unfold keepsPause. cbn. auto. Qed.

Lemma benign_targetAngle (q : Float32.float) :
  benign (assign (set_targetAngle q)).
Proof. intros d. unfold keepsPause. cbn. auto. Qed.

Lemma benign_movementStartTime (t : Z) :
  benign (assign (set_movementStartTime t)).
Proof. intros d. unfold keepsPause. cbn. auto. Qed.

Lemma benign_pauseStartTime (t : Z) : benign (assign (set_pauseStartTime t)).
Proof. intros d. unfold keepsPause. cbn. auto. Qed.

Lemma benign_currentCommand (c : string) :
  c <> "MOVE_DISTANCE" -> benign (assign (set_currentCommand c)).
Proof.
  intros Hc d. unfold keepsPause. cbn. repeat split; try (right; exact Hc).
Qed.

Lemma benign_checkForObstacles (s : Scan) : benign (checkForObstacles s).
Proof.
  intros d. unfold checkForObstacles, state_of.
  destruct (debounce _ _ _ (latch d)) as [l o].
  unfold keepsPause. cbn. auto.
Qed.

Create HintDb benign_db.
#[local] Hint Resolve benign_ret benign_println benign_read benign_pins
  benign_drive benign_lastObstacle benign_lastDebug benign_isMoving
  benign_isPrecisionMode benign_targetAngle benign_movementStartTime
  benign_pauseStartTime benign_checkForObstacles : benign_db.
#[local] Hint Extern 1 (benign (assign (set_currentCommand _))) =>
  apply benign_currentCommand; discriminate : benign_db.

Ltac benign_step :=
  first
    [ solve [auto with benign_db]
    | match goal with
      | |- benign (bind _ _) => apply benign_bind; [|intros ?]
      | |- benign (when _ _) => apply benign_when
      | |- benign (if ?b then _ else _) => destruct b
      | |- benign (match ?x with _ => _ end) => destruct x
      end ].
Ltac settle_benign := repeat benign_step.

Lemma benign_stopMotors : benign stopMotors.
Proof. unfold stopMotors. settle_benign. Qed.
#[local] Hint Resolve benign_stopMotors : benign_db.

Lemma benign_publishObstacle (s : Scan) : benign (publishObstacle s).
Proof. unfold publishObstacle. settle_benign. Qed.

Lemma benign_turnAngle (degrees : Float32.float) (now : Z) :
  benign (turnAngle degrees now).
Proof. unfold turnAngle. settle_benign. Qed.

Lemma benign_forwardLoop (startTime : Z) (iters : list ForwardIter) :
  forall lastDbg, benign (forwardLoop startTime lastDbg iters).
Proof.
  induction iters as [|it rest IH]; intros lastDbg; cbn [forwardLoop].
  - settle_benign.
  - unfold moveForwardWithGyro. settle_benign; apply IH.
Qed.

Lemma benign_moveForward (startTime : Z) (iters : list ForwardIter) :
  benign (moveForward startTime iters).
Proof.
  unfold moveForward. pose proof (benign_forwardLoop startTime iters 0).
  settle_benign.
Qed.

Lemma benign_turnLeft : benign turnLeft.
Proof. unfold turnLeft. settle_benign. Qed.

Lemma benign_turnRight : benign turnRight.
Proof. unfold turnRight. settle_benign. Qed.

Lemma benign_testUltrasonicSensors pulses s :
  benign (testUltrasonicSensors pulses s).
Proof. unfold testUltrasonicSensors. settle_benign. Qed.

Lemma benign_testGyroSensor samples : benign (testGyroSensor samples).
Proof. unfold testGyroSensor. cbn [seq fold_right]. settle_benign. Qed.

Lemma benign_tableArrived n : benign (tableArrived n).
Proof. unfold tableArrived. settle_benign. Qed.

Lemma benign_tableReceived n : benign (tableReceived n).
Proof. unfold tableReceived. settle_benign. Qed.

(** RESET ends with the command STOP, so as a whole it keeps the
    accounting consistent although it clears the paused flag. *)
Lemma benign_resetState : benign resetState.
Proof.
  intros d. unfold keepsPause. cbn.
  split; [reflexivity|]. split; right; discriminate.
Qed.

(** So does the pause taken in checkPrecisionMovement, which stops the
    motors first. *)
Lemma benign_pause (currentTime : Z) :
  benign (stopMotors ;;
          assign (set_pausedForObstacle true) ;;
          assign (set_pauseStartTime currentTime) ;;
          println MovementPaused).
Proof.
  intros d. unfold keepsPause. cbn.
  split; [reflexivity|]. split; right; discriminate.
Qed.

#[local] Hint Resolve benign_publishObstacle benign_turnAngle
  benign_moveForward benign_turnLeft benign_turnRight
  benign_testUltrasonicSensors benign_testGyroSensor benign_tableArrived
  benign_tableReceived benign_resetState benign_pause : benign_db.

Lemma benign_driveWithGyro currentTime accel :
  benign (driveWithGyro currentTime accel).
Proof. unfold driveWithGyro. settle_benign. Qed.
#[local] Hint Resolve benign_driveWithGyro : benign_db.

Lemma moveDistance_pauseFree (inches : Float32.float) (now : Z) (d : Device) :
  pauseFree d -> pauseFree (state_of (moveDistance inches now d)).
Proof.
  intros Hd. unfold moveDistance. monad.
  destruct (isMoving (motion d)); cbn; [exact Hd|].
  split; reflexivity.
Qed.

Lemma dispatch_pauseFree (command : string) (t : Tick) (d : Device) :
  pauseFree d -> pauseFree (state_of (dispatch command t d)).
Proof.
  intros Hd. unfold dispatch.
  destruct (startsWith command "MOVE_DISTANCE:");
    [apply moveDistance_pauseFree, Hd|].
  apply (pauseFree_keeps d); [|exact Hd].
  assert (Hb : benign
    (if startsWith command "TURN_ANGLE:" then
       turnAngle (toFloat (substringFrom 11 command)) (cmd_millis t)
     else if String.eqb command "FORWARD" then
       moveForward (cmd_millis t) (forward_iters t)
     else if String.eqb command "LEFT" then turnLeft
     else if String.eqb command "RIGHT" then turnRight
     else if String.eqb command "STOP" then stopMotors
     else if String.eqb command "TEST_UTS" then
       testUltrasonicSensors (test_pulses t) (test_scan t)
     else if String.eqb command "TEST_GYRO" then
       testGyroSensor (test_accels t)
     else if String.eqb command "TABLE1_ARRIVED" then tableArrived 1
     else if String.eqb command "TABLE1_RECEIVED" then tableReceived 1
     else if String.eqb command "TABLE2_ARRIVED" then tableArrived 2
     else if String.eqb command "TABLE2_RECEIVED" then tableReceived 2
     else if String.eqb command "TABLE3_ARRIVED" then tableArrived 3
     else if String.eqb command "TABLE3_RECEIVED" then tableReceived 3
     else if String.eqb command "STATUS" then
       text <- read getStatus ;; println (Status text)
     else if String.eqb command "RESET" then resetState
     else println (UnknownCommand command))) by settle_benign.
  apply Hb.
Qed.

Lemma bind_read {A B : Type} (f : Device -> A) (k : A -> M B) (d : Device) :
  bind (read f) k d = k (f d) d.
Proof.
  unfold bind, read. destruct (k (f d) d) as [[b d2] o2]. reflexivity.
Qed.

Lemma checkPrecisionMovement_pauseFree currentTime s accel (d : Device) :
  pauseFree d ->
  pauseFree (state_of (checkPrecisionMovement currentTime s accel d)).
Proof.
  intros Hd. unfold checkPrecisionMovement. rewrite bind_read.
  apply (pauseFree_keeps d); [|exact Hd].
  destruct (String.eqb (currentCommand (motion d)) "MOVE_DISTANCE") eqn:Hcmd.
  - apply String.eqb_eq in Hcmd. rewrite (proj2 Hd Hcmd).
    cbn [negb when UTS_ENABLED].
    match goal with |- keepsPause d (state_of (?m d)) =>
      assert (Hb : benign m) by settle_benign; apply Hb end.
  - match goal with |- keepsPause d (state_of (?m d)) =>
      assert (Hb : benign m) by settle_benign; apply Hb end.
Qed.

Lemma bind_state {A B : Type} (m : M A) (k : A -> M B) (d : Device) :
  state_of (bind m k d)
  = state_of (k (fst (fst (m d))) (state_of (m d))).
Proof.
  unfold bind, state_of. destruct (m d) as [[a d1] o1]. cbn.
  destruct (k a d1) as [[b d2] o2]. reflexivity.
Qed.

Lemma bind_output {A B : Type} (m : M A) (k : A -> M B) (d : Device) :
  output_of (bind m k d)
  = output_of (m d) ++ output_of (k (fst (fst (m d))) (state_of (m d))).
Proof.
  unfold bind, state_of, output_of. destruct (m d) as [[a d1] o1]. cbn.
  destruct (k a d1) as [[b d2] o2]. reflexivity.
Qed.

Lemma loop_pauseFree (t : Tick) (d : Device) :
  pauseFree d -> pauseFree (state_of (loop t d)).
Proof.
  intros Hd. unfold loop. cbn [UTS_ENABLED when].
  rewrite bind_state.
  assert (H1 : pauseFree (state_of (publishObstacle (loop_scan t) d))).
  { apply (pauseFree_keeps d); [apply benign_publishObstacle|exact Hd]. }
  set (d1 := state_of (publishObstacle (loop_scan t) d)) in *.
  rewrite bind_state.
  assert (H2 : pauseFree
                 (state_of (match rx t with
                            | Some line => receive line t
                            | None => ret tt
                            end d1))).
  { destruct (rx t) as [line|]; [|exact H1].
    unfold receive. rewrite bind_state. apply dispatch_pauseFree. exact H1. }
  set (d2 := state_of (match rx t with
                       | Some line => receive line t
                       | None => ret tt
                       end d1)) in *.
  rewrite bind_read.
  destruct (isMoving (motion d2) && isPrecisionMode (motion d2));
    cbn [when]; [|exact H2].
  apply checkPrecisionMovement_pauseFree. exact H2.
Qed.



(** *** Timed turns *)

Lemma completions_app (o1 o2 : list Line) :
  completions (o1 ++ o2) = (completions o1 + completions o2)%nat.
Proof. unfold completions. rewrite filter_app, length_app. reflexivity. Qed.

Lemma move_prefix_excluded (command : string) :
  startsWith command "TURN_ANGLE:" = true ->
  startsWith command "MOVE_DISTANCE:" = false.
Proof.
  unfold startsWith. destruct command as [|c r]; [discriminate|].
  cbn [prefix]. destruct (ascii_dec "T" c) as [<-|_]; intros H.
  - destruct (ascii_dec "M" "T") as [E|_]; [discriminate E|reflexivity].
  - discriminate H.
Qed.







(** *** Timed moves *)

(** The lines of the gyro-corrected drive. *)
Lemma driveWithGyro_frame (currentTime : Z) (accel : option Accel)
      (d : Device) :
  let r := driveWithGyro currentTime accel d in
  motion (state_of r) = motion d /\ latch (state_of r) = latch d
  /\ completions (output_of r) = O.
Proof.
  cbn zeta. unfold driveWithGyro.
  destruct accel as [[[x y] z]|]; [|repeat split].
  destruct (tiltCorrection precisionSpeed precisionSpeed 30 10 x y)
    as [leftSpeed rightSpeed].
  rewrite bind_read.
  destruct (wrap32 (currentTime - lastDebug d) >? 200); repeat split.
Qed.

(** The precision check during a move that is not paused: an engaged latch
    pauses it, otherwise it goes on until the move time has elapsed and
    ends at the first check at or after it. *)
Lemma move_check (currentTime : Z) (s : Scan) (accel : option Accel)
      (inches : Float32.float) (start : Z) (d : Device) :
  movingState inches start d ->
  let r := checkPrecisionMovement currentTime s accel d in
  if obstacleLatched (cycle (latch d) (medians s)) then
    completions (output_of r) = O
    /\ In MovementPaused (output_of r)
    /\ isMoving (motion (state_of r)) = false
    /\ pausedForObstacle (motion (state_of r)) = true
    /\ pins (state_of r) = stoppedPins (pins d)
  else if wrap32 (currentTime - start) <? moveTimeMs inches then
    completions (output_of r) = O
    /\ movingState inches start (state_of r)
  else
    completions (output_of r) = 1%nat
    /\ In (DistanceComplete inches) (output_of r)
    /\ stoppedState (state_of r).
Proof.
  intros [Hm [Hp [Hc [Hd [Hs [Ht Hpa]]]]]]. cbn zeta.
  unfold checkPrecisionMovement. rewrite bind_read.
  rewrite Hc, Hd, Hs, Ht, Hpa, Z.sub_0_r.
  change (String.eqb "MOVE_DISTANCE" "MOVE_DISTANCE") with true.
  cbv iota. cbn [UTS_ENABLED negb when]. fold (moveTimeMs inches).
  destruct (checkForObstacles_frame s d) as [Hfm [Hfp [_ [_ Hfo]]]].
  destruct (sensorLine_not_completion _ Hfo) as [Hz1 _].
  assert (Hob : fst (fst (checkForObstacles s d))
                = obstacleLatched (cycle (latch d) (medians s))).
  { unfold checkForObstacles, cycle, medians.
    destruct (debounce _ _ _ (latch d)) as [l o]. reflexivity. }
  rewrite <- Hob. clear Hob.
  unfold bind.
  destruct (checkForObstacles s d) as [[obstacle d1] o1].
  unfold state_of, output_of in Hfm, Hfp, Hz1. cbn [fst snd] in Hfm, Hfp, Hz1.
  cbn [fst snd]. destruct obstacle.
  - cbn -[completions In]. rewrite !completions_app, Hz1, Hfp.
    split; [reflexivity|]. split; [|repeat split].
    apply in_or_app. left. apply in_or_app. right. right. left. reflexivity.
  - assert (Hp1 : pausedForObstacle (motion d1) = false)
      by (rewrite Hfm; exact Hpa).
    destruct (driveWithGyro_frame currentTime accel d1) as [Hgm [_ Hgz]].
    unfold ret, read, when. cbn beta iota. rewrite Hp1. cbn [negb].
    destruct (driveWithGyro currentTime accel d1) as [[u2 d2] o2].
    unfold state_of, output_of in Hgm, Hgz. cbn [fst snd] in Hgm, Hgz.
    assert (Hp2 : pausedForObstacle (motion d2) = false)
      by (rewrite Hgm; exact Hp1).
    cbn beta iota. rewrite Hp2. cbn [negb].
    destruct (Z.ltb_spec (wrap32 (currentTime - start)) (moveTimeMs inches))
      as [Hlt|Hge];
      destruct (Z.leb_spec (moveTimeMs inches) (wrap32 (currentTime - start)))
      as [Hle|Hgt]; try lia.
    + cbn -[completions In]. rewrite !completions_app, Hz1, Hgz.
      split; [reflexivity|].
      unfold movingState. rewrite Hgm, Hfm. repeat split; assumption.
    + cbn -[completions In]. rewrite !completions_app, Hz1, Hgz.
      split; [reflexivity|]. split; [|repeat split].
      apply in_or_app. left. apply in_or_app. right.
      apply in_or_app. right. left. reflexivity.
Qed.

(** Left alone and with no echo from any sensor, a 24 inch move accepted at
    time 0 is still running at 7999 ms and ends in the pass at 8000 ms. *)
Lemma unobstructed_move_takes_8000_ms :
  let before := run [pass 0 (Some "MOVE_DISTANCE:24.00") 0;
                     pass 0 None 4000; pass 0 None 7999] booted in
  let done := loop (pass 0 None 8000) (state_of before) in
  moveTimeMs (toFloat "24.00") = 8000
  /\ completions (output_of before) = O
  /\ isMoving (motion (state_of before)) = true
  /\ output_of done
     = [DistanceComplete (toFloat "24.00"); MovementCompleteSuccess;
        MotorsStopped]
  /\ isMoving (motion (state_of done)) = false.
Proof. vm_compute. repeat split. Qed.



(** C2 (the code at the failing input): a 24 inch move is accepted at
    time 0 and is 2000 ms into its 8000 ms when the obstacle latch engages;
    the pause stops the motors through stopMotors, which clears isMoving.
    From then on, whatever the sensors read and however long the device
    is left alone, no pass of the loop resumes the move or prints
    MOVEMENT_COMPLETE:SUCCESS, and the motion state stays as the pause
    left it. *)
Theorem paused_move_never_completes (later : list Tick) :
  Forall (fun t => rx t = None) later ->
  let paused := run obstacleRun booted in
  let final := run later (state_of paused) in
  output_of paused
  = [Received "MOVE_DISTANCE:24.00";
     MovingInches (toFloat "24.00") 8000;
     GyroDebug 13 172 0 0 150 150;
     ObstacleLatchedLine 10 10 10; ObstacleDetected;
     MotorsStopped; MovementPaused]
  /\ motion (state_of paused)
     = mkMotion false "STOP" 0 (toFloat "24.00") Float32.zero true true
                2000 0
  /\ motion (state_of final) = motion (state_of paused)
  /\ pins (state_of final) = stoppedPins (pins (state_of paused))
  /\ completions (output_of paused ++ output_of final) = O
  /\ ~ In MovementResumed (output_of paused ++ output_of final).
Proof.
  intros Hquiet. cbn zeta.
  assert (Hout : output_of (run obstacleRun booted)
                 = [Received "MOVE_DISTANCE:24.00";
                    MovingInches (toFloat "24.00") 8000;
                    GyroDebug 13 172 0 0 150 150;
                    ObstacleLatchedLine 10 10 10; ObstacleDetected;
                    MotorsStopped; MovementPaused])
    by (vm_compute; reflexivity).
  assert (Hmotion : motion (state_of (run obstacleRun booted))
                    = mkMotion false "STOP" 0 (toFloat "24.00") Float32.zero
                               true true 2000 0)
    by (vm_compute; reflexivity).
  assert (Hpins : pins (state_of (run obstacleRun booted))
                  = stoppedPins (pins (state_of (run obstacleRun booted))))
    by (vm_compute; reflexivity).
  destruct (idle_run later (state_of (run obstacleRun booted)) Hquiet)
    as [Hm [Hp Hl]].
  { rewrite Hmotion. reflexivity. }
  destruct (sensorLine_not_completion _ Hl) as [Hz [Hnr _]].
  split; [exact Hout|]. split; [exact Hmotion|]. split; [exact Hm|].
  split; [rewrite Hp; exact Hpins|].
  rewrite Hout. split.
  - rewrite completions_app, Hz. reflexivity.
  - intros Hin. apply in_app_or in Hin. destruct Hin as [Hin|Hin].
    + cbn in Hin.
      repeat (destruct Hin as [Hin|Hin]; [discriminate Hin|]).
      exact Hin.
    + exact (Hnr Hin).
Qed.

Lemma paused_move_never_completes_witness :
  let paused := run obstacleRun booted in
  let final := run clearedRun (state_of paused) in
  isMoving (motion (state_of final)) = false
  /\ pausedForObstacle (motion (state_of final)) = true
  /\ completions (output_of paused ++ output_of final) = O.
Proof.
  cbn zeta.
  destruct (paused_move_never_completes clearedRun)
    as [_ [Hmotion [Hsame [_ [Hz _]]]]].
  { repeat constructor. }
  rewrite Hsame, Hmotion.
  split; [reflexivity|]. split; [reflexivity|exact Hz].
Defined.

End MotionProofs.


(** * Further properties of the sensors *)

Module SensorProofs.
Import Firmware.





(** *** The median filter *)

Lemma insert_perm (key : Z) (l : list Z) : Permutation (key :: l) (insert key l).
Proof.
  induction l as [|h t IH]; cbn [insert]; [reflexivity|].
  destruct (h >? key); [reflexivity|].
  rewrite perm_swap. constructor. exact IH.
Qed.

Lemma insert_sorted (key : Z) (l : list Z) :
  StronglySorted Z.le l -> StronglySorted Z.le (insert key l).
Proof.
  induction 1 as [|h t Hs IH Hall]; cbn [insert].
  - repeat constructor.
  - destruct (Z.gtb_spec h key) as [Hgt|Hle].
    + constructor; [constructor; assumption|].
      constructor; [lia|].
      eapply Forall_impl; [|exact Hall]. cbn. intros a Ha. lia.
    + constructor; [exact IH|].
      eapply Permutation_Forall; [apply insert_perm|].
      constructor; [exact Hle|exact Hall].
Qed.

Lemma insertionSort_acc (l acc : list Z) :
  StronglySorted Z.le acc ->
  StronglySorted Z.le (fold_left (fun sorted key => insert key sorted) l acc)
  /\ Permutation (l ++ acc)
       (fold_left (fun sorted key => insert key sorted) l acc).
Proof.
  revert acc. induction l as [|k l IH]; intros acc Hacc; cbn [fold_left].
  - split; [exact Hacc|reflexivity].
  - destruct (IH (insert k acc) (insert_sorted k acc Hacc)) as [Hs Hp].
    split; [exact Hs|].
    etransitivity; [|exact Hp]. cbn.
    rewrite <- (insert_perm k acc). apply Permutation_middle.
Qed.

Lemma insertionSort_sorted (l : list Z) :
  StronglySorted Z.le (insertionSort l) /\ Permutation l (insertionSort l).
Proof.
  destruct (insertionSort_acc l [] ltac:(constructor)) as [Hs Hp].
  rewrite app_nil_r in Hp. split; assumption.
Qed.

Lemma countIf_perm {A : Type} (f : A -> bool) (l l' : list A) :
  Permutation l l' -> countIf f l = countIf f l'.
Proof.
  unfold countIf. induction 1; cbn;
    repeat match goal with |- context [if ?b then _ else _] => destruct b end;
    cbn; congruence.
Qed.

Lemma median_of_five (l : list Z) :
  List.length l = 5%nat ->
  let m := nth 2 (insertionSort l) 0 in
  In m l
  /\ (3 <= countIf (fun r => (r <=? m)%Z) l)%nat
  /\ (3 <= countIf (fun r => (m <=? r)%Z) l)%nat.
Proof.
  intros Hlen. destruct (insertionSort_sorted l) as [Hs Hp].
  pose proof (Permutation_length Hp) as Hlen'. rewrite Hlen in Hlen'.
  cbn zeta. rewrite (countIf_perm _ _ _ Hp), (countIf_perm _ _ _ Hp).
  destruct (insertionSort l) as [|a [|b [|c [|d [|e [|x s]]]]]];
    try discriminate Hlen'.
  cbn [nth]. split.
  - apply (Permutation_in _ (Permutation_sym Hp)). cbn. tauto.
  - inversion Hs as [|? ? Hs1 Ha]; subst.
    inversion Hs1 as [|? ? Hs2 Hb]; subst.
    inversion Hs2 as [|? ? Hs3 Hc]; subst.
    inversion Ha as [|? ? Hab Ha']; subst.
    inversion Ha' as [|? ? Hac _]; subst.
    inversion Hb as [|? ? Hbc _]; subst.
    inversion Hc as [|? ? Hcd Hc']; subst.
    inversion Hc' as [|? ? Hce _]; subst.
    unfold countIf. cbn [filter].
    apply Z.leb_le in Hab, Hac, Hbc, Hcd, Hce.
    rewrite Hac, Hbc, Hcd, Hce, Z.leb_refl.
    split.
    + destruct (d <=? c), (e <=? c); cbn; lia.
    + destruct (c <=? a), (c <=? b); cbn; lia.
Qed.

Lemma sampleReadings_length (pulses : list Z) :
  List.length (sampleReadings pulses) = 5%nat.
Proof. reflexivity. Qed.

(** X2.  readUltrasonicMedian returns the middle one of its five readings:
    it is one of them, at least three are not greater and at least three are
    not smaller. *)
Theorem median_is_middle_reading (pulses : list Z) :
  let m := readUltrasonicMedian pulses in
  In m (sampleReadings pulses)
  /\ (3 <= countIf (fun r => (r <=? m)%Z) (sampleReadings pulses))%nat
  /\ (3 <= countIf (fun r => (m <=? r)%Z) (sampleReadings pulses))%nat.
Proof.
  exact (median_of_five (sampleReadings pulses) (sampleReadings_length pulses)).
Qed.

Lemma countIf_overlap {A : Type} (f g : A -> bool) (l : list A) :
  (List.length l < countIf f l + countIf g l)%nat ->
  exists a, In a l /\ f a = true /\ g a = true.
Proof.
  unfold countIf. induction l as [|a l IH]; cbn; [lia|].
  destruct (f a) eqn:Hf, (g a) eqn:Hg; cbn; intros H;
    try (exists a; tauto);
    (destruct IH as [b [Hb Hfg]]; [lia|exists b; tauto]).
Qed.

(** X3.  Noise rejection: when at least three of the five samples read [v]
    centimetres or more, so does the median, whatever the other two are. *)
Theorem median_ignores_two_samples (pulses : list Z) (v : Z) :
  (3 <= countIf (fun r => (v <=? r)%Z) (sampleReadings pulses))%nat ->
  v <= readUltrasonicMedian pulses.
Proof.
  intros Hv.
  destruct (median_of_five (sampleReadings pulses)
              (sampleReadings_length pulses)) as [_ [Hle _]].
  change (nth 2 (insertionSort (sampleReadings pulses)) 0)
    with (readUltrasonicMedian pulses) in Hle.
  destruct (countIf_overlap (fun r => (v <=? r)%Z)
              (fun r => (r <=? readUltrasonicMedian pulses)%Z)
              (sampleReadings pulses)) as [a [_ [H1 H2]]].
  { rewrite sampleReadings_length. lia. }
  apply Z.leb_le in H1, H2. lia.
Qed.

Lemma median_ignores_two_samples_witness :
  (3 <= countIf (fun r => (21 <=? r)%Z)
                (sampleReadings [600; 0; 600; 0; 0]%Z))%nat
  /\ 21 <= readUltrasonicMedian [600; 0; 600; 0; 0].
Proof.
  split; [vm_compute; lia|].
  apply (median_ignores_two_samples [600; 0; 600; 0; 0] 21). vm_compute. lia.
Defined.

(** *** The tilt trim *)

Lemma constrain_range (v lo hi : Z) :
  lo <= hi -> lo <= constrain v lo hi <= hi.
Proof.
  intros H. unfold constrain.
  destruct (Z.ltb_spec v lo); [lia|]. destruct (Z.gtb_spec v hi); lia.
Qed.

Lemma constrain_inside (v lo hi : Z) :
  lo <= v <= hi -> constrain v lo hi = v.
Proof.
  intros H. unfold constrain.
  destruct (Z.ltb_spec v lo); [lia|]. destruct (Z.gtb_spec v hi); lia.
Qed.

Lemma int16_range (z : Z) : - 2 ^ 15 <= int16 z < 2 ^ 15.
Proof.
  unfold int16. pose proof (Z.mod_pos_bound (z + 2 ^ 15) (2 ^ 16)). lia.
Qed.

Lemma int16_inside (z : Z) : - 2 ^ 15 <= z < 2 ^ 15 -> int16 z = z.
Proof. intros H. unfold int16. rewrite Z.mod_small; lia. Qed.

Lemma abs16_inside (z : Z) : - 2 ^ 15 < z < 2 ^ 15 -> abs16 z = Z.abs z.
Proof. intros H. unfold abs16. apply int16_inside. lia. Qed.

(** X4.  The motor speeds the tilt trim gives, for a base speed and bounds
    that keep clear of the PWM limits (as both callers' do), with the tilt
    taken as the sketch computes it, in 16-bit [int]s: each speed stays
    between base minus the largest slow-down and base plus the largest
    boost, at most one side is faster than base, the boosted side is the one
    the computed tilt asks for, and a tilt within tolerance on both axes
    gives the base speed on both motors.  For readings that differ from the
    reference by less than 32768 the computed tilt is the difference itself;
    at the far end of the [int16_t] range it wraps round, and a reading of
    -32768 counts as a tilt to the right. *)
Theorem tilt_trim_bounds (base maxBoost maxAdjust x y : Z) :
  0 <= maxBoost -> 0 <= maxAdjust ->
  100 <= base - maxAdjust -> base + maxBoost <= 255 ->
  let leftSpeed := fst (tiltCorrection base base maxBoost maxAdjust x y) in
  let rightSpeed := snd (tiltCorrection base base maxBoost maxAdjust x y) in
  let deltaX := int16 (x - normalX) in
  let deltaY := int16 (y - normalY) in
  base - maxAdjust <= leftSpeed <= base + maxBoost
  /\ base - maxAdjust <= rightSpeed <= base + maxBoost
  /\ (leftSpeed <= base \/ rightSpeed <= base)
  /\ (deltaX <= tolerance -> rightSpeed <= leftSpeed)
  /\ (- tolerance <= deltaX -> leftSpeed <= rightSpeed)
  /\ (Z.abs deltaX <= tolerance -> Z.abs deltaY <= tolerance ->
      leftSpeed = base /\ rightSpeed = base)
  /\ (- 2 ^ 15 <= x - normalX < 2 ^ 15 -> deltaX = x - normalX)
  /\ (x = - 2 ^ 15 -> deltaX = 32755 /\ leftSpeed <= rightSpeed).
Proof.
  intros Hb Ha Hlo Hhi. cbn zeta. unfold tiltCorrection. cbn [fst snd].
  pose proof (int16_range (x - normalX)) as Hdx.
  pose proof (int16_range (y - normalY)) as Hdy.
  assert (Hwrap : x = - 2 ^ 15 -> int16 (x - normalX) = 32755)
    by (intros ->; reflexivity).
  assert (Hin : - 2 ^ 15 <= x - normalX < 2 ^ 15 ->
                int16 (x - normalX) = x - normalX)
    by apply int16_inside.
  set (dx := int16 (x - normalX)) in *.
  set (dy := int16 (y - normalY)) in *.
  pose proof (constrain_range (Z.quot (abs16 dx) 4) 0 maxBoost Hb) as Hboost.
  pose proof (constrain_range (Z.quot (abs16 dy) 10) 0 maxAdjust Ha) as Hadj.
  set (boost := constrain (Z.quot (abs16 dx) 4) 0 maxBoost) in *.
  set (adj := constrain (Z.quot (abs16 dy) 10) 0 maxAdjust) in *.
  assert (Hsmall : Z.abs dy <= 4 -> abs16 dy = Z.abs dy)
    by (intros H; apply abs16_inside; lia).
  unfold tolerance in *.
  destruct (Z.gtb_spec dx 4) as [Hx|Hx];
    [|destruct (Z.ltb_spec dx (- (4))) as [Hx'|Hx']];
    (destruct (Z.gtb_spec (abs16 dy) 4) as [Hy|Hy]);
    rewrite !constrain_inside by lia; repeat split;
    try lia; try (intros H; specialize (Hwrap H); lia);
    try (intros H1 H2; specialize (Hsmall H2); lia);
    try (intros H; exact (Hin H)); try (intros H; exact (Hwrap H)).
Qed.

Lemma tilt_trim_bounds_witness :
  let leftSpeed := fst (tiltCorrection precisionSpeed precisionSpeed 30 10 40 200) in
  let rightSpeed := snd (tiltCorrection precisionSpeed precisionSpeed 30 10 40 200) in
  precisionSpeed - 10 <= leftSpeed <= precisionSpeed + 30
  /\ precisionSpeed - 10 <= rightSpeed <= precisionSpeed + 30
  /\ leftSpeed <= rightSpeed.
Proof.
  cbn zeta.
  destruct (tilt_trim_bounds precisionSpeed 30 10 40 200)
    as [Hl [Hr [_ [_ [Hboosted _]]]]]; try (unfold precisionSpeed; lia).
  split; [exact Hl|]. split; [exact Hr|].
  apply Hboosted. vm_compute. discriminate.
Defined.

End SensorProofs.

(** * Whole-session properties of the sketch *)

Module SessionProofs.
Import Firmware MotionProofs.

(** ** Relations kept by every step *)

Section Obeys.

Variable T : Device -> list Line -> Device -> Prop.
Hypothesis T_refl : forall d, T d [] d.
Hypothesis T_trans : forall d o d' o' d'',
  T d o d' -> T d' o' d'' -> T d (o ++ o') d''.

Lemma obeys_ret {A : Type} (a : A) : obeys T (ret a).
Proof. intros d. apply T_refl. Qed.

Lemma obeys_read {A : Type} (f : Device -> A) : obeys T (read f).
Proof. intros d. apply T_refl. Qed.

Lemma obeys_bind {A B : Type} (m : M A) (k : A -> M B) :
  obeys T m -> (forall a, obeys T (k a)) -> obeys T (bind m k).
Proof.
  intros Hm Hk d. specialize (Hm d). unfold bind, state_of, output_of in *.
  destruct (m d) as [[a d1] o1]. specialize (Hk a d1).
  destruct (k a d1) as [[b d2] o2]. cbn in *.
  eapply T_trans; eassumption.
Qed.

Lemma obeys_when (b : bool) (m : M unit) : obeys T m -> obeys T (when b m).
Proof. intros Hm. destruct b; [exact Hm|apply obeys_ret]. Qed.

End Obeys.

Ltac obey_step :=
  first
    [ assumption
    | match goal with H : _ |- obeys _ _ => solve [apply H] end
    | eapply obeys_ret; eassumption
    | eapply obeys_read; eassumption
    | match goal with
      | |- obeys _ (bind _ _) => eapply obeys_bind; [eassumption| |intros ?]
      | |- obeys _ (when _ _) => eapply obeys_when; [eassumption|]
      | |- obeys _ (println _) =>
          match goal with
          | H : forall l, eventOf l = None -> _ |- _ =>
              apply H; [reflexivity|discriminate]
          end
      | H : forall f, obeys _ (assign f) |- obeys _ (assign _) => apply H
      | H : forall f, obeys _ (modify (onPins f))
        |- obeys _ (modify (onPins _)) => apply H
      | H : forall t, obeys _ (modify (set_lastDebug t))
        |- obeys _ (modify (set_lastDebug _)) => apply H
      | H : forall s, obeys _ (checkForObstacles s)
        |- obeys _ (checkForObstacles _) => apply H
      | H : forall s, obeys _ (publishObstacle s)
        |- obeys _ (publishObstacle _) => apply H
      | |- obeys _ (if ?b then _ else _) => destruct b
      | |- obeys _ (match ?x with _ => _ end) => destruct x
      end ].
Ltac obey := repeat obey_step.

(** What a relation has to allow for the whole sketch to obey it: every
    line but the obstacle events and MOVEMENT_RESUMED, every assignment to
    the motion state, the pins and [lastDebug], a sampling cycle and the
    obstacle publishing block. *)
Section Sketch.

Variable T : Device -> list Line -> Device -> Prop.
Hypothesis T_refl : forall d, T d [] d.
Hypothesis T_trans : forall d o d' o' d'',
  T d o d' -> T d' o' d'' -> T d (o ++ o') d''.
Hypothesis T_println :
  forall l, eventOf l = None -> l <> MovementResumed -> obeys T (println l).
Hypothesis T_assign : forall f, obeys T (assign f).
Hypothesis T_pins : forall f, obeys T (modify (onPins f)).
Hypothesis T_lastDebug : forall t, obeys T (modify (set_lastDebug t)).
Hypothesis T_check : forall s, obeys T (checkForObstacles s).
Hypothesis T_publish : forall s, obeys T (publishObstacle s).

Lemma stopMotors_obeys : obeys T stopMotors.
Proof. unfold stopMotors, drive. obey. Qed.

Lemma moveDistance_obeys inches now : obeys T (moveDistance inches now).
Proof. unfold moveDistance. obey. Qed.

Lemma turnAngle_obeys degrees now : obeys T (turnAngle degrees now).
Proof. unfold turnAngle, drive. obey. Qed.

Lemma driveWithGyro_obeys currentTime accel :
  obeys T (driveWithGyro currentTime accel).
Proof. unfold driveWithGyro, drive. obey. Qed.

Lemma forwardLoop_obeys startTime iters :
  forall lastDbg, obeys T (forwardLoop startTime lastDbg iters).
Proof.
  pose proof stopMotors_obeys.
  induction iters as [|it rest IH]; intros lastDbg; cbn [forwardLoop].
  - obey.
  - unfold moveForwardWithGyro, drive. obey; apply IH.
Qed.

Lemma moveForward_obeys startTime iters :
  obeys T (moveForward startTime iters).
Proof.
  pose proof stopMotors_obeys.
  pose proof (forwardLoop_obeys startTime iters 0).
  unfold moveForward. obey.
Qed.

Lemma dispatch_obeys command t : obeys T (dispatch command t).
Proof.
  pose proof stopMotors_obeys.
  unfold dispatch.
  repeat match goal with
         | |- obeys _ (if ?b then _ else _) => destruct b
         end;
    try apply moveDistance_obeys; try apply turnAngle_obeys;
    try apply moveForward_obeys;
    unfold turnLeft, turnRight, testUltrasonicSensors, testGyroSensor,
      tableArrived, tableReceived, resetState, drive;
    cbn [seq fold_right]; obey.
Qed.

Lemma receive_obeys line t : obeys T (receive line t).
Proof. pose proof (dispatch_obeys). unfold receive. obey. Qed.

Hypothesis T_resumed : obeys T (println MovementResumed).

Lemma checkPrecisionMovement_obeys currentTime s accel :
  obeys T (checkPrecisionMovement currentTime s accel).
Proof.
  pose proof stopMotors_obeys. pose proof driveWithGyro_obeys.
  unfold checkPrecisionMovement. obey.
Qed.

Lemma loop_obeys t : obeys T (loop t).
Proof.
  pose proof receive_obeys. pose proof checkPrecisionMovement_obeys.
  unfold loop. obey.
Qed.

Lemma run_obeys ticks : obeys T (run ticks).
Proof.
  pose proof loop_obeys.
  induction ticks as [|t ticks IH]; cbn [run]; obey.
Qed.

End Sketch.

(** ** The latch over a session *)

Lemma cycles_app (rs rs' : list (Z * Z * Z)) (l : Latch) :
  cycles (rs ++ rs') l = cycles rs' (cycles rs l).
Proof. unfold cycles. apply fold_left_app. Qed.

Lemma sampled_refl (d : Device) : sampled d [] d.
Proof. exists []. reflexivity. Qed.

Lemma sampled_trans (d : Device) o (d' : Device) o' (d'' : Device) :
  sampled d o d' -> sampled d' o' d'' -> sampled d (o ++ o') d''.
Proof.
  intros [rs H] [rs' H']. exists (rs ++ rs').
  rewrite cycles_app, <- H. exact H'.
Qed.

Lemma sampled_same_latch {A : Type} (m : M A) :
  (forall d, latch (state_of (m d)) = latch d) -> obeys sampled m.
Proof. intros H d. exists []. apply H. Qed.

Lemma sampled_check (s : Scan) : obeys sampled (checkForObstacles s).
Proof.
  intros d. exists [medians s].
  apply (LatchProofs.checkForObstacles_cycle s d).
Qed.

Lemma sampled_publish (s : Scan) : obeys sampled (publishObstacle s).
Proof.
  unfold publishObstacle.
  apply (obeys_bind _ sampled_trans); [apply sampled_check|intros now].
  apply (obeys_bind _ sampled_trans); [apply (obeys_read _ sampled_refl)|].
  intros last0. apply (obeys_when _ sampled_refl).
  apply sampled_same_latch. reflexivity.
Qed.

Lemma sampled_run (ticks : list Tick) : obeys sampled (run ticks).
Proof.
  apply run_obeys;
    try (intros; apply sampled_same_latch; reflexivity).
  - exact sampled_refl.
  - exact sampled_trans.
  - exact sampled_check.
  - exact sampled_publish.
Qed.

(** X5.  Through any session from boot, whatever commands arrive, the
    latch is the boot latch taken through a sequence of sampling cycles
    (nothing but checkForObstacles touches it), and so its counters stay
    within 0..3, are never both running, and a full counter agrees with the
    latch. *)
Theorem session_latch_consistent (ticks : list Tick) :
  (exists rs, latch (state_of (run ticks booted)) = cycles rs (latch booted))
  /\ latchConsistent (latch (state_of (run ticks booted))).
Proof.
  destruct (sampled_run ticks booted) as [rs Hrs].
  split; [exists rs; exact Hrs|].
  rewrite Hrs. apply LatchProofs.cycles_consistent.
  unfold latchConsistent, REQUIRED_CONSECUTIVE_HITS. cbn.
  repeat split; try lia; try discriminate.
Qed.

(** ** The obstacle events over a session *)

Lemma events_app (o o' : list Line) : events (o ++ o') = events o ++ events o'.
Proof.
  induction o as [|l o IH]; [reflexivity|].
  cbn. destruct (eventOf l); cbn; rewrite IH; reflexivity.
Qed.

Lemma last_cons_default (a b c : bool) (l : list bool) :
  last (a :: l) b = last (a :: l) c.
Proof.
  revert a. induction l as [|e l IH]; intros a; [reflexivity|].
  change (last (e :: l) b = last (e :: l) c). apply IH.
Qed.

Lemma alternates_app (b : bool) (es es' : list bool) :
  alternates b (es ++ es') = alternates b es && alternates (last es b) es'.
Proof.
  revert b. induction es as [|e es IH]; intros b; [reflexivity|].
  cbn [app alternates]. rewrite IH, andb_assoc.
  destruct es as [|e' es]; [reflexivity|].
  rewrite (last_cons_default e' e b).
  reflexivity.
Qed.

Lemma last_app_default (b : bool) (es es' : list bool) :
  last (es ++ es') b = last es' (last es b).
Proof.
  revert b. induction es as [|e es IH]; intros b; [reflexivity|].
  destruct es as [|e' es].
  - cbn [app]. destruct es' as [|a es']; [reflexivity|].
    change (last (a :: es') b = last (a :: es') e).
    apply last_cons_default.
  - change (last ((e' :: es) ++ es') b = last es' (last (e' :: es) b)).
    apply IH.
Qed.

Lemma published_refl (d : Device) : published d [] d.
Proof. split; reflexivity. Qed.

Lemma published_trans (d : Device) o (d' : Device) o' (d'' : Device) :
  published d o d' -> published d' o' d'' -> published d (o ++ o') d''.
Proof.
  unfold published. intros [Ha Hl] [Ha' Hl'].
  rewrite events_app, alternates_app, last_app_default, <- Hl, Ha, Ha'.
  split; [reflexivity|exact Hl'].
Qed.

Lemma published_silent {A : Type} (m : M A) :
  (forall d, lastObstacle (state_of (m d)) = lastObstacle d
             /\ events (output_of (m d)) = []) ->
  obeys published m.
Proof.
  intros H d. destruct (H d) as [Hl He]. unfold published.
  rewrite He. split; [reflexivity|exact Hl].
Qed.

Lemma debounce_events (d1 d2 d3 : Z) (l : Latch) :
  events (snd (debounce d1 d2 d3 l)) = [].
Proof.
  unfold debounce.
  repeat match goal with
         | |- context [if ?b then _ else _] => destruct b
         end; reflexivity.
Qed.

Lemma published_check (s : Scan) : obeys published (checkForObstacles s).
Proof.
  apply published_silent. intros d. unfold checkForObstacles, state_of, output_of.
  pose proof (debounce_events (readUltrasonicMedian (uts1 s))
                (readUltrasonicMedian (uts2 s))
                (readUltrasonicMedian (uts3 s)) (latch d)) as He.
  destruct (debounce _ _ _ (latch d)) as [l o]. split; [reflexivity|exact He].
Qed.

(** The obstacle block prints an event exactly when the latch differs from
    the value last published, and then records the new value. *)
Lemma published_publish (s : Scan) : obeys published (publishObstacle s).
Proof.
  unfold publishObstacle.
  apply (obeys_bind _ published_trans); [apply published_check|intros now].
  intros d. unfold published.
  unfold bind, read, when, println, modify, ret, state_of, output_of.
  destruct now, (lastObstacle d) eqn:Hl; cbn; rewrite ?Hl; split; reflexivity.
Qed.

Lemma published_run (ticks : list Tick) : obeys published (run ticks).
Proof.
  apply run_obeys;
    try (intros; apply published_silent; intros; split; reflexivity).
  - exact published_refl.
  - exact published_trans.
  - intros l Hl _. apply published_silent. intros d. split; [reflexivity|].
    cbn. rewrite Hl. reflexivity.
  - exact published_check.
  - exact published_publish.
Qed.

(** X6.  Over any sequence of passes of [loop] from any state, whatever
    commands arrive, the OBSTACLE:DETECTED and OBSTACLE:CLEARED lines
    alternate, the first one being the opposite of the value last published
    before (DETECTED after boot), and the value recorded as last published
    is that of the latest event. *)
Theorem obstacle_events_alternate (ticks : list Tick) (d : Device) :
  alternates (lastObstacle d) (events (output_of (run ticks d))) = true
  /\ lastObstacle (state_of (run ticks d))
     = last (events (output_of (run ticks d))) (lastObstacle d).
Proof. exact (published_run ticks d). Qed.

(** ** No resumption *)

Lemma quiet_refl (d : Device) : quiet d [] d.
Proof. intros H. exact H. Qed.

Lemma quiet_trans (d : Device) o (d' : Device) o' (d'' : Device) :
  quiet d o d' -> quiet d' o' d'' -> quiet d (o ++ o') d''.
Proof. unfold quiet. intros H H' Hin. apply in_app_or in Hin. tauto. Qed.

Lemma quiet_silent {A : Type} (m : M A) :
  (forall d, output_of (m d) = []) -> obeys quiet m.
Proof. intros H d. unfold quiet. rewrite H. intros []. Qed.

Lemma quiet_println (l : Line) : l <> MovementResumed -> obeys quiet (println l).
Proof. intros Hl d [H|[]]. apply Hl. exact H. Qed.

Lemma quiet_check (s : Scan) : obeys quiet (checkForObstacles s).
Proof.
  intros d. destruct (checkForObstacles_frame s d) as [_ [_ [_ [_ Ho]]]].
  apply (sensorLine_not_completion _ Ho).
Qed.

Lemma quiet_publish (s : Scan) : obeys quiet (publishObstacle s).
Proof.
  intros d. destruct (publishObstacle_frame s d) as [_ [_ [_ Ho]]].
  apply (sensorLine_not_completion _ Ho).
Qed.

Lemma quiet_receive (line : string) (t : Tick) : obeys quiet (receive line t).
Proof.
  apply receive_obeys;
    try (intros; apply quiet_silent; intros; reflexivity).
  - exact quiet_refl.
  - exact quiet_trans.
  - intros l _. apply quiet_println.
  - exact quiet_check.
Qed.

Lemma quiet_checkPrecisionMovement currentTime s accel (d : Device) :
  pauseFree d ->
  ~ In MovementResumed
      (output_of (checkPrecisionMovement currentTime s accel d)).
Proof.
  intros Hd. unfold checkPrecisionMovement. rewrite bind_read.
  pose proof quiet_refl as T_refl. pose proof quiet_trans as T_trans.
  assert (T_println : forall l, eventOf l = None -> l <> MovementResumed ->
                                obeys quiet (println l))
    by (intros l _; apply quiet_println).
  assert (T_assign : forall f, obeys quiet (assign f))
    by (intros; apply quiet_silent; reflexivity).
  assert (T_pins : forall f, obeys quiet (modify (onPins f)))
    by (intros; apply quiet_silent; reflexivity).
  assert (T_lastDebug : forall t, obeys quiet (modify (set_lastDebug t)))
    by (intros; apply quiet_silent; reflexivity).
  pose proof quiet_check as T_check.
  assert (Hstop : obeys quiet stopMotors)
    by (apply stopMotors_obeys; assumption).
  assert (Hdrive : forall c a, obeys quiet (driveWithGyro c a))
    by (apply driveWithGyro_obeys; assumption).
  destruct (String.eqb (currentCommand (motion d)) "MOVE_DISTANCE") eqn:Hcmd.
  - apply String.eqb_eq in Hcmd. rewrite (proj2 Hd Hcmd).
    cbn [negb when UTS_ENABLED].
    match goal with |- ~ In _ (output_of (?m d)) =>
      assert (Hq : obeys quiet m) by obey; apply Hq end.
  - match goal with |- ~ In _ (output_of (?m d)) =>
      assert (Hq : obeys quiet m) by obey; apply Hq end.
Qed.

Lemma quiet_loop (t : Tick) (d : Device) :
  pauseFree d -> ~ In MovementResumed (output_of (loop t d)).
Proof.
  intros Hd. unfold loop. cbn [UTS_ENABLED when].
  rewrite bind_output. intros Hin. apply in_app_or in Hin.
  destruct Hin as [Hin|Hin]; [exact (quiet_publish _ d Hin)|].
  assert (H1 : pauseFree (state_of (publishObstacle (loop_scan t) d))).
  { apply (pauseFree_keeps d); [apply benign_publishObstacle|exact Hd]. }
  set (d1 := state_of (publishObstacle (loop_scan t) d)) in *.
  rewrite bind_output in Hin. apply in_app_or in Hin.
  destruct Hin as [Hin|Hin].
  { destruct (rx t) as [line|]; [exact (quiet_receive line t d1 Hin)|].
    exact Hin. }
  assert (H2 : pauseFree
                 (state_of (match rx t with
                            | Some line => receive line t
                            | None => ret tt
                            end d1))).
  { destruct (rx t) as [line|]; [|exact H1].
    unfold receive. rewrite bind_state. apply dispatch_pauseFree. exact H1. }
  set (d2 := state_of (match rx t with
                       | Some line => receive line t
                       | None => ret tt
                       end d1)) in *.
  rewrite bind_read in Hin.
  destruct (isMoving (motion d2) && isPrecisionMode (motion d2));
    cbn [when] in Hin; [|exact Hin].
  exact (quiet_checkPrecisionMovement _ _ _ d2 H2 Hin).
Qed.

(** X7.  In no session from boot, whatever the commands and the sensor
    readings, is MOVEMENT_RESUMED ever printed, and no pause time is ever on
    the books: the resume branch of checkPrecisionMovement is dead code. *)
Theorem movement_is_never_resumed (ticks : list Tick) :
  ~ In MovementResumed (output_of (run ticks booted))
  /\ totalPausedMs (motion (state_of (run ticks booted))) = 0.
Proof.
  assert (Hgen : forall d, pauseFree d ->
             ~ In MovementResumed (output_of (run ticks d))
             /\ pauseFree (state_of (run ticks d))).
  { induction ticks as [|t ticks IH]; intros d Hd.
    - split; [intros []|exact Hd].
    - destruct (run_cons t ticks d) as [Hs Ho]. rewrite Hs, Ho.
      destruct (IH _ (loop_pauseFree t d Hd)) as [Hq Hp].
      split; [|exact Hp]. intros Hin. apply in_app_or in Hin.
      destruct Hin as [Hin|Hin]; [exact (quiet_loop t d Hd Hin)|tauto]. }
  destruct (Hgen booted) as [Hq [Hz _]].
  { split; [reflexivity|discriminate]. }
  split; assumption.
Qed.

(** ** Motors and the moving flag *)

Lemma bind_value {A B : Type} (m : M A) (k : A -> M B) (d : Device) :
  fst (fst (bind m k d)) = fst (fst (k (fst (fst (m d))) (state_of (m d)))).
Proof.
  unfold bind, state_of. destruct (m d) as [[a d1] o1]. cbn.
  destruct (k a d1) as [[b d2] o2]. reflexivity.
Qed.

Lemma motorsOff_iff (p : Pins) :
  motorsOff p <->
  motorA1 p = false /\ motorB1 p = false /\ speedMotorAB p = 0
  /\ motora2 p = false /\ motorb2 p = false /\ speedMotorab p = 0.
Proof.
  unfold motorsOff, stoppedPins. destruct p; cbn. split.
  - intros H. injection H as -> -> -> -> -> ->. repeat split.
  - intros [-> [-> [-> [-> [-> ->]]]]]. reflexivity.
Qed.

Lemma settled_safe (d : Device) : settled d -> safe d.
Proof.
  intros [Hm Hp]. split; [intros _; exact Hp|].
  rewrite Hm. discriminate.
Qed.

(** The safety condition looks at the motion state and the motor pins
    only. *)
Lemma safe_frame (d d' : Device) :
  motion d' = motion d ->
  (motorsOff (pins d) -> motorsOff (pins d')) ->
  safe d -> safe d'.
Proof.
  unfold safe. intros Hm Hp [H1 H2]. rewrite Hm. split; [|exact H2].
  intros H. apply Hp, H1, H.
Qed.

Lemma stopMotors_settled (d : Device) : settled (state_of (stopMotors d)).
Proof. split; reflexivity. Qed.

Lemma moveDistance_safe inches now (d : Device) :
  safe d -> safe (state_of (moveDistance inches now d)).
Proof.
  intros Hd. unfold moveDistance. rewrite bind_read.
  destruct (isMoving (motion d)); [exact Hd|].
  split; cbn; [discriminate|]. intros _. split; [reflexivity|].
  left. reflexivity.
Qed.

Lemma turnAngle_safe degrees now (d : Device) :
  safe d -> safe (state_of (turnAngle degrees now d)).
Proof.
  intros Hd. unfold turnAngle. rewrite bind_read.
  destruct (isMoving (motion d)); [exact Hd|].
  destruct (Float32.ltb Float32.zero degrees);
    (split; cbn; [discriminate|]; intros _; split; [reflexivity|];
     right; reflexivity).
Qed.

(** When moveForward's loop returns from the inside, it has stopped the
    motors. *)
Lemma forwardLoop_returned startTime iters :
  forall lastDbg d,
    fst (fst (forwardLoop startTime lastDbg iters d)) = true ->
    settled (state_of (forwardLoop startTime lastDbg iters d)).
Proof.
  induction iters as [|it rest IH]; intros lastDbg d; cbn [forwardLoop].
  - discriminate.
  - destruct (wrap32 (it_millis it - startTime) <? forwardTime);
      [|discriminate].
    cbn [UTS_ENABLED]. rewrite bind_value, bind_state.
    destruct (fst (fst (checkForObstacles (it_scan it) d))).
    + intros _. split; reflexivity.
    + rewrite bind_value, bind_state. apply IH.
Qed.

Lemma moveForward_safe startTime iters (d : Device) :
  safe d -> safe (state_of (moveForward startTime iters d)).
Proof.
  intros Hd. unfold moveForward. rewrite bind_read.
  destruct (isMoving (motion d)); [exact Hd|].
  rewrite !bind_state. apply settled_safe.
  match goal with
  | |- context [forwardLoop startTime 0 iters ?d0] =>
      pose proof (forwardLoop_returned startTime iters 0 d0) as Hret;
      destruct (fst (fst (forwardLoop startTime 0 iters d0)))
  end.
  - apply Hret. reflexivity.
  - split; reflexivity.
Qed.

Lemma dispatch_safe (command : string) (t : Tick) (d : Device) :
  safe d -> safe (state_of (dispatch command t d)).
Proof.
  intros Hd. unfold dispatch.
  repeat match goal with
         | |- context [if ?b then _ else _] => destruct b
         end;
    try (apply moveDistance_safe, Hd); try (apply turnAngle_safe, Hd);
    try (apply moveForward_safe, Hd);
    try exact Hd;
    try (apply settled_safe; split; reflexivity).
  - unfold turnLeft. rewrite bind_read.
    destruct (isMoving (motion d)); [exact Hd|].
    apply settled_safe; split; reflexivity.
  - unfold turnRight. rewrite bind_read.
    destruct (isMoving (motion d)); [exact Hd|].
    apply settled_safe; split; reflexivity.
  - unfold testUltrasonicSensors. destruct (test_pulses t) as [[p1 p2] p3].
    rewrite !bind_state.
    destruct (checkForObstacles_frame (test_scan t) d) as [Hm [Hp _]].
    cbn in *. apply (safe_frame d); try assumption; try congruence.
  - apply (safe_frame d); [reflexivity| |exact Hd]. cbn.
    rewrite !motorsOff_iff. cbn. tauto.
  - apply (safe_frame d); [reflexivity| |exact Hd]. cbn.
    rewrite !motorsOff_iff. cbn. tauto.
  - apply (safe_frame d); [reflexivity| |exact Hd]. cbn.
    rewrite !motorsOff_iff. cbn. tauto.
  - apply (safe_frame d); [reflexivity| |exact Hd]. cbn.
    rewrite !motorsOff_iff. cbn. tauto.
  - apply (safe_frame d); [reflexivity| |exact Hd]. cbn.
    rewrite !motorsOff_iff. cbn. tauto.
  - apply (safe_frame d); [reflexivity| |exact Hd]. cbn.
    rewrite !motorsOff_iff. cbn. tauto.
Qed.

Lemma checkPrecisionMovement_safe currentTime s accel (d : Device) :
  isMoving (motion d) = true -> safe d ->
  safe (state_of (checkPrecisionMovement currentTime s accel d)).
Proof.
  intros Hmoving Hd. unfold checkPrecisionMovement. rewrite bind_read.
  rewrite bind_state.
  match goal with
  | |- context [when (fst (fst ?r))] => destruct (fst (fst r))
  end; [apply settled_safe; split; reflexivity|].
  cbn [when]. change (state_of (ret tt ?x)) with x.
  destruct (String.eqb (currentCommand (motion d)) "MOVE_DISTANCE");
    [|destruct (String.eqb (currentCommand (motion d)) "TURN_ANGLE");
      [destruct (to_ulong _ <=? _)|]; exact Hd].
  cbn [UTS_ENABLED]. do 2 rewrite bind_state.
  destruct (checkForObstacles_frame s d) as [Hm [Hp _]]. cbn zeta in Hm, Hp.
  set (d1 := state_of (checkForObstacles s d)) in *.
  assert (Hrest : forall d',
             state_of
               ((paused <- read (fun d0 => pausedForObstacle (motion d0)) ;;
                 if negb paused then
                   if to_ulong (Float32.mul (targetDistance (motion d))
                                            MS_PER_INCH)
                      <=? wrap32 (currentTime - movementStartTime (motion d)
                                  - totalPausedMs (motion d))
                   then println (DistanceComplete (targetDistance (motion d))) ;;
                        println MovementCompleteSuccess ;; ret true
                   else ret false
                 else ret false) d') = d').
  { intros d'. rewrite bind_read.
    destruct (negb (pausedForObstacle (motion d'))); [|reflexivity].
    destruct (_ <=? _); reflexivity. }
  rewrite Hrest. clear Hrest.
  destruct (fst (fst (checkForObstacles s d))).
  - destruct (pausedForObstacle (motion d)); cbn [negb when].
    + change (state_of (ret tt d1)) with d1.
      apply (safe_frame d); [exact Hm| |exact Hd]. rewrite Hp. tauto.
    + apply settled_safe. split; reflexivity.
  - rewrite bind_state.
    set (d2 := state_of (when (pausedForObstacle (motion d)) _ d1)).
    assert (H2 : isMoving (motion d2) = true
                 /\ isPrecisionMode (motion d2) = isPrecisionMode (motion d)
                 /\ currentCommand (motion d2) = currentCommand (motion d)).
    { subst d2. destruct (pausedForObstacle (motion d)); cbn;
        rewrite Hm; repeat split; exact Hmoving. }
    clearbody d2. rewrite bind_read.
    assert (H3 : forall d3, motion d3 = motion d2 -> safe d3).
    { intros d3 H3. unfold safe. rewrite H3.
      destruct H2 as [Ha [Hb Hc]]. rewrite Ha, Hb, Hc.
      split; [discriminate|]. intros _. apply (proj2 Hd Hmoving). }
    destruct (negb (pausedForObstacle (motion d2))); cbn [when].
    + apply H3. apply (driveWithGyro_frame currentTime accel d2).
    + apply H3. reflexivity.
Qed.

Lemma loop_safe (t : Tick) (d : Device) : safe d -> safe (state_of (loop t d)).
Proof.
  intros Hd. unfold loop. cbn [UTS_ENABLED when].
  rewrite bind_state.
  assert (H1 : safe (state_of (publishObstacle (loop_scan t) d))).
  { destruct (publishObstacle_frame (loop_scan t) d) as [Hm [Hp _]].
    apply (safe_frame d); [exact Hm| |exact Hd]. rewrite Hp. tauto. }
  set (d1 := state_of (publishObstacle (loop_scan t) d)) in *.
  rewrite bind_state.
  assert (H2 : safe
                 (state_of (match rx t with
                            | Some line => receive line t
                            | None => ret tt
                            end d1))).
  { destruct (rx t) as [line|]; [|exact H1].
    unfold receive. rewrite bind_state. apply dispatch_safe. exact H1. }
  set (d2 := state_of (match rx t with
                       | Some line => receive line t
                       | None => ret tt
                       end d1)) in *.
  rewrite bind_read.
  destruct (isMoving (motion d2) && isPrecisionMode (motion d2)) eqn:Hgo;
    cbn [when]; [|exact H2].
  apply andb_prop in Hgo.
  apply checkPrecisionMovement_safe; [apply Hgo|exact H2].
Qed.

(** X8.  Between any two passes of [loop] in a session from boot, whatever
    commands arrive: if isMoving is false both motors are switched off, and
    if it is true a precision movement (MOVE_DISTANCE or TURN_ANGLE) is in
    hand. *)
Theorem motors_off_unless_moving (ticks : list Tick) :
  safe (state_of (run ticks booted)).
Proof.
  assert (Hgen : forall d, safe d -> safe (state_of (run ticks d))).
  { induction ticks as [|t ticks IH]; intros d Hd; [exact Hd|].
    rewrite (proj1 (run_cons t ticks d)). apply IH, loop_safe, Hd. }
  apply Hgen. apply settled_safe. split; reflexivity.
Qed.

(** ** STOP and RESET *)

(** X9.  RESET in any spelling the dispatch accepts, in any state of the
    device: the motors are stopped, isMoving, the precision mode and the
    paused flag are cleared while the latch is left as it is; the next
    MOVE_DISTANCE or TURN_ANGLE is then accepted, not blocked; and a second
    RESET changes nothing more. *)
Theorem reset_always_recovers (line : string) (t : Tick) (d : Device) :
  toUpperCase (trim line) = "RESET" ->
  let r := receive line t d in
  output_of r = [Received "RESET"; MotorsStopped; ResetDone]
  /\ stoppedState (state_of r)
  /\ pausedForObstacle (motion (state_of r)) = false
  /\ latch (state_of r) = latch d
  /\ (forall inches now,
         output_of (moveDistance inches now (state_of r))
         = [MovingInches inches (moveTimeMs inches)])
  /\ (forall degrees now,
         output_of (turnAngle degrees now (state_of r))
         = [TurningDegrees degrees (turnTimeMs degrees)])
  /\ state_of (receive line t (state_of r)) = state_of r.
Proof.
  intros Hline. cbn zeta.
  rewrite !CommandProofs.receive_dispatch, Hline.
  change (dispatch "RESET" t) with resetState.
  split; [reflexivity|]. split; [repeat split|]. split; [reflexivity|].
  split; [reflexivity|]. split; [reflexivity|].
  split; [intros; unfold turnAngle; monad; cbn;
          destruct (Float32.ltb Float32.zero degrees); reflexivity|].
  reflexivity.
Qed.

Lemma reset_always_recovers_witness :
  let r := receive " reset" (pass 0 None 0) booted in
  toUpperCase (trim " reset") = "RESET"
  /\ output_of r = [Received "RESET"; MotorsStopped; ResetDone]
  /\ stoppedState (state_of r).
Proof.
  cbn zeta. split; [reflexivity|].
  destruct (reset_always_recovers " reset" (pass 0 None 0) booted)
    as [Ho [Hs _]]; [reflexivity|].
  split; [exact Ho|exact Hs].
Defined.

(** X10.  STOP cancels whatever movement is in hand: in the pass that reads
    it and in all later passes that read no command, no completion line is
    printed, and at the end isMoving is false and the motors are off (the
    table lights as they were). *)
Theorem stop_cancels_the_movement (line : string) (t : Tick)
        (later : list Tick) (d : Device) :
  rx t = Some line -> toUpperCase (trim line) = "STOP" ->
  Forall (fun t' => rx t' = None) later ->
  let r := run (t :: later) d in
  completions (output_of r) = O
  /\ isMoving (motion (state_of r)) = false
  /\ pins (state_of r) = stoppedPins (pins d).
Proof.
  intros Hrx Hline Hlater. cbn zeta.
  destruct (run_cons t later d) as [Hs Ho]. rewrite Hs, Ho. clear Hs Ho.
  assert (Hpass : completions (output_of (loop t d)) = O
                  /\ isMoving (motion (state_of (loop t d))) = false
                  /\ pins (state_of (loop t d)) = stoppedPins (pins d)).
  { unfold loop. rewrite Hrx. cbn [UTS_ENABLED when].
    rewrite bind_state, bind_output.
    destruct (publishObstacle_frame (loop_scan t) d) as [Hm [Hp [_ Hl]]].
    cbn zeta in *. destruct (sensorLine_not_completion _ Hl) as [Hz _].
    set (d1 := state_of (publishObstacle (loop_scan t) d)) in *.
    rewrite bind_state, bind_output, CommandProofs.receive_dispatch, Hline.
    change (dispatch "STOP" t) with stopMotors.
    rewrite !completions_app, Hz, <- Hp. repeat split. }
  destruct Hpass as [Hc [Hm Hp]].
  destruct (idle_run later (state_of (loop t d)) Hlater Hm) as [Hm' [Hp' Hl]].
  destruct (sensorLine_not_completion _ Hl) as [Hz _].
  rewrite completions_app, Hc, Hz, Hm', Hp', Hm, Hp. repeat split.
Qed.

Lemma stop_cancels_the_movement_witness :
  let t := pass 0 (Some "stop") 100 in
  let later := [pass 0 None 9000] in
  let d := state_of (loop (pass 0 (Some "MOVE_DISTANCE:24.00") 0) booted) in
  let r := run (t :: later) d in
  isMoving (motion d) = true
  /\ completions (output_of r) = O
  /\ isMoving (motion (state_of r)) = false
  /\ pins (state_of r) = stoppedPins (pins d).
Proof.
  cbn zeta. split; [vm_compute; reflexivity|].
  apply (stop_cancels_the_movement "stop" (pass 0 (Some "stop") 100)
           [pass 0 None 9000]).
  - reflexivity.
  - reflexivity.
  - repeat constructor.
Defined.

End SessionProofs.

(** * The command lines on the wire *)

Module WireProofs.
Import Firmware.

(** *** Digits *)

Lemma all_app (p : ascii -> bool) (s1 s2 : string) :
  all p (s1 ++ s2) = all p s1 && all p s2.
Proof.
  induction s1 as [|c r IH]; [reflexivity|].
  cbn. rewrite IH, andb_assoc. reflexivity.
Qed.

Lemma length_app (s1 s2 : string) :
  String.length (s1 ++ s2) = (String.length s1 + String.length s2)%nat.
Proof. induction s1 as [|c r IH]; cbn; [reflexivity|]. rewrite IH. reflexivity. Qed.

Lemma append_nil_r (s : string) : (s ++ EmptyString)%string = s.
Proof. induction s as [|c r IH]; cbn; [reflexivity|]. rewrite IH. reflexivity. Qed.

Lemma append_assoc (s1 s2 s3 : string) :
  ((s1 ++ s2) ++ s3)%string = (s1 ++ s2 ++ s3)%string.
Proof. induction s1 as [|c r IH]; cbn; [reflexivity|]. rewrite IH. reflexivity. Qed.

Lemma valueOf_app (s1 s2 : string) (acc : Z) :
  valueOf (s1 ++ s2) acc = valueOf s2 (valueOf s1 acc).
Proof.
  revert acc. induction s1 as [|c r IH]; intros acc; [reflexivity|].
  cbn. apply IH.
Qed.

Lemma valueOf_acc (s : string) (acc : Z) :
  valueOf s acc = acc * 10 ^ Z.of_nat (String.length s) + valueOf s 0.
Proof.
  revert acc. induction s as [|c r IH]; intros acc.
  - cbn. lia.
  - cbn [valueOf String.length]. rewrite IH, (IH (10 * 0 + (code c - 48))).
    rewrite Nat2Z.inj_succ, Z.pow_succ_r by lia. ring.
Qed.

Lemma valueOf_zeros (k : nat) : valueOf (zeros k) 0 = 0.
Proof. induction k as [|k IH]; [reflexivity|]. cbn. exact IH. Qed.

Lemma all_zeros (k : nat) : all isdigit (zeros k) = true.
Proof. induction k as [|k IH]; [reflexivity|]. cbn. exact IH. Qed.

Lemma length_zeros (k : nat) : String.length (zeros k) = k.
Proof. induction k as [|k IH]; [reflexivity|]. cbn. rewrite IH. reflexivity. Qed.

(** The run of digits that starts a text is read whole. *)
Lemma digitRun_app (s rest : string) (acc : Z) (n : nat) :
  all isdigit s = true ->
  match rest with String c _ => isdigit c = false | EmptyString => True end ->
  digitRun (s ++ rest) acc n = (valueOf s acc, (n + String.length s)%nat, rest).
Proof.
  intros Hs Hrest. revert acc n. induction s as [|c r IH]; intros acc n.
  - cbn. rewrite Nat.add_0_r. destruct rest as [|c r]; [reflexivity|].
    cbn. rewrite Hrest. reflexivity.
  - cbn in Hs. apply andb_prop in Hs. destruct Hs as [Hc Hr].
    cbn [append digitRun valueOf String.length]. rewrite Hc, (IH Hr).
    rewrite Nat.add_succ_r. reflexivity.
Qed.

Lemma uint_digits (d : Decimal.uint) :
  all isdigit (NilEmpty.string_of_uint d) = true.
Proof. induction d; cbn; try reflexivity; assumption. Qed.

Lemma uint_value_acc (d : Decimal.uint) (p : positive) :
  valueOf (NilEmpty.string_of_uint d) (Zpos p) = Zpos (Pos.of_uint_acc d p).
Proof.
  revert p. induction d; intros p; cbn [NilEmpty.string_of_uint valueOf Pos.of_uint_acc];
    [reflexivity|..];
    match goal with
    | |- valueOf _ ?a = Z.pos (Pos.of_uint_acc _ ?q) =>
        replace a with (Z.pos q)
          by (match goal with |- context [code ?c] =>
                let v := eval vm_compute in (code c) in
                change (code c) with v end; lia)
    end; apply IHd.
Qed.

Lemma uint_value (d : Decimal.uint) :
  valueOf (NilEmpty.string_of_uint d) 0 = Z.of_N (Pos.of_uint d).
Proof.
  induction d; cbn [NilEmpty.string_of_uint valueOf Pos.of_uint];
    [reflexivity|exact IHd|..];
    match goal with
    | |- valueOf _ ?a = Z.of_N (N.pos (Pos.of_uint_acc _ ?q)) =>
        replace a with (Z.pos q) by (vm_compute; reflexivity)
    end; apply uint_value_acc.
Qed.

Lemma digits_spec (n : Z) :
  0 <= n ->
  all isdigit (digits n) = true /\ valueOf (digits n) 0 = n
  /\ (1 <= String.length (digits n))%nat.
Proof.
  intros Hn. unfold digits.
  pose proof (DecimalN.Unsigned.of_to (Z.to_N n)) as Hof.
  unfold N.of_uint in Hof.
  assert (Hn' : Z.of_N (Z.to_N n) = n) by (apply Z2N.id, Hn).
  destruct (N.to_uint (Z.to_N n)) eqn:E;
    [rewrite <- Hof in Hn'; cbn in Hn'; subst n;
     split; [reflexivity|]; split; [reflexivity|]; cbn; lia|..];
    unfold NilZero.string_of_uint;
    (split; [apply uint_digits|]);
    (split; [rewrite uint_value, Hof; exact Hn'|cbn; lia]).
Qed.

(** *** Pieces of a text *)

Lemma substring_whole (s : string) : substring 0 (String.length s) s = s.
Proof. induction s as [|c r IH]; cbn; [reflexivity|]. rewrite IH. reflexivity. Qed.

Lemma substring_split (s : string) (a b : nat) :
  (a + b = String.length s)%nat ->
  (substring 0 a s ++ substring a b s)%string = s.
Proof.
  revert a. induction s as [|c r IH]; intros a H.
  - cbn in H. assert (a = O) by lia. assert (b = O) by lia. subst.
    reflexivity.
  - destruct a as [|a].
    + cbn in H. subst b. cbn [substring append].
      rewrite substring_whole. reflexivity.
    + cbn [substring append]. rewrite IH; [reflexivity|]. cbn in H. lia.
Qed.

Lemma length_prefix (s : string) (a : nat) :
  (a <= String.length s)%nat -> String.length (substring 0 a s) = a.
Proof.
  revert a. induction s as [|c r IH]; intros a H.
  - cbn in H. assert (a = O) by lia. subst. reflexivity.
  - destruct a as [|a]; [reflexivity|]. cbn in *. rewrite IH; lia.
Qed.

(** A text of at least [f + 1] digits, cut before its last [f]: both parts
    are digits, the first is not empty, the second has [f] of them, and the
    value of the whole is made of theirs. *)
Lemma cut_digits (m : string) (f : nat) :
  all isdigit m = true -> (S f <= String.length m)%nat ->
  let k := String.length m in
  let p := substring 0 (k - f) m in
  let q := substring (k - f) f m in
  all isdigit p = true /\ all isdigit q = true
  /\ (1 <= String.length p)%nat /\ String.length q = f
  /\ valueOf m 0 = valueOf p 0 * 10 ^ Z.of_nat f + valueOf q 0.
Proof.
  intros Hm Hk. cbn zeta.
  set (k := String.length m) in *.
  pose proof (substring_split m (k - f) f ltac:(lia)) as Hsplit.
  pose proof (length_prefix m (k - f) ltac:(lia)) as Hlp.
  set (p := substring 0 (k - f) m) in *.
  set (q := substring (k - f) f m) in *.
  assert (Hlq : String.length q = f).
  { pose proof (length_app p q) as H. rewrite Hsplit in H. fold k in H. lia. }
  rewrite <- Hsplit, all_app in Hm. apply andb_prop in Hm.
  split; [apply Hm|]. split; [apply Hm|]. split; [lia|].
  split; [exact Hlq|].
  rewrite <- Hsplit, valueOf_app, valueOf_acc, Hlq. reflexivity.
Qed.

(** *** Reading a printed number *)

Lemma digit_not_space (c : ascii) : isdigit c = true -> isspace c = false.
Proof.
  unfold isdigit, isspace. intros H. apply andb_prop in H.
  destruct H as [H1 H2]. apply Z.leb_le in H1, H2.
  destruct (Z.eqb_spec (code c) 32); [lia|].
  destruct (Z.leb_spec 9 (code c)), (Z.leb_spec (code c) 13);
    try reflexivity; lia.
Qed.

Lemma digit_no_sign (c : ascii) (r : string) :
  isdigit c = true -> readSign (String c r) = (false, String c r).
Proof.
  intros Hc. unfold readSign.
  destruct c as [[] [] [] [] [] [] [] []];
    try reflexivity; vm_compute in Hc; discriminate Hc.
Qed.

(** A text that starts with a digit is not one of the words toFloat
    knows. *)
Lemma digit_no_word (c : ascii) (r : string) :
  isdigit c = true ->
  String.eqb (toUpperCase (substring 0 3 (String c r))) "INF" = false
  /\ String.eqb (toUpperCase (substring 0 3 (String c r))) "NAN" = false.
Proof.
  intros Hc. cbn [substring toUpperCase String.eqb].
  destruct c as [[] [] [] [] [] [] [] []];
    try (vm_compute in Hc; discriminate Hc); split; reflexivity.
Qed.

(** toFloat on a text whose number starts with a digit. *)
Lemma toFloat_digits (neg : bool) (c : ascii) (r : string) :
  isdigit c = true ->
  toFloat ((if neg then "-" else EmptyString) ++ String c r)
  = let '(ip, ni, rest) := digitRun (String c r) 0 O in
    let '(fp, nf, rest) :=
      match rest with
      | String "." r' => digitRun r' 0 O
      | _ => (0, O, rest)
      end in
    if (ni + nf =? 0)%nat then Float32.zero
    else
      Float32.ofDecimal neg (ip * 10 ^ Z.of_nat nf + fp)
                        (readExponent rest - Z.of_nat nf).
Proof.
  intros Hc. destruct (digit_no_word c r Hc) as [Hinf Hnan].
  unfold toFloat. destruct neg; cbn [append].
  - change (trimStart (String "-" ?s)) with (String "-" s).
    change (readSign (String "-" ?s)) with (true, s).
    cbv iota beta. rewrite Hinf, Hnan. reflexivity.
  - cbn [trimStart]. rewrite (digit_not_space c Hc).
    rewrite digit_no_sign by exact Hc.
    cbv iota beta. rewrite Hinf, Hnan. reflexivity.
Qed.

Lemma toFloat_point (neg : bool) (p q : string) :
  all isdigit p = true -> all isdigit q = true ->
  (1 <= String.length p)%nat ->
  toFloat ((if neg then "-" else EmptyString) ++ p ++ "." ++ q)
  = Float32.ofDecimal
      neg (valueOf p 0 * 10 ^ Z.of_nat (String.length q) + valueOf q 0)
      (- Z.of_nat (String.length q)).
Proof.
  intros Hp Hq Hlen. destruct p as [|c p]; [cbn in Hlen; lia|].
  pose proof Hp as Hc. cbn in Hc. apply andb_prop in Hc.
  destruct Hc as [Hc _].
  assert (Hrun : digitRun (String c p ++ "." ++ q) 0 0
                 = (valueOf (String c p) 0, String.length (String c p),
                    ("." ++ q)%string)).
  { rewrite digitRun_app; [reflexivity|exact Hp|reflexivity]. }
  assert (Hrun' : digitRun q 0 0 = (valueOf q 0, String.length q, EmptyString)).
  { rewrite <- (append_nil_r q) at 1.
    rewrite digitRun_app; [reflexivity|exact Hq|exact I]. }
  change ((String c p ++ "." ++ q)%string)
    with (String c (p ++ "." ++ q)%string) at 1.
  rewrite toFloat_digits by exact Hc.
  change (String c (p ++ "." ++ q)%string)
    with ((String c p ++ "." ++ q)%string).
  rewrite Hrun. cbn [append]. rewrite Hrun'.
  cbn [String.length Nat.add Nat.eqb readExponent]. rewrite Z.sub_0_l.
  reflexivity.
Qed.

Lemma toFloat_whole (neg : bool) (p : string) :
  all isdigit p = true -> (1 <= String.length p)%nat ->
  toFloat ((if neg then "-" else EmptyString) ++ p)
  = Float32.ofDecimal neg (valueOf p 0) 0.
Proof.
  intros Hp Hlen. destruct p as [|c p]; [cbn in Hlen; lia|].
  pose proof Hp as Hc. cbn in Hc. apply andb_prop in Hc.
  destruct Hc as [Hc _].
  assert (Hrun : digitRun (String c p) 0 0
                 = (valueOf (String c p) 0, String.length (String c p),
                    EmptyString)).
  { rewrite <- (append_nil_r (String c p)) at 1.
    rewrite digitRun_app; [reflexivity|exact Hp|exact I]. }
  rewrite toFloat_digits by exact Hc. rewrite Hrun.
  cbn [String.length Nat.add Nat.eqb readExponent Z.of_nat].
  rewrite Z.pow_0_r, Z.mul_1_r, Z.add_0_r. reflexivity.
Qed.

(** *** Printing, then reading *)

Lemma pow10_pos (f : nat) : 0 < 10 ^ Z.of_nat f.
Proof. apply Z.pow_pos_nonneg; lia. Qed.

Lemma scale_nonzero (f : nat) : ~ inject_Z (10 ^ Z.of_nat f) == 0.
Proof.
  pose proof (pow10_pos f). unfold Qeq. cbn. lia.
Qed.

Lemma magnitude (v : Q) :
  (if negb (Qle_bool 0 v) then Qopp v else v) = Qabs v.
Proof.
  destruct v as [num den]. unfold Qle_bool, Qopp, Qabs. cbn.
  rewrite Z.mul_1_r. destruct (Z.leb_spec 0 num); cbn.
  - rewrite Z.abs_eq by lia. reflexivity.
  - rewrite Z.abs_neq by lia. reflexivity.
Qed.

Lemma rounding_nonneg (f : nat) (v : Q) :
  0 <= Qfloor (Qabs v * inject_Z (10 ^ Z.of_nat f) + (1 # 2)).
Proof.
  rewrite <- (Qfloor_Z 0). apply Qfloor_resp_le.
  pose proof (Qabs_nonneg v) as Ha. pose proof (pow10_pos f) as Hs.
  assert (Hm : (0 <= Qabs v * inject_Z (10 ^ Z.of_nat f))%Q).
  { apply Qmult_le_0_compat; [exact Ha|]. unfold Qle. cbn. lia. }
  change (inject_Z 0) with 0%Q.
  apply Qle_trans with (y := (Qabs v * inject_Z (10 ^ Z.of_nat f))%Q);
    [exact Hm|].
  rewrite <- Qplus_0_r at 1. apply Qplus_le_r. discriminate.
Qed.

(** What toFloat reads from a number printed with [f] decimals: the
    digits printed, the sign and the place of the point. *)
Lemma toFloat_decimal (f : nat) (v : Q) :
  toFloat (decimal f v)
  = Float32.ofDecimal (negb (Qle_bool 0 v)) (scaled f v) (- Z.of_nat f).
Proof.
  unfold decimal, scaled. rewrite magnitude.
  pose proof (rounding_nonneg f v) as Hn.
  set (n := Qfloor (Qabs v * inject_Z (10 ^ Z.of_nat f) + (1 # 2))) in *.
  destruct (digits_spec n Hn) as [Hd [Hv Hl]].
  set (m := (zeros (S f - String.length (digits n)) ++ digits n)%string).
  assert (Hm : all isdigit m = true)
    by (unfold m; rewrite all_app, all_zeros, Hd; reflexivity).
  assert (Hk : (S f <= String.length m)%nat)
    by (unfold m; rewrite length_app, length_zeros; lia).
  assert (Hval : valueOf m 0 = n)
    by (unfold m; rewrite valueOf_app, valueOf_zeros; exact Hv).
  destruct f as [|f'].
  - rewrite toFloat_whole by (try exact Hm; lia).
    rewrite Hval. reflexivity.
  - destruct (cut_digits m (S f') Hm Hk) as [Hp [Hq [Hlp [Hlq Hsum]]]].
    rewrite toFloat_point by assumption.
    rewrite Hlq. rewrite Hval in Hsum. rewrite <- Hsum. reflexivity.
Qed.

(** The digits printed are those of the number to within half a unit of
    the last decimal. *)
Lemma scaled_close (f : nat) (v : Q) :
  (Qabs (inject_Z (scaled f v) / inject_Z (10 ^ Z.of_nat f) - Qabs v)
   <= 1 / inject_Z (2 * 10 ^ Z.of_nat f))%Q.
Proof.
  unfold scaled.
  pose proof (pow10_pos f) as Hpos. pose proof (scale_nonzero f) as Hs.
  set (S := inject_Z (10 ^ Z.of_nat f)) in *.
  assert (HS : (0 < S)%Q) by (unfold S, Qlt; cbn; lia).
  pose proof (Qfloor_le (Qabs v * S + (1 # 2))) as Hlo.
  pose proof (Qlt_floor (Qabs v * S + (1 # 2))) as Hhi.
  set (n := Qfloor (Qabs v * S + (1 # 2))) in *.
  rewrite inject_Z_plus in Hhi. change (inject_Z 1) with 1%Q in Hhi.
  assert (Hinv : (0 < / S)%Q) by (apply Qinv_lt_0_compat, HS).
  assert (He : (1 / inject_Z (2 * 10 ^ Z.of_nat f) == (1 # 2) * / S)%Q).
  { rewrite inject_Z_mult. fold S. change (inject_Z 2) with 2%Q.
    field. exact Hs. }
  rewrite He. clear He.
  apply Qabs_Qle_condition. split.
  - setoid_replace (inject_Z n / S - Qabs v)%Q
      with ((inject_Z n - Qabs v * S) * / S)%Q by (field; exact Hs).
    setoid_replace (- ((1 # 2) * / S))%Q with ((- (1 # 2)) * / S)%Q by ring.
    apply Qmult_le_compat_r; [|apply Qlt_le_weak, Hinv].
    apply Qlt_le_weak.
    apply Qplus_lt_l with (z := (Qabs v * S + 1)%Q). ring_simplify.
    ring_simplify in Hhi. exact Hhi.
  - setoid_replace (inject_Z n / S - Qabs v)%Q
      with ((inject_Z n - Qabs v * S) * / S)%Q by (field; exact Hs).
    apply Qmult_le_compat_r; [|apply Qlt_le_weak, Hinv].
    apply Qplus_le_l with (z := (Qabs v * S)%Q). ring_simplify.
    ring_simplify in Hlo. exact Hlo.
Qed.

(** Below 10^21 toFixed prints plain decimals. *)
Lemma toFixed_decimal (f : nat) (v : Q) :
  (Qabs v < inject_Z (10 ^ 21))%Q -> Host.toFixed f v = decimal f v.
Proof.
  intros Hv. unfold Host.toFixed.
  destruct (Qle_bool (inject_Z (10 ^ 21)) (Qabs v)) eqn:Hle; [|reflexivity].
  apply Qle_bool_iff in Hle. exfalso.
  exact (Qlt_irrefl _ (Qlt_le_trans _ _ _ Hv Hle)).
Qed.

(** X11.  For a number below 10^21 in size, what the firmware's toFloat
    makes of the text the host printed with toFixed(f) is the float read
    from the digits printed, with the point [f] places from their end and
    the sign of the number (kept even when the digits are all zero); and
    these digits are the number's to within half a unit of the last
    decimal. *)
Theorem toFloat_reads_toFixed (f : nat) (v : Q) :
  (Qabs v < inject_Z (10 ^ 21))%Q ->
  toFloat (Host.toFixed f v)
  = Float32.ofDecimal (negb (Qle_bool 0 v)) (scaled f v) (- Z.of_nat f)
  /\ (Qabs (inject_Z (scaled f v) / inject_Z (10 ^ Z.of_nat f) - Qabs v)
      <= 1 / inject_Z (2 * 10 ^ Z.of_nat f))%Q.
Proof.
  intros Hv. rewrite (toFixed_decimal f v Hv).
  split; [apply toFloat_decimal|apply scaled_close].
Qed.

Lemma toFloat_reads_toFixed_witness :
  toFloat (Host.toFixed 2 24) = Float32.ofZ 24
  /\ toFloat (Host.toFixed 1 (-90 # 1)) = Float32.ofZ (-90).
Proof.
  destruct (toFloat_reads_toFixed 2 24) as [H24 _]; [reflexivity|].
  destruct (toFloat_reads_toFixed 1 (-90 # 1)) as [H90 _]; [reflexivity|].
  rewrite H24, H90. split; vm_compute; reflexivity.
Defined.

(** *** From the host's write to the firmware's state *)

Lemma all_impl (p q : ascii -> bool) (s : string) :
  (forall c, p c = true -> q c = true) -> all p s = true -> all q s = true.
Proof.
  intros H. induction s as [|c r IH]; [reflexivity|].
  cbn. intros Hs. apply andb_prop in Hs. destruct Hs as [Hc Hr].
  rewrite (H c Hc), (IH Hr). reflexivity.
Qed.

Lemma numberChar_steady (c : ascii) : numberChar c = true -> steadyChar c = true.
Proof.
  unfold numberChar, steadyChar, isdigit, isspace. intros H.
  destruct (Z.eqb_spec (code c) 32), (Z.leb_spec 9 (code c)),
    (Z.leb_spec (code c) 13), (Z.leb_spec 97 (code c)),
    (Z.leb_spec (code c) 122); cbn; try reflexivity; exfalso;
    destruct (Z.leb_spec 48 (code c)), (Z.leb_spec (code c) 57),
      (Z.eqb_spec (code c) 45), (Z.eqb_spec (code c) 46);
    cbn in H; try discriminate H; lia.
Qed.

Lemma substring_numberChar (s : string) (a b : nat) :
  all numberChar s = true -> all numberChar (substring a b s) = true.
Proof.
  revert a b. induction s as [|c r IH]; intros a b H.
  - destruct a, b; reflexivity.
  - cbn in H. apply andb_prop in H. destruct H as [Hc Hr].
    destruct a as [|a]; [destruct b as [|b]; [reflexivity|]|].
    + cbn. rewrite Hc. apply IH, Hr.
    + cbn. apply IH, Hr.
Qed.

Lemma decimal_chars (f : nat) (v : Q) : all numberChar (decimal f v) = true.
Proof.
  unfold decimal. rewrite magnitude.
  pose proof (rounding_nonneg f v) as Hn.
  set (n := Qfloor (Qabs v * inject_Z (10 ^ Z.of_nat f) + (1 # 2))) in *.
  destruct (digits_spec n Hn) as [Hd _].
  set (m := (zeros (S f - String.length (digits n)) ++ digits n)%string).
  assert (Hm : all numberChar m = true).
  { apply (all_impl isdigit); [intros c Hc; unfold numberChar; rewrite Hc;
                                reflexivity|].
    unfold m. rewrite all_app, all_zeros, Hd. reflexivity. }
  rewrite all_app. apply andb_true_intro. split.
  - destruct (negb (Qle_bool 0 v)); reflexivity.
  - destruct f as [|f']; [exact Hm|].
    rewrite !all_app, !substring_numberChar by exact Hm. reflexivity.
Qed.

Lemma trimEnd_steady (s : string) :
  all steadyChar s = true -> trimEnd s = s.
Proof.
  induction s as [|c r IH]; [reflexivity|].
  cbn. intros H. apply andb_prop in H. destruct H as [Hc Hr].
  rewrite (IH Hr). unfold steadyChar in Hc. apply andb_prop in Hc.
  destruct Hc as [Hc _]. apply negb_true_iff in Hc. rewrite Hc.
  destruct r; reflexivity.
Qed.

Lemma trimStart_steady (s : string) :
  all steadyChar s = true -> trimStart s = s.
Proof.
  destruct s as [|c r]; [reflexivity|].
  cbn. intros H. apply andb_prop in H. destruct H as [Hc _].
  unfold steadyChar in Hc. apply andb_prop in Hc.
  destruct Hc as [Hc _]. apply negb_true_iff in Hc. rewrite Hc. reflexivity.
Qed.

Lemma toUpperCase_steady (s : string) :
  all steadyChar s = true -> toUpperCase s = s.
Proof.
  induction s as [|c r IH]; [reflexivity|].
  cbn. intros H. apply andb_prop in H. destruct H as [Hc Hr].
  rewrite (IH Hr). unfold steadyChar in Hc. apply andb_prop in Hc.
  destruct Hc as [_ Hc]. apply negb_true_iff in Hc.
  unfold toupper. rewrite Hc. reflexivity.
Qed.

(** A line of steady characters, sent with its line feed, is the command
    the dispatch sees. *)
Lemma normalise_wire (s : string) :
  all steadyChar s = true ->
  toUpperCase (trim (s ++ String "010" EmptyString)) = s.
Proof.
  intros H.
  pose proof (CommandProofs.trim_pad EmptyString s (String "010" EmptyString)
                eq_refl eq_refl) as Hpad.
  cbn [append] in Hpad. rewrite Hpad. unfold trim.
  rewrite (trimStart_steady s H), (trimEnd_steady s H).
  apply toUpperCase_steady, H.
Qed.

Lemma startsWith_app (p s : string) : startsWith (p ++ s) p = true.
Proof.
  unfold startsWith. induction p as [|c r IH]; cbn [append prefix].
  - destruct s; reflexivity.
  - destruct (ascii_dec c c) as [_|Hne]; [exact IH|contradiction].
Qed.

Lemma substringFrom_app (p s : string) :
  substringFrom (String.length p) (p ++ s) = s.
Proof.
  unfold substringFrom. rewrite length_app.
  replace (String.length p + String.length s - String.length p)%nat
    with (String.length s) by lia.
  induction p as [|c r IH]; cbn [append String.length substring].
  - apply substring_whole.
  - exact IH.
Qed.

Lemma sent_line (c : Host.Controller) (command : string) (after : Z) :
  Host.port c = true -> Host.isConnected c = true ->
  Host.written (Host.sendCommand c command (Host.WriteCallback after false))
  = [(command ++ String "010" EmptyString)%string].
Proof.
  intros Hp Hc. unfold Host.sendCommand. rewrite Hp, Hc. cbn [negb orb].
  destruct (after <? Host.SEND_TIMEOUT_MS); reflexivity.
Qed.

(** X12.  A move the host accepts reaches an idle firmware as the host
    wrote it: for a positive distance below 10^21 on an open link, the one
    line moveDistance writes is echoed by the sketch and accepted as a
    MOVE_DISTANCE whose target is the float read from the digits printed,
    which are the distance's to within half a hundredth of an inch; the
    movement is started at the clock value of the command. *)
Theorem move_command_reaches_firmware
        (inches : Q) (speed : Host.Speed) (after : Z) (c : Host.Controller)
        (t : Tick) (d : Device) :
  (0 < inches)%Q -> (inches < inject_Z (10 ^ 21))%Q ->
  Host.port c = true -> Host.isConnected c = true ->
  isMoving (motion d) = false ->
  exists line,
    snd (Host.moveDistance inches speed (Host.WriteCallback after false) c)
    = [line]
    /\ let r := receive line t d in
       let target := Float32.ofDecimal false (scaled 2 inches) (-2) in
       output_of r
       = [Received ("MOVE_DISTANCE:" ++ Host.toFixed 2 inches);
          MovingInches target (moveTimeMs target)]
       /\ isMoving (motion (state_of r)) = true
       /\ currentCommand (motion (state_of r)) = "MOVE_DISTANCE"
       /\ movementStartTime (motion (state_of r)) = cmd_millis t
       /\ targetDistance (motion (state_of r)) = target
       /\ (Qabs (inject_Z (scaled 2 inches) / 100 - inches) <= 1 # 200)%Q.
Proof.
  intros Hpos Hbig Hport Hconn Hidle.
  assert (Habs : Qabs inches = inches).
  { destruct inches as [num den]. unfold Qlt in Hpos. cbn in Hpos.
    unfold Qabs. rewrite Z.abs_eq by lia. reflexivity. }
  assert (Hv : (Qabs inches < inject_Z (10 ^ 21))%Q)
    by (rewrite Habs; exact Hbig).
  assert (Hsign : negb (Qle_bool 0 inches) = false).
  { apply negb_false_iff, Qle_bool_iff, Qlt_le_weak, Hpos. }
  assert (Hr : toFloat (Host.toFixed 2 inches)
               = Float32.ofDecimal false (scaled 2 inches) (-2)).
  { rewrite (toFixed_decimal 2 inches Hv), toFloat_decimal, Hsign.
    reflexivity. }
  pose proof (scaled_close 2 inches) as Hc. rewrite Habs in Hc.
  exists (("MOVE_DISTANCE:" ++ Host.toFixed 2 inches)
          ++ String "010" EmptyString)%string.
  split.
  - unfold Host.moveDistance.
    destruct (Qle_bool inches 0) eqn:Hle.
    + apply Qle_bool_iff in Hle. exfalso.
      exact (Qlt_irrefl _ (Qlt_le_trans _ _ _ Hpos Hle)).
    + unfold Host.afterAwait.
      pose proof (sent_line c ("MOVE_DISTANCE:" ++ Host.toFixed 2 inches)
                    after Hport Hconn) as Hw.
      destruct (Host.settled _); cbn [snd]; exact Hw.
  - cbn zeta. rewrite CommandProofs.receive_dispatch.
    rewrite normalise_wire.
    2:{ rewrite all_app. apply andb_true_intro. split; [reflexivity|].
        apply (all_impl numberChar); [exact numberChar_steady|].
        rewrite (toFixed_decimal 2 inches Hv). apply decimal_chars. }
    unfold dispatch.
    rewrite (startsWith_app "MOVE_DISTANCE:" (Host.toFixed 2 inches)).
    pose proof (substringFrom_app "MOVE_DISTANCE:" (Host.toFixed 2 inches))
      as Hsub.
    cbn [String.length] in Hsub. rewrite Hsub, Hr.
    unfold moveDistance. rewrite MotionProofs.bind_read, Hidle.
    repeat split; try reflexivity. exact Hc.
Qed.

Lemma move_command_reaches_firmware_witness :
  exists line,
    snd (Host.moveDistance 24 Host.normal (Host.WriteCallback 3 false)
           (Host.mkController true true Host.initialPosition))
    = [line]
    /\ let r := receive line (pass 0 None 0) booted in
       output_of r
       = [Received "MOVE_DISTANCE:24.00"; MovingInches (Float32.ofZ 24) 8000]
       /\ isMoving (motion (state_of r)) = true
       /\ targetDistance (motion (state_of r)) = Float32.ofZ 24.
Proof.
  destruct (move_command_reaches_firmware 24 Host.normal 3
              (Host.mkController true true Host.initialPosition)
              (pass 0 None 0) booted)
    as [line [Hw [Hout [Hm [_ [_ [Htarget _]]]]]]];
    try reflexivity.
  exists line. split; [exact Hw|]. cbn zeta.
  split; [rewrite Hout; vm_compute; reflexivity|].
  split; [exact Hm|]. rewrite Htarget. vm_compute. reflexivity.
Defined.

(** X13.  A turn the host accepts reaches an idle firmware as the host
    wrote it: for a non-zero angle below 10^21 in size on an open link, the
    one line turnAngle writes is accepted as a TURN_ANGLE whose target is
    the float read from the digits printed, with the sign of the angle;
    the digits are the angle's to within a twentieth of a degree. *)
Theorem turn_command_reaches_firmware
        (degrees : Q) (speed : Host.Speed) (after : Z) (c : Host.Controller)
        (t : Tick) (d : Device) :
  ~ (degrees == 0)%Q -> (Qabs degrees < inject_Z (10 ^ 21))%Q ->
  Host.port c = true -> Host.isConnected c = true ->
  isMoving (motion d) = false ->
  exists line,
    snd (Host.turnAngle degrees speed (Host.WriteCallback after false) c)
    = [line]
    /\ let r := receive line t d in
       let target :=
         Float32.ofDecimal (negb (Qle_bool 0 degrees)) (scaled 1 degrees)
                           (-1) in
       output_of r
       = [Received ("TURN_ANGLE:" ++ Host.toFixed 1 degrees);
          TurningDegrees target (turnTimeMs target)]
       /\ isMoving (motion (state_of r)) = true
       /\ currentCommand (motion (state_of r)) = "TURN_ANGLE"
       /\ movementStartTime (motion (state_of r)) = cmd_millis t
       /\ targetAngle (motion (state_of r)) = target
       /\ (Qabs (inject_Z (scaled 1 degrees) / 10 - Qabs degrees)
           <= 1 # 20)%Q.
Proof.
  intros Hnz Hv Hport Hconn Hidle.
  assert (Hr : toFloat (Host.toFixed 1 degrees)
               = Float32.ofDecimal (negb (Qle_bool 0 degrees))
                                   (scaled 1 degrees) (-1)).
  { rewrite (toFixed_decimal 1 degrees Hv). apply toFloat_decimal. }
  pose proof (scaled_close 1 degrees) as Hc.
  exists (("TURN_ANGLE:" ++ Host.toFixed 1 degrees)
          ++ String "010" EmptyString)%string.
  split.
  - unfold Host.turnAngle.
    destruct (Qeq_bool degrees 0) eqn:Heq.
    + apply Qeq_bool_iff in Heq. contradiction.
    + unfold Host.afterAwait.
      pose proof (sent_line c ("TURN_ANGLE:" ++ Host.toFixed 1 degrees)
                    after Hport Hconn) as Hw.
      destruct (Host.settled _); cbn [snd]; exact Hw.
  - cbn zeta. rewrite CommandProofs.receive_dispatch.
    rewrite normalise_wire.
    2:{ rewrite all_app. apply andb_true_intro. split; [reflexivity|].
        apply (all_impl numberChar); [exact numberChar_steady|].
        rewrite (toFixed_decimal 1 degrees Hv). apply decimal_chars. }
    unfold dispatch.
    rewrite (MotionProofs.move_prefix_excluded _
               (startsWith_app "TURN_ANGLE:" (Host.toFixed 1 degrees))).
    rewrite (startsWith_app "TURN_ANGLE:" (Host.toFixed 1 degrees)).
    pose proof (substringFrom_app "TURN_ANGLE:" (Host.toFixed 1 degrees))
      as Hsub.
    cbn [String.length] in Hsub. rewrite Hsub, Hr.
    unfold turnAngle. rewrite MotionProofs.bind_read, Hidle.
    destruct (Float32.ltb Float32.zero _);
      (repeat split; try reflexivity; exact Hc).
Qed.

Lemma turn_command_reaches_firmware_witness :
  exists line,
    snd (Host.turnAngle (-90 # 1) Host.precision (Host.WriteCallback 3 false)
           (Host.mkController true true Host.initialPosition))
    = [line]
    /\ let r := receive line (pass 0 None 0) booted in
       output_of r
       = [Received "TURN_ANGLE:-90.0";
          TurningDegrees (Float32.ofZ (-90)) 499]
       /\ isMoving (motion (state_of r)) = true
       /\ targetAngle (motion (state_of r)) = Float32.ofZ (-90).
Proof.
  destruct (turn_command_reaches_firmware (-90 # 1) Host.precision 3
              (Host.mkController true true Host.initialPosition)
              (pass 0 None 0) booted)
    as [line [Hw [Hout [Hm [_ [_ [Htarget _]]]]]]];
    try reflexivity; [discriminate|].
  exists line. split; [exact Hw|]. cbn zeta.
  split; [rewrite Hout; vm_compute; reflexivity|].
  split; [exact Hm|]. rewrite Htarget. vm_compute. reflexivity.
Defined.

End WireProofs.

(** * The controller's believed pose *)

Module PoseProofs.
Import Host.

(** X14.  The controller's pose bookkeeping never leaves the 5 by 5 grid:
    a turn changes the facing only, a forward move keeps the facing and
    takes the pose to the cell ahead when that cell is on the grid, and
    leaves it where it is at the edge. *)
Theorem pose_stays_on_grid (movement : Movement) (c : Controller) :
  onGrid (currentPosition c) ->
  let p := currentPosition c in
  let p' := currentPosition (updatePositionAfterMove movement c) in
  onGrid p'
  /\ (movement <> mv_forward -> x p' = x p /\ y p' = y p)
  /\ (movement = mv_forward ->
      (onGrid (ahead p) -> p' = ahead p)
      /\ (~ onGrid (ahead p) -> p' = p)).
Proof.
  unfold onGrid, ahead. destruct c as [prt conn [px py dir]]. cbn.
  intros [Hx Hy].
  destruct movement, dir; cbn;
    (split; [lia|]);
    (split; [intros H; try (exfalso; apply H; reflexivity);
             split; reflexivity|]);
    intros H; try discriminate H;
    (split; intros Ha;
     [f_equal; lia
     |f_equal; try lia;
      match goal with
      | |- Z.max _ _ = _ =>
          destruct (Z.max_spec 0 (px - 1)), (Z.max_spec 0 (py - 1)); lia
      | |- Z.min _ _ = _ =>
          destruct (Z.min_spec 4 (px + 1)), (Z.min_spec 4 (py + 1)); lia
      | _ => idtac
      end]).
Qed.

Lemma pose_stays_on_grid_witness :
  let c := mkController true true (mkRobotPosition 2 0 north) in
  onGrid (currentPosition c)
  /\ currentPosition (updatePositionAfterMove mv_forward c)
     = currentPosition c.
Proof.
  cbn zeta.
  assert (Hg : onGrid (currentPosition
                         (mkController true true (mkRobotPosition 2 0 north))))
    by (unfold onGrid; cbn; lia).
  split; [exact Hg|].
  destruct (pose_stays_on_grid mv_forward _ Hg) as [_ [_ Hf]].
  destruct (Hf eq_refl) as [_ Hedge]. apply Hedge.
  unfold onGrid, ahead. cbn. lia.
Defined.

(** X15.  Quarter turns of the believed pose cancel: a left turn undoes a
    right turn and the other way round, and four turns the same way bring
    the pose back. *)
Theorem quarter_turns_cancel (c : Controller) :
  updatePositionAfterMove mv_left (updatePositionAfterMove mv_right c) = c
  /\ updatePositionAfterMove mv_right (updatePositionAfterMove mv_left c) = c
  /\ updatePositionAfterMove mv_right
       (updatePositionAfterMove mv_right
          (updatePositionAfterMove mv_right
             (updatePositionAfterMove mv_right c))) = c
  /\ direction (currentPosition (updatePositionAfterMove mv_right c))
     = clockwise (direction (currentPosition c)).
Proof.
  destruct c as [prt conn [px py dir]]. destruct dir; repeat split.
Qed.

Lemma awaited (c : Controller) (command : string) (w : WriteBehaviour)
      (k : Controller -> Controller) :
  fst (afterAwait (sendCommand c command w) c k) = k c.
Proof.
  unfold afterAwait.
  destruct (HostProofs.sendCommand_resolves c command w) as [t [Ht _]].
  rewrite Ht. reflexivity.
Qed.

Lemma turnAngle_pose (a : Z) (speed : Speed) (w : WriteBehaviour)
      (c : Controller) :
  fst (turnAngle (inject_Z a) speed w c)
  = if a =? 0 then c
    else if 0 <? a then updatePositionAfterMove mv_right c
         else updatePositionAfterMove mv_left c.
Proof.
  unfold turnAngle.
  assert (H0 : Qeq_bool (inject_Z a) 0 = (a =? 0)).
  { unfold Qeq_bool, inject_Z. cbn. rewrite Z.mul_1_r. reflexivity. }
  assert (H1 : Qlt_bool 0 (inject_Z a) = (0 <? a)).
  { unfold Qlt_bool, Qle_bool, inject_Z. cbn. rewrite Z.mul_1_r.
    destruct (Z.leb_spec a 0), (Z.ltb_spec 0 a); try reflexivity; lia. }
  rewrite H0, H1. destruct (a =? 0); [reflexivity|].
  rewrite awaited. destruct (0 <? a); reflexivity.
Qed.

(** X16.  turnAngle books one quarter turn whatever the size of the angle.
    Fed the angle calculateTurnAngle computes, it leaves the believed
    facing at the required one for a quarter turn either way (and changes
    nothing for no turn), but for a U-turn, where the angle is 180, the
    believed facing ends a quarter turn clockwise of the old one, not at
    the required one. *)
Theorem host_turn_books_one_quarter
        (required : Direction) (speed : Speed) (w : WriteBehaviour)
        (c : Controller) :
  let current := direction (currentPosition c) in
  let angle := calculateTurnAngle current required in
  let c' := fst (turnAngle (inject_Z angle) speed w c) in
  x (currentPosition c') = x (currentPosition c)
  /\ y (currentPosition c') = y (currentPosition c)
  /\ (angle <> 180 -> direction (currentPosition c') = required)
  /\ (angle = 180 ->
      direction (currentPosition c') = clockwise current
      /\ required = clockwise (clockwise current)).
Proof.
  cbn zeta. rewrite turnAngle_pose.
  destruct c as [prt conn [px py dir]].
  cbn [currentPosition direction].
  destruct dir, required;
    (split; [reflexivity|]; split; [reflexivity|];
     split;
     [intros H; first [reflexivity | exfalso; apply H; reflexivity]
     |intros H; first [discriminate H | split; reflexivity]]).
Qed.

Lemma awaitSend_resolves (p : Port) (command : string) (r : Run) :
  exists out,
    awaitSend p command r = Some (mkRun (ctl r) (S (calls r)) (wire r ++ out)).
Proof.
  unfold awaitSend.
  destruct (HostProofs.sendCommand_resolves (ctl r) command (p (calls r)))
    as [t [Ht _]].
  rewrite Ht. eexists. reflexivity.
Qed.

Lemma legacy_turn (p : Port) (first : string) (movement : Movement) (r : Run) :
  exists out,
    andThen (awaitSend p first r) (fun r1 =>
    andThen (awaitSend p "STOP" r1) (fun r2 =>
    Some (updated movement r2)))
    = Some (mkRun (updatePositionAfterMove movement (ctl r))
                  (S (S (calls r))) (wire r ++ out)).
Proof.
  destruct (awaitSend_resolves p first r) as [o1 H1]. rewrite H1.
  cbn [andThen].
  destruct (awaitSend_resolves p "STOP"
              (mkRun (ctl r) (S (calls r)) (wire r ++ o1))) as [o2 H2].
  rewrite H2. cbn [andThen]. unfold updated. cbn [ctl calls wire].
  exists (o1 ++ o2). rewrite app_assoc. reflexivity.
Qed.


End PoseProofs.

(** * The renderer and the controller through a segment *)

Module SyncProofs.
Import Planner.

Lemma awaited_pose (c : Host.Controller) (command : string)
      (w : Host.WriteBehaviour) (k : Host.Controller -> Host.Controller) :
  fst (Host.afterAwait (Host.sendCommand c command w) c k) = k c.
Proof.
  unfold Host.afterAwait.
  destruct (HostProofs.sendCommand_resolves c command w) as [t [Ht _]].
  rewrite Ht. reflexivity.
Qed.

Lemma invoke_turn (w : Host.WriteBehaviour) (a : Z) (c : Host.Controller) :
  fst (Bridge.invoke w (TurnAngle a) c)
  = if a =? 0 then c
    else if 0 <? a then Host.updatePositionAfterMove Host.mv_right c
         else Host.updatePositionAfterMove Host.mv_left c.
Proof.
  unfold Bridge.invoke, Host.turnAngle.
  assert (H0 : Qeq_bool (inject_Z a) 0 = (a =? 0)).
  { unfold Qeq_bool, inject_Z. cbn. rewrite Z.mul_1_r. reflexivity. }
  assert (H1 : Qlt_bool 0 (inject_Z a) = (0 <? a)).
  { unfold Qlt_bool, Qle_bool, inject_Z. cbn. rewrite Z.mul_1_r.
    destruct (Z.leb_spec a 0), (Z.ltb_spec 0 a); try reflexivity; lia. }
  rewrite H0, H1. destruct (a =? 0); [reflexivity|].
  rewrite awaited_pose. destruct (0 <? a); reflexivity.
Qed.

Lemma invoke_move (w : Host.WriteBehaviour) (s : Speed) (c : Host.Controller) :
  fst (Bridge.invoke w (MoveDistance 24 s) c)
  = Host.updatePositionAfterMove Host.mv_forward c.
Proof.
  unfold Bridge.invoke, Host.moveDistance.
  change (Qle_bool (inject_Z 24) 0) with false. cbv iota.
  apply awaited_pose.
Qed.

Lemma invoke_led (w : Host.WriteBehaviour) (n : Z) (c : Host.Controller) :
  fst (Bridge.invoke w (TableArrived n) c) = c.
Proof.
  unfold Bridge.invoke, Host.tableArrived.
  destruct (_ || _); [reflexivity|]. apply awaited_pose.
Qed.

Lemma invokeAll_app (w : Host.WriteBehaviour) (l1 l2 : list RobotCall)
      (c : Host.Controller) :
  fst (Bridge.invokeAll w (l1 ++ l2) c)
  = fst (Bridge.invokeAll w l2 (fst (Bridge.invokeAll w l1 c))).
Proof.
  revert c. induction l1 as [|call l1 IH]; intros c; [reflexivity|].
  cbn [app Bridge.invokeAll].
  destruct (Bridge.invoke w call c) as [c1 o1].
  specialize (IH c1).
  destruct (Bridge.invokeAll w (l1 ++ l2) c1) as [c2 o2].
  destruct (Bridge.invokeAll w l1 c1) as [c3 o3]. cbn [fst] in *.
  exact IH.
Qed.

Lemma invokeAll_one (w : Host.WriteBehaviour) (call : RobotCall)
      (c : Host.Controller) :
  fst (Bridge.invokeAll w [call] c) = fst (Bridge.invoke w call c).
Proof.
  cbn [Bridge.invokeAll]. destruct (Bridge.invoke w call c). reflexivity.
Qed.

(** What moveRobot returns for a segment to a next cell that differs from
    the robot's, on a mounted component with no call in flight. *)
Lemma moveRobot_step (sel : list Table) (comp : Component)
      (nextPos : Position) (targetDir : Direction) :
  isMovingRef comp = false -> isMountedRef comp = true ->
  let st := deliveryState comp in
  nth_error (currentPath st) (S (currentStep st)) = Some nextPos ->
  getDirectionFromDelta (x nextPos - x (robotPosition st))
                        (y nextPos - y (robotPosition st)) = Some targetDir ->
  let angle := calculateTurnAngle (robotDirection st) targetDir in
  let sent :=
    if arduinoConnected comp
    then (if angle =? 0 then [] else [TurnAngle angle])
           ++ [MoveDistance 24 normal]
    else [] in
  let after st' :=
    mkComponent st' (completedSteps comp + 1) false (isMountedRef comp)
                (arduinoConnected comp) in
  moveRobot sel comp
  = match find (fun t => Position_eqb (TABLE_POSITIONS t) nextPos) sel with
    | Some tbl =>
        (sent ++ (if arduinoConnected comp && (1 <=? tableNumber tbl)
                     && (tableNumber tbl <=? 3)
                  then [TableArrived (tableNumber tbl)] else []),
         after (mkDeliveryState (currentPath st) (S (currentStep st)) nextPos
                                targetDir (isMoving st) (Some tbl) true
                                arrived))
    | None =>
        (sent ++ [],
         after (mkDeliveryState (currentPath st) (S (currentStep st)) nextPos
                                targetDir true (currentTable st)
                                (showModal st) (deliveryStatus st)))
    end.
Proof.
  intros Hbusy Hmounted st Hnext Hdir. cbn zeta.
  unfold moveRobot. rewrite Hbusy, Hmounted. fold st.
  rewrite Hnext, Hdir. cbn [negb].
  set (angle := calculateTurnAngle (robotDirection st) targetDir).
  assert (Hnew : (if angle =? 0 then robotDirection st
                  else match getNewDirection (robotDirection st) angle with
                       | Some d => d
                       | None => robotDirection st
                       end) = targetDir).
  { unfold angle.
    rewrite PlannerProofs.getNewDirection_calculateTurnAngle.
    destruct (robotDirection st), targetDir; reflexivity. }
  assert (Hlen : (Z.of_nat (List.length (currentPath st)) - 1
                  <=? Z.of_nat (currentStep st)) = false).
  { apply Z.leb_gt.
    assert (S (currentStep st) < List.length (currentPath st))%nat
      by (apply nth_error_Some; rewrite Hnext; discriminate).
    lia. }
  unfold advance. rewrite Hlen, Hnext, Hnew.
  destruct (find _ sel) as [tbl|]; reflexivity.
Qed.

(** The component after one segment of the path. *)
Lemma moveRobot_state (sel : list Table) (comp : Component)
      (nextPos : Position) (targetDir : Direction) :
  isMovingRef comp = false -> isMountedRef comp = true ->
  let st := deliveryState comp in
  nth_error (currentPath st) (S (currentStep st)) = Some nextPos ->
  getDirectionFromDelta (x nextPos - x (robotPosition st))
                        (y nextPos - y (robotPosition st)) = Some targetDir ->
  let comp' := snd (moveRobot sel comp) in
  let st' := deliveryState comp' in
  robotPosition st' = nextPos
  /\ robotDirection st' = targetDir
  /\ currentStep st' = S (currentStep st)
  /\ currentPath st' = currentPath st
  /\ completedSteps comp' = completedSteps comp + 1
  /\ isMovingRef comp' = false
  /\ isMountedRef comp' = true
  /\ ((deliveryStatus st' = arrived /\ dialogUp comp' = true)
      \/ (deliveryStatus st' = deliveryStatus st /\ isMoving st' = true
          /\ showModal st' = showModal st)).
Proof.
  intros Hbusy Hmounted st Hnext Hdir. cbn zeta.
  rewrite (moveRobot_step sel comp nextPos targetDir Hbusy Hmounted Hnext
             Hdir). fold st.
  destruct (find _ sel) as [tbl|]; cbn; repeat split; try exact Hmounted.
  - left. split; reflexivity.
  - right. repeat split.
Qed.

(** The calls of one segment of the path. *)
Lemma moveRobot_calls (sel : list Table) (comp : Component)
      (nextPos : Position) (targetDir : Direction) :
  isMovingRef comp = false -> isMountedRef comp = true ->
  let st := deliveryState comp in
  nth_error (currentPath st) (S (currentStep st)) = Some nextPos ->
  getDirectionFromDelta (x nextPos - x (robotPosition st))
                        (y nextPos - y (robotPosition st)) = Some targetDir ->
  let angle := calculateTurnAngle (robotDirection st) targetDir in
  exists led,
    fst (moveRobot sel comp)
    = (if arduinoConnected comp
       then (if angle =? 0 then [] else [TurnAngle angle])
              ++ [MoveDistance 24 normal]
       else []) ++ led
    /\ forall call, In call led -> exists n, call = TableArrived n.
Proof.
  intros Hbusy Hmounted st Hnext Hdir. cbn zeta.
  rewrite (moveRobot_step sel comp nextPos targetDir Hbusy Hmounted Hnext
             Hdir). fold st.
  destruct (find _ sel) as [tbl|]; cbn [fst].
  - eexists. split; [reflexivity|].
    intros call Hin. destruct (_ && _); [|destruct Hin].
    destruct Hin as [<-|[]]. eexists. reflexivity.
  - exists []. split; [reflexivity|]. intros call [].
Qed.



Lemma unit_step (dx dy : Z) :
  Z.abs dx + Z.abs dy = 1 ->
  (dx = 1 /\ dy = 0) \/ (dx = -1 /\ dy = 0)
  \/ (dx = 0 /\ dy = 1) \/ (dx = 0 /\ dy = -1).
Proof. lia. Qed.

(** X19.  The renderer's and the controller's poses through one segment.
    If they agree before a segment to an adjacent cell of the 5 by 5 grid,
    they agree after it exactly when the segment needs no U-turn: turnAngle
    books a quarter turn for the 180 degrees of a U-turn, so after one the
    controller believes the robot a quarter turn off and on another cell. *)
Theorem segment_keeps_poses_in_sync
        (sel : list Table) (w : Host.WriteBehaviour) (comp : Component)
        (c : Host.Controller) (nextPos : Position) :
  isMovingRef comp = false -> isMountedRef comp = true ->
  arduinoConnected comp = true ->
  Bridge.synced comp c ->
  let st := deliveryState comp in
  nth_error (currentPath st) (S (currentStep st)) = Some nextPos ->
  Z.abs (x nextPos - x (robotPosition st))
  + Z.abs (y nextPos - y (robotPosition st)) = 1 ->
  0 <= x nextPos <= 4 -> 0 <= y nextPos <= 4 ->
  let comp' := snd (moveRobot sel comp) in
  let c' := fst (Bridge.invokeAll w (fst (moveRobot sel comp)) c) in
  Bridge.synced comp' c'
  <-> opposite (robotDirection st)
               (robotDirection (deliveryState comp')) = false.
Proof.
  intros Hbusy Hmounted Hconn Hsync st Hnext Hunit Hx Hy. cbn zeta.
  assert (Hdir : exists targetDir,
             getDirectionFromDelta (x nextPos - x (robotPosition st))
                                   (y nextPos - y (robotPosition st))
             = Some targetDir).
  { destruct (unit_step _ _ Hunit) as [[-> ->]|[[-> ->]|[[-> ->]|[-> ->]]]];
      eexists; reflexivity. }
  destruct Hdir as [targetDir Hdir].
  destruct (moveRobot_state sel comp nextPos targetDir Hbusy Hmounted
              Hnext Hdir) as [Hp [Hd _]].
  destruct (moveRobot_calls sel comp nextPos targetDir Hbusy Hmounted
              Hnext Hdir) as [led [Hcalls Hled]].
  fold st in Hp, Hd, Hcalls.
  rewrite Hcalls, Hconn, Hd. unfold Bridge.synced. rewrite Hp, Hd.
  assert (Hleds : forall c0, fst (Bridge.invokeAll w led c0) = c0).
  { clear Hcalls. induction led as [|call led IH]; intros c0; [reflexivity|].
    cbn [Bridge.invokeAll].
    destruct (Hled call (or_introl eq_refl)) as [n ->].
    pose proof (invoke_led w n c0) as Hn.
    destruct (Bridge.invoke w (TableArrived n) c0) as [c1 o1].
    cbn [fst] in Hn. subst c1.
    specialize (IH (fun call0 H => Hled call0 (or_intror H)) c0).
    destruct (Bridge.invokeAll w led c0) as [c2 o2]. exact IH. }
  rewrite invokeAll_app, Hleds, invokeAll_app, invokeAll_one, invoke_move.
  assert (Hturn : forall a c0,
             fst (Bridge.invokeAll w
                    (if a =? 0 then [] else [TurnAngle a]) c0)
             = fst (Bridge.invoke w (TurnAngle a) c0)).
  { intros a c0. rewrite invoke_turn.
    destruct (a =? 0) eqn:Ha; [reflexivity|].
    rewrite invokeAll_one, invoke_turn, Ha. reflexivity. }
  rewrite Hturn, invoke_turn. clear Hturn Hleds Hcalls.
  destruct Hsync as [Hsx [Hsy Hsd]]. fold st in Hsx, Hsy, Hsd.
  destruct c as [prt conn [px py dir]].
  cbn [Host.currentPosition Host.x Host.y Host.direction] in Hsx, Hsy, Hsd.
  destruct nextPos as [nx ny]. cbn [x y] in *.
  destruct (robotPosition st) as [rx ry]. cbn [x y] in *. subst px py.
  unfold opposite.
  destruct (unit_step _ _ Hunit) as [[Ex Ey]|[[Ex Ey]|[[Ex Ey]|[Ex Ey]]]];
    rewrite Ex, Ey in Hdir; cbn in Hdir; injection Hdir as <-;
    destruct (robotDirection st); cbn in Hsd; subst dir;
    cbn -[Z.min Z.max];
    (split;
     [intros [H1 [H2 H3]]; first [reflexivity | discriminate H3]
     |intros H; first [discriminate H
                      | repeat split; cbn -[Z.min Z.max]; lia]]).
Qed.

Lemma segment_keeps_poses_in_sync_witness :
  let comp := started scenarioPath in
  let c := Host.mkController true true Host.initialPosition in
  let w := Host.WriteCallback 3 false in
  Bridge.synced comp c
  /\ Bridge.synced (snd (moveRobot [] comp))
       (fst (Bridge.invokeAll w (fst (moveRobot [] comp)) c)).
Proof.
  cbn zeta.
  assert (Hs : Bridge.synced (started scenarioPath)
                 (Host.mkController true true Host.initialPosition))
    by (repeat split).
  split; [exact Hs|].
  apply (segment_keeps_poses_in_sync [] (Host.WriteCallback 3 false)
           (started scenarioPath)
           (Host.mkController true true Host.initialPosition)
           (mkPosition 2 3));
    try reflexivity; try exact Hs; cbn; lia.
Defined.

End SyncProofs.

(** * The route planner *)

Module RouteProofs.
Import Planner Pathfinder.

Lemma Position_eqb_eq (p q : Position) : Position_eqb p q = true <-> p = q.
Proof.
  destruct p as [px py], q as [qx qy]. unfold Position_eqb. cbn.
  rewrite andb_true_iff, !Z.eqb_eq. split.
  - intros [-> ->]. reflexivity.
  - intros H. injection H as -> ->. split; reflexivity.
Qed.

Lemma has_In (closedSet : list Position) (p : Position) :
  has closedSet p = true <-> In p closedSet.
Proof.
  unfold has. rewrite existsb_exists. split.
  - intros [q [Hq He]]. apply Position_eqb_eq in He. subst q. exact Hq.
  - intros H. exists p. split; [exact H|]. apply Position_eqb_eq. reflexivity.
Qed.

Lemma isAt_position (p : Position) (n : Node) :
  isAt p n = true <-> position n = p.
Proof.
  destruct p as [px py]. unfold isAt, position. cbn.
  rewrite andb_true_iff, !Z.eqb_eq. split.
  - intros [-> ->]. reflexivity.
  - intros H. injection H as -> ->. split; reflexivity.
Qed.

(** Induction over the chain of parents. *)
Lemma Node_chain_ind (P : Node -> Prop) :
  (forall nx ny g h f, P (mkNode nx ny g h f None)) ->
  (forall nx ny g h f p, P p -> P (mkNode nx ny g h f (Some p))) ->
  forall n, P n.
Proof.
  intros Hroot Hstep.
  fix IH 1. intros [nx ny g h f [p|]].
  - apply Hstep. apply IH.
  - apply Hroot.
Qed.

Lemma rooted_walkable pf start (n : Node) :
  rooted pf start n -> walkable pf (position n).
Proof. destruct n as [nx ny g h f p]. cbn. intros [H _]. exact H. Qed.

(** *** Reading the path back *)

Lemma unwind_walk pf start (n : Node) :
  forall acc,
    rooted pf start n -> Forall (walkable pf) acc ->
    stepwise (position n :: acc) ->
    let l := unwind n acc in
    hd_error l = Some start /\ stepwise l /\ Forall (walkable pf) l
    /\ forall d, last l d = last (position n :: acc) d.
Proof.
  induction n as [nx ny g h f|nx ny g h f p IH] using Node_chain_ind;
    intros acc Hr Hacc Hstep; cbn zeta.
  - cbn in Hr. destruct Hr as [Hw Hs]. cbn [unwind].
    unfold position in Hstep. cbn [nodeX nodeY] in Hstep.
    split; [cbn; rewrite Hs; reflexivity|]. split; [exact Hstep|].
    split; [constructor; assumption|]. intros d. reflexivity.
  - cbn [rooted] in Hr. destruct Hr as [Hw [Hadj Hp]]. cbn [unwind].
    unfold position in Hstep. cbn [nodeX nodeY] in Hstep.
    destruct (IH (mkPosition nx ny :: acc) Hp) as [H1 [H2 [H3 H4]]].
    + constructor; assumption.
    + split; [exact Hadj|exact Hstep].
    + split; [exact H1|]. split; [exact H2|]. split; [exact H3|].
      intros d. rewrite H4. reflexivity.
Qed.

Lemma unwind_is_walk pf start (n : Node) :
  rooted pf start n -> walk pf start (position n) (unwind n []).
Proof.
  intros Hr.
  destruct (unwind_walk pf start n [] Hr (Forall_nil _) I) as [H1 [H2 [H3 H4]]].
  cbn zeta in *. repeat split; try assumption. apply H4.
Qed.

(** *** The open set *)

Lemma lowest_In (rest : list Node) :
  forall currentNode currentIndex i,
    In (fst (lowest currentNode currentIndex rest i)) (currentNode :: rest).
Proof.
  induction rest as [|node rest IH]; intros currentNode currentIndex i;
    cbn [lowest].
  - left. reflexivity.
  - destruct (nodeF node <? nodeF currentNode).
    + right. apply IH.
    + destruct (IH currentNode currentIndex (S i)) as [H|H];
        [left; exact H|right; right; exact H].
Qed.

Lemma removeAt_incl {A : Type} (index : nat) (l : list A) :
  incl (removeAt index l) l.
Proof.
  revert index. induction l as [|a l IH]; intros index;
    [destruct index; intros x []|].
  destruct index as [|index]; cbn [removeAt].
  - intros x H. right. exact H.
  - intros x [H|H]; [left; exact H|right; apply (IH index), H].
Qed.

Lemma getNeighbors_spec pf (n : Node) (p : Position) :
  In p (getNeighbors pf n) -> walkable pf p /\ adjacent (position n) p.
Proof.
  unfold getNeighbors. rewrite filter_In. intros [Hin Hv].
  split; [exact Hv|]. unfold adjacent, position. cbn [x y].
  cbn in Hin.
  destruct Hin as [<-|[<-|[<-|[<-|[]]]]]; cbn [x y]; lia.
Qed.

Lemma improve_rooted pf start (p : Position) (tentativeG : Z)
      (currentNode : Node) (openSet : list Node) :
  rooted pf start currentNode -> adjacent (position currentNode) p ->
  Forall (rooted pf start) openSet ->
  Forall (rooted pf start) (improve p tentativeG currentNode openSet).
Proof.
  intros Hc Hadj. induction 1 as [|node rest Hn Hrest IH]; cbn [improve];
    [constructor|].
  destruct (isAt p node) eqn:Hat.
  - constructor; [|assumption].
    apply isAt_position in Hat. cbn [rooted].
    split; [|split; [|exact Hc]].
    + apply rooted_walkable in Hn. exact Hn.
    + fold (position currentNode). fold (position node). rewrite Hat.
      exact Hadj.
  - constructor; assumption.
Qed.

Lemma explore_rooted pf start (goal : Position) (closedSet : list Position)
      (currentNode : Node) (openSet : list Node) (p : Position) :
  rooted pf start currentNode -> walkable pf p ->
  adjacent (position currentNode) p ->
  Forall (rooted pf start) openSet ->
  Forall (rooted pf start) (explore goal closedSet currentNode openSet p).
Proof.
  intros Hc Hw Hadj Ho. unfold explore.
  destruct (has closedSet p); [exact Ho|].
  destruct (find (isAt p) openSet) as [existing|].
  - destruct (_ <? _); [|exact Ho].
    apply improve_rooted; assumption.
  - apply Forall_app. split; [exact Ho|]. constructor; [|constructor].
    cbn [rooted]. destruct p as [px py]. cbn [x y].
    split; [exact Hw|]. split; [exact Hadj|exact Hc].
Qed.

Lemma explore_all_rooted pf start (goal : Position)
      (closedSet : list Position) (currentNode : Node)
      (neighbors : list Position) :
  rooted pf start currentNode ->
  (forall p, In p neighbors ->
             walkable pf p /\ adjacent (position currentNode) p) ->
  forall openSet,
    Forall (rooted pf start) openSet ->
    Forall (rooted pf start)
      (fold_left (explore goal closedSet currentNode) neighbors openSet).
Proof.
  intros Hc. induction neighbors as [|p ps IH]; intros Hn openSet Ho;
    [exact Ho|].
  cbn [fold_left]. apply IH.
  - intros q Hq. apply Hn. right. exact Hq.
  - destruct (Hn p (or_introl eq_refl)) as [Hw Hadj].
    apply explore_rooted; assumption.
Qed.

Lemma search_sound pf (start goal : Position) (fuel : nat) :
  forall openSet closedSet r,
    Forall (rooted pf start) openSet ->
    search pf goal fuel openSet closedSet = Some r ->
    sound pf start goal r.
Proof.
  induction fuel as [|fuel IH]; intros openSet closedSet r Ho;
    cbn [search]; [discriminate|].
  destruct openSet as [|first rest].
  - intros H. injection H as <-. reflexivity.
  - pose proof (lowest_In rest first O 1%nat) as Hin.
    destruct (lowest first 0 rest 1) as [currentNode currentIndex].
    cbn [fst] in Hin.
    assert (Hc : rooted pf start currentNode)
      by (rewrite Forall_forall in Ho; apply Ho, Hin).
    destruct ((nodeX currentNode =? x goal) && (nodeY currentNode =? y goal))
      eqn:Hgoal.
    + intros H. injection H as <-. unfold sound. cbn [success path].
      assert (Hpos : position currentNode = goal).
      { apply andb_prop in Hgoal. destruct Hgoal as [Hx Hy].
        apply Z.eqb_eq in Hx, Hy. unfold position. rewrite Hx, Hy.
        destruct goal; reflexivity. }
      rewrite <- Hpos. apply unwind_is_walk, Hc.
    + apply IH. apply explore_all_rooted.
      * exact Hc.
      * intros p Hp. apply (getNeighbors_spec pf currentNode p Hp).
      * apply Forall_forall. intros n Hn.
        rewrite Forall_forall in Ho. apply Ho.
        apply (removeAt_incl currentIndex (first :: rest)), Hn.
Qed.

(** *** The search ends *)

Lemma lowest_nth (rest : list Node) :
  forall pre currentNode currentIndex,
    nth_error (pre ++ rest) currentIndex = Some currentNode ->
    let r := lowest currentNode currentIndex rest (List.length pre) in
    nth_error (pre ++ rest) (snd r) = Some (fst r).
Proof.
  induction rest as [|node rest IH]; intros pre currentNode currentIndex Hc;
    cbn [lowest]; [exact Hc|].
  cbn zeta.
  replace (pre ++ node :: rest) with ((pre ++ [node]) ++ rest) in *
    by (rewrite <- app_assoc; reflexivity).
  replace (S (List.length pre)) with (List.length (pre ++ [node]))
    by (rewrite length_app; cbn; lia).
  destruct (nodeF node <? nodeF currentNode).
  - apply IH. rewrite <- app_assoc. cbn [app].
    rewrite nth_error_app2 by lia. rewrite Nat.sub_diag. reflexivity.
  - apply IH. exact Hc.
Qed.

Lemma removeAt_map {A B : Type} (f : A -> B) (index : nat) (l : list A) :
  map f (removeAt index l) = removeAt index (map f l).
Proof.
  revert index. induction l as [|a l IH]; intros [|index]; cbn;
    try reflexivity. rewrite IH. reflexivity.
Qed.

Lemma removeAt_NoDup {A : Type} (index : nat) (l : list A) (a : A) :
  NoDup l -> nth_error l index = Some a ->
  NoDup (removeAt index l) /\ ~ In a (removeAt index l).
Proof.
  revert index. induction l as [|b l IH]; intros index Hnd Hnth.
  - destruct index; discriminate Hnth.
  - inversion Hnd as [|? ? Hb Hl]; subst.
    destruct index as [|index]; cbn in Hnth |- *.
    + injection Hnth as ->. split; assumption.
    + destruct (IH index Hl Hnth) as [H1 H2]. split.
      * constructor; [|exact H1].
        intros Hin. apply Hb. apply (removeAt_incl index l), Hin.
      * intros [->|Hin]; [|exact (H2 Hin)].
        apply Hb. eapply nth_error_In, Hnth.
Qed.

Lemma improve_positions (p : Position) (tentativeG : Z) (currentNode : Node)
      (openSet : list Node) :
  map position (improve p tentativeG currentNode openSet)
  = map position openSet.
Proof.
  induction openSet as [|node rest IH]; [reflexivity|].
  cbn [improve]. destruct (isAt p node); cbn [map].
  - reflexivity.
  - rewrite IH. reflexivity.
Qed.

Lemma find_isAt_none (p : Position) (openSet : list Node) :
  find (isAt p) openSet = None -> ~ In p (map position openSet).
Proof.
  intros Hf Hin. apply in_map_iff in Hin. destruct Hin as [n [Hn Hin]].
  apply (find_none _ _ Hf) in Hin. apply isAt_position in Hn. congruence.
Qed.

(** What exploring a neighbour does to the positions in the open set:
    nothing, or the neighbour is added at the end, being new, walkable and
    not closed. *)
Lemma explore_positions (goal : Position) (closedSet : list Position)
      (currentNode : Node) (openSet : list Node) (p : Position) :
  let openSet' := explore goal closedSet currentNode openSet p in
  map position openSet' = map position openSet
  \/ (map position openSet' = map position openSet ++ [p]
      /\ ~ In p (map position openSet) /\ ~ In p closedSet).
Proof.
  cbn zeta. unfold explore.
  destruct (has closedSet p) eqn:Hc; [left; reflexivity|].
  destruct (find (isAt p) openSet) as [existing|] eqn:Hf.
  - left. destruct (_ <? _); [apply improve_positions|reflexivity].
  - right. rewrite map_app. cbn [map]. unfold position at 2.
    cbn [nodeX nodeY]. destruct p as [px py]. cbn [x y].
    split; [reflexivity|]. split; [apply find_isAt_none, Hf|].
    intros Hin. apply has_In in Hin. congruence.
Qed.

Lemma tidy_positions pf (openSet openSet' : list Node)
      (closedSet : list Position) :
  map position openSet' = map position openSet ->
  tidy pf openSet closedSet -> tidy pf openSet' closedSet.
Proof.
  intros Hmap [H1 [H2 [H3 H4]]]. unfold tidy. rewrite Hmap.
  split; [exact H1|]. split; [|split; assumption].
  intros n Hn. apply (in_map position) in Hn. rewrite Hmap in Hn.
  apply in_map_iff in Hn. destruct Hn as [m [Hm Hin]].
  rewrite <- Hm. apply H2, Hin.
Qed.

Lemma explore_tidy pf (goal : Position) (closedSet : list Position)
      (currentNode : Node) (openSet : list Node) (p : Position) :
  walkable pf p -> tidy pf openSet closedSet ->
  tidy pf (explore goal closedSet currentNode openSet p) closedSet.
Proof.
  intros Hw Ht.
  destruct (explore_positions goal closedSet currentNode openSet p)
    as [Hsame|[Hnew [Hfresh Hopen]]].
  - exact (tidy_positions pf _ _ _ Hsame Ht).
  - destruct Ht as [H1 [H2 [H3 H4]]]. unfold tidy. rewrite Hnew.
    split; [|split; [|split; assumption]].
    + apply NoDup_app; [exact H1|repeat constructor; intros []|].
      intros q Hq [<-|[]]. exact (Hfresh Hq).
    + intros n Hn. apply (in_map position) in Hn. rewrite Hnew in Hn.
      apply in_app_or in Hn. destruct Hn as [Hn|[<-|[]]].
      * apply in_map_iff in Hn. destruct Hn as [m [Hm Hin]].
        rewrite <- Hm. apply H2, Hin.
      * split; assumption.
Qed.

Lemma explore_all_tidy pf (goal : Position) (closedSet : list Position)
      (currentNode : Node) (neighbors : list Position) :
  Forall (walkable pf) neighbors ->
  forall openSet,
    tidy pf openSet closedSet ->
    tidy pf (fold_left (explore goal closedSet currentNode) neighbors openSet)
         closedSet.
Proof.
  induction 1 as [|p ps Hp _ IH]; intros openSet Ht; [exact Ht|].
  cbn [fold_left]. apply IH. apply explore_tidy; assumption.
Qed.

(** Taking the chosen node out of the open set and closing its cell. *)
Lemma close_tidy pf (openSet : list Node) (closedSet : list Position)
      (currentNode : Node) (currentIndex : nat) :
  tidy pf openSet closedSet ->
  nth_error openSet currentIndex = Some currentNode ->
  add (position currentNode) closedSet = closedSet ++ [position currentNode]
  /\ tidy pf (removeAt currentIndex openSet)
          (closedSet ++ [position currentNode]).
Proof.
  intros [H1 [H2 [H3 H4]]] Hnth.
  pose proof (nth_error_In _ _ Hnth) as Hin.
  destruct (H2 _ Hin) as [Hw Hnc].
  split.
  - unfold add. destruct (has closedSet (position currentNode)) eqn:Hh;
      [|reflexivity].
    apply has_In in Hh. contradiction.
  - assert (Hnth' : nth_error (map position openSet) currentIndex
                    = Some (position currentNode))
      by (rewrite nth_error_map, Hnth; reflexivity).
    destruct (removeAt_NoDup currentIndex _ _ H1 Hnth') as [Hnd Hout].
    rewrite <- removeAt_map in Hnd, Hout.
    split; [exact Hnd|]. split; [|split].
    + intros n Hn. pose proof (removeAt_incl currentIndex openSet n Hn) as Hn'.
      destruct (H2 n Hn') as [Hwn Hcn]. split; [exact Hwn|].
      intros Hc. apply in_app_or in Hc. destruct Hc as [Hc|[Hc|[]]];
        [exact (Hcn Hc)|].
      apply Hout. rewrite Hc. apply in_map, Hn.
    + apply NoDup_app; [exact H3|repeat constructor; intros []|].
      intros q Hq [<-|[]]. exact (Hnc Hq).
    + intros q Hq. apply in_app_or in Hq. destruct Hq as [Hq|[<-|[]]];
        [apply H4, Hq|exact Hw].
Qed.

Lemma walkable_cell pf (p : Position) : walkable pf p -> In p (cells pf).
Proof.
  unfold walkable, isValidPosition, cells. intros H.
  repeat (apply andb_prop in H; destruct H as [H ?]).
  repeat match goal with
         | H : (_ <=? _) = true |- _ => apply Z.leb_le in H
         | H : (_ <? _) = true |- _ => apply Z.ltb_lt in H
         end.
  apply in_map_iff. exists (Z.to_nat (x p), Z.to_nat (y p)). split.
  - cbn [fst snd]. rewrite !Z2Nat.id by lia. destruct p; reflexivity.
  - apply in_prod; apply in_seq; lia.
Qed.

Lemma cells_count pf :
  (List.length (cells pf) <= Z.to_nat (rows pf * cols pf))%nat.
Proof.
  unfold cells. rewrite length_map, length_prod, !length_seq.
  destruct (Z.le_gt_cases (rows pf) 0) as [Hr|Hr].
  - replace (Z.to_nat (rows pf)) with O by lia. lia.
  - destruct (Z.le_gt_cases (cols pf) 0) as [Hc|Hc].
    + replace (Z.to_nat (cols pf)) with O by lia. lia.
    + rewrite Z2Nat.inj_mul by lia. lia.
Qed.

Lemma closed_count pf (openSet : list Node) (closedSet : list Position) :
  tidy pf openSet closedSet ->
  (List.length closedSet <= List.length (cells pf))%nat.
Proof.
  intros [_ [_ [H3 H4]]]. apply NoDup_incl_length; [exact H3|].
  intros p Hp. apply walkable_cell, H4, Hp.
Qed.

Lemma search_ends pf (goal : Position) (fuel : nat) :
  forall openSet closedSet,
    tidy pf openSet closedSet ->
    (List.length (cells pf) - List.length closedSet < fuel)%nat ->
    exists r, search pf goal fuel openSet closedSet = Some r.
Proof.
  induction fuel as [|fuel IH]; intros openSet closedSet Ht Hfuel; [lia|].
  cbn [search]. destruct openSet as [|first rest]; [eexists; reflexivity|].
  pose proof (lowest_nth rest [first] first O eq_refl) as Hnth.
  cbn zeta in Hnth. cbn [List.length app] in Hnth.
  destruct (lowest first 0 rest 1) as [currentNode currentIndex].
  cbn [fst snd] in Hnth.
  destruct (close_tidy pf _ _ _ _ Ht Hnth) as [Hadd Ht'].
  fold (position currentNode). rewrite Hadd.
  destruct (_ && _); [eexists; reflexivity|].
  apply IH.
  - apply explore_all_tidy; [|exact Ht'].
    apply Forall_forall. intros p Hp.
    apply (getNeighbors_spec pf currentNode p Hp).
  - pose proof (closed_count pf _ _ Ht') as Hc.
    rewrite length_app in Hc |- *. cbn [List.length] in Hc |- *. lia.
Qed.

Lemma search_message pf (goal : Position) (fuel : nat) :
  forall openSet closedSet r,
    search pf goal fuel openSet closedSet = Some r ->
    (success r = true /\ message r = PathFound)
    \/ (success r = false /\ message r = NoPathFound).
Proof.
  induction fuel as [|fuel IH]; intros openSet closedSet r; cbn [search];
    [discriminate|].
  destruct openSet as [|first rest].
  - intros H. injection H as <-. right. split; reflexivity.
  - destruct (lowest first 0 rest 1) as [currentNode currentIndex].
    destruct (_ && _); [|apply IH].
    intros H. injection H as <-. left. split; reflexivity.
Qed.

(** findPath has enough fuel: it always returns. *)
Lemma findPath_returns pf (start goal : Position) :
  exists r, findPath pf start goal = Some r.
Proof.
  unfold findPath.
  destruct (isValidPosition pf (x start) (y start)) eqn:Hs; cbn [negb];
    [|eexists; reflexivity].
  destruct (isValidPosition pf (x goal) (y goal)) eqn:Hg; cbn [negb];
    [|eexists; reflexivity].
  set (startNode := mkNode (x start) (y start) 0 (heuristic start goal)
                           (0 + heuristic start goal) None).
  assert (Htidy : tidy pf [startNode] []).
  { unfold tidy. cbn. repeat split.
    - repeat constructor. intros [].
    - destruct H as [<-|[]]. destruct start; exact Hs.
    - destruct H as [<-|[]]. intros [].
    - constructor.
    - intros p []. }
  apply (search_ends pf goal (S (Z.to_nat (rows pf * cols pf)))
           [startNode] [] Htidy).
  pose proof (cells_count pf). cbn [List.length]. lia.
Qed.

(** What the four messages of findPath stand for. *)
Lemma findPath_meaning pf (start goal : Position) (r : PathfindingResult) :
  findPath pf start goal = Some r ->
  match message r with
  | InvalidStart =>
      ~ walkable pf start /\ success r = false /\ path r = []
  | InvalidGoal =>
      walkable pf start /\ ~ walkable pf goal
      /\ success r = false /\ path r = []
  | PathFound =>
      success r = true /\ walk pf start goal (path r)
  | NoPathFound =>
      walkable pf start /\ walkable pf goal
      /\ success r = false /\ path r = []
  | _ => False
  end.
Proof.
  unfold findPath, walkable.
  destruct (isValidPosition pf (x start) (y start)) eqn:Hs; cbn [negb].
  2:{ intros H. injection H as <-. cbn. repeat split. discriminate. }
  destruct (isValidPosition pf (x goal) (y goal)) eqn:Hg; cbn [negb].
  2:{ intros H. injection H as <-. cbn. repeat split. discriminate. }
  set (startNode := mkNode (x start) (y start) 0 (heuristic start goal)
                           (0 + heuristic start goal) None).
  intros Hr.
  assert (Hroot : rooted pf start startNode).
  { cbn. split; [exact Hs|]. destruct start; reflexivity. }
  pose proof (search_sound pf start goal _ _ _ r
                (Forall_cons _ Hroot (Forall_nil _)) Hr) as Hsound.
  unfold sound in Hsound.
  destruct (search_message pf goal _ _ _ r Hr) as [[Hok Hm]|[Hno Hm]];
    rewrite Hm.
  - rewrite Hok in Hsound. split; [exact Hok|exact Hsound].
  - rewrite Hno in Hsound. repeat split; assumption.
Qed.

(** X20.  findPath always returns, and what it returns is one of four
    things: "Invalid start position" or "Invalid goal position" with no
    path when the start, or else the goal, is off the grid or not walkable;
    "Path found successfully" with a path that starts at the start, ends at
    the goal, goes from cell to adjacent cell and stays on walkable cells;
    or "No path found" with no path. *)
Theorem findPath_gives_a_walk pf (start goal : Position) :
  exists r,
    findPath pf start goal = Some r
    /\ match message r with
       | InvalidStart =>
           ~ walkable pf start /\ success r = false /\ path r = []
       | InvalidGoal =>
           walkable pf start /\ ~ walkable pf goal
           /\ success r = false /\ path r = []
       | PathFound =>
           success r = true /\ walk pf start goal (path r)
       | NoPathFound =>
           walkable pf start /\ walkable pf goal
           /\ success r = false /\ path r = []
       | _ => False
       end.
Proof.
  destruct (findPath_returns pf start goal) as [r Hr].
  exists r. split; [exact Hr|exact (findPath_meaning pf start goal r Hr)].
Qed.

(** *** Routes *)

Lemma stepwise_app (l1 l2 : list Position) (a : Position) :
  stepwise (l1 ++ [a]) -> stepwise (a :: l2) -> stepwise (l1 ++ a :: l2).
Proof.
  induction l1 as [|p l1 IH]; intros H1 H2; [exact H2|].
  destruct l1 as [|q l1].
  - cbn in H1 |- *. split; [apply H1|exact H2].
  - cbn [app] in *. cbn [stepwise] in H1 |- *.
    split; [apply H1|]. apply IH; [apply H1|exact H2].
Qed.

Lemma ends_with (l : list Position) (a b : Position) :
  l <> [] -> last l a = b -> exists l1, l = l1 ++ [b].
Proof.
  intros Hne Hl. exists (removelast l).
  rewrite (app_removelast_last a Hne) at 1. rewrite Hl. reflexivity.
Qed.

Lemma last_nonempty {A : Type} (a : A) (l : list A) (d d' : A) :
  last (a :: l) d = last (a :: l) d'.
Proof.
  revert a. induction l as [|b l IH]; intros a; [reflexivity|].
  change (last (b :: l) d = last (b :: l) d'). apply IH.
Qed.

Lemma last_app_cons {A : Type} (l1 : list A) (b : A) (t : list A) (d : A) :
  last (l1 ++ b :: t) d = last (b :: t) d.
Proof.
  induction l1 as [|a l1 IH]; [reflexivity|].
  cbn [app]. destruct (l1 ++ b :: t) eqn:E.
  - destruct l1; discriminate E.
  - rewrite <- E in *. change (last (a :: l1 ++ b :: t) d)
      with (match l1 ++ b :: t with [] => a | _ :: _ => last (l1 ++ b :: t) d end).
    rewrite E. rewrite <- E. exact IH.
Qed.

Lemma walk_starts pf (a b : Position) (l : list Position) :
  walk pf a b l -> l = a :: tl l.
Proof.
  intros [Hh _]. destruct l as [|p l]; [discriminate Hh|].
  cbn in Hh. injection Hh as ->. reflexivity.
Qed.

(** Two walks, the second starting where the first ends, make one. *)
Lemma walk_join pf (a b c : Position) (l1 l2 : list Position) :
  walk pf a b l1 -> walk pf b c l2 -> walk pf a c (l1 ++ slice1 l2).
Proof.
  intros H1 H2. pose proof (walk_starts _ _ _ _ H1) as E1.
  pose proof (walk_starts _ _ _ _ H2) as E2.
  destruct H1 as [Hh1 [Hl1 [Hs1 Hw1]]]. destruct H2 as [Hh2 [Hl2 [Hs2 Hw2]]].
  destruct (ends_with l1 a b) as [l1' El1]; [rewrite E1; discriminate|exact Hl1|].
  unfold slice1. set (t2 := tl l2) in *.
  assert (Hjoin : l1 ++ t2 = l1' ++ b :: t2)
    by (rewrite El1, <- app_assoc; reflexivity).
  repeat split.
  - rewrite E1. reflexivity.
  - rewrite Hjoin, last_app_cons, <- E2, <- Hl2.
    destruct l2; [discriminate E2|]. apply last_nonempty.
  - rewrite Hjoin. apply stepwise_app; [rewrite <- El1; exact Hs1|].
    rewrite <- E2. exact Hs2.
  - apply Forall_app. split; [exact Hw1|].
    rewrite E2 in Hw2. inversion Hw2. assumption.
Qed.

Lemma findPath_success pf (a b : Position) (r : PathfindingResult) :
  findPath pf a b = Some r -> success r = true -> walk pf a b (path r).
Proof.
  intros Hr Hok. pose proof (findPath_meaning pf a b r Hr) as H.
  destruct (message r); try contradiction;
    try (destruct H as [_ [_ [H _]]]; congruence);
    try (destruct H as [_ [H _]]; congruence).
  apply H.
Qed.

Lemma visit_returns pf (start : Position) (tables : list Position) :
  forall current total visited,
  exists r, visit pf start tables current total visited = Some r.
Proof.
  induction tables as [|t ts IH]; intros current total visited; cbn [visit].
  - destruct (findPath_returns pf current start) as [r Hr].
    rewrite Hr. destruct (negb (success r)); eexists; reflexivity.
  - destruct (findPath_returns pf current t) as [r Hr].
    rewrite Hr. destruct (negb (success r)); [eexists; reflexivity|].
    apply IH.
Qed.

Lemma visit_spec pf (start : Position) (tables : list Position) :
  forall current total visited r,
    visit pf start tables current total visited = Some r ->
    exists ext,
      path r = total ++ ext
      /\ (success r = true ->
          walk pf current start (current :: ext)
          /\ visits tables (current :: ext)
          /\ message r
             = Planned (List.length visited + List.length tables)).
Proof.
  induction tables as [|t ts IH]; intros current total visited r;
    cbn [visit].
  - destruct (findPath pf current start) as [back|] eqn:Hb; [|discriminate].
    destruct (success back) eqn:Hok; cbn [negb]; intros H; injection H as <-.
    + exists (slice1 (path back)). split; [reflexivity|]. intros _.
      pose proof (findPath_success _ _ _ _ Hb Hok) as Hw.
      unfold slice1. rewrite <- (walk_starts _ _ _ _ Hw).
      split; [exact Hw|]. split; [exact I|].
      cbn. rewrite Nat.add_0_r. reflexivity.
    + exists []. rewrite app_nil_r. split; [reflexivity|]. discriminate.
  - destruct (findPath pf current t) as [leg|] eqn:Hl; [|discriminate].
    destruct (success leg) eqn:Hok; cbn [negb].
    2:{ intros H. injection H as <-. exists []. rewrite app_nil_r.
        split; [reflexivity|]. discriminate. }
    intros Hv. destruct (IH _ _ _ _ Hv) as [ext [Hpath Hrest]].
    exists (slice1 (path leg) ++ ext). split.
    + rewrite Hpath, app_assoc. reflexivity.
    + intros Hs. destruct (Hrest Hs) as [Hw [Hvis Hm]].
      pose proof (findPath_success _ _ _ _ Hl Hok) as Hleg.
      pose proof (walk_starts _ _ _ _ Hleg) as Eleg.
      pose proof (walk_starts _ _ _ _ Hw) as Ew. cbn [tl] in Ew.
      pose proof (walk_join _ _ _ _ _ _ Hleg Hw) as Hjoin.
      unfold slice1 in *. cbn [tl] in Hjoin.
      rewrite Eleg in Hjoin. cbn [app] in Hjoin.
      split; [exact Hjoin|]. split.
      * destruct Hleg as [_ [Hlast _]].
        destruct (ends_with (path leg) current t) as [l1 El];
          [rewrite Eleg; discriminate|exact Hlast|].
        exists l1, ext. split; [|exact Hvis].
        change (current :: tl (path leg) ++ ext)
          with ((current :: tl (path leg)) ++ ext).
        rewrite <- Eleg, El, <- app_assoc. reflexivity.
      * rewrite Hm, length_app. cbn [List.length]. f_equal. lia.
Qed.

(** X21.  findDeliveryRoute always returns a route that starts at the
    start.  With no table it is the start alone; otherwise, when it
    succeeds, the route is a walk over walkable cells that comes back to the
    start and passes the tables in the order given, and the message counts
    the tables. *)
Theorem findDeliveryRoute_plans_a_tour pf (start : Position)
        (tables : list Position) :
  exists r,
    findDeliveryRoute pf start tables = Some r
    /\ hd_error (path r) = Some start
    /\ (tables = [] -> r = mkPathfindingResult [start] true NoTables)
    /\ (tables <> [] -> success r = true ->
        walk pf start start (path r)
        /\ visits tables (path r)
        /\ message r = Planned (List.length tables)).
Proof.
  unfold findDeliveryRoute. destruct tables as [|t ts].
  - eexists. split; [reflexivity|]. split; [reflexivity|].
    split; [reflexivity|]. intros H. contradiction.
  - destruct (visit_returns pf start (t :: ts) start [start] []) as [r Hr].
    exists r. split; [exact Hr|].
    destruct (visit_spec pf start (t :: ts) start [start] [] r Hr)
      as [ext [Hpath Hok]].
    split; [rewrite Hpath; reflexivity|]. split; [discriminate|].
    intros _ Hs. rewrite Hpath. exact (Hok Hs).
Qed.

(** *** The restaurant *)

(** No walk is shorter than the Manhattan distance between its ends. *)
Lemma walk_length (l : list Position) :
  forall a b,
    hd_error l = Some a -> last l a = b -> stepwise l ->
    heuristic a b + 1 <= Z.of_nat (List.length l).
Proof.
  induction l as [|p l IH]; intros a b Hh Hl Hs; [discriminate Hh|].
  cbn in Hh. injection Hh as ->.
  destruct l as [|q l].
  - cbn in Hl. subst b. unfold heuristic. cbn. lia.
  - cbn [stepwise] in Hs. destruct Hs as [Hadj Hs].
    assert (Hl' : last (q :: l) q = b).
    { change (last (a :: q :: l) a) with (last (q :: l) a) in Hl.
      rewrite <- Hl. apply last_nonempty. }
    specialize (IH q b eq_refl Hl' Hs).
    unfold adjacent in Hadj. unfold heuristic in *.
    cbn [List.length] in *. lia.
Qed.

Lemma restaurant_direct :
  forallb (fun a => forallb (direct pathfinder a) (cells pathfinder))
          (cells pathfinder) = true.
Proof. vm_compute. reflexivity. Qed.

(** On the restaurant map findPath succeeds between walkable cells, with
    as many cells as the distance asks for. *)
Lemma restaurant_connected (a b : Position) :
  walkable pathfinder a -> walkable pathfinder b ->
  exists r,
    findPath pathfinder a b = Some r
    /\ success r = true
    /\ Z.of_nat (List.length (path r)) = heuristic a b + 1.
Proof.
  intros Ha Hb.
  pose proof restaurant_direct as Hall.
  rewrite forallb_forall in Hall.
  specialize (Hall a (walkable_cell _ _ Ha)).
  rewrite forallb_forall in Hall.
  specialize (Hall b (walkable_cell _ _ Hb)).
  unfold direct in Hall. unfold walkable in Ha, Hb.
  rewrite Ha, Hb in Hall. cbn [negb orb] in Hall.
  destruct (findPath pathfinder a b) as [r|] eqn:Hr; [|discriminate Hall].
  apply andb_prop in Hall. destruct Hall as [Hok Hlen].
  apply Z.eqb_eq in Hlen.
  exists r. split; [reflexivity|]. split; [exact Hok|exact Hlen].
Qed.

(** X22.  On the restaurant map findPath finds a path between any two
    walkable cells, and a shortest one: its length is the Manhattan
    distance of the two cells plus one, and no walk between them has fewer
    cells. *)
Theorem restaurant_paths_are_shortest (a b : Position) :
  walkable pathfinder a -> walkable pathfinder b ->
  exists r,
    findPath pathfinder a b = Some r
    /\ success r = true
    /\ walk pathfinder a b (path r)
    /\ Z.of_nat (List.length (path r)) = heuristic a b + 1
    /\ forall l, walk pathfinder a b l ->
                 (List.length (path r) <= List.length l)%nat.
Proof.
  intros Ha Hb.
  destruct (restaurant_connected a b Ha Hb) as [r [Hr [Hok Hlen]]].
  exists r. split; [exact Hr|]. split; [exact Hok|].
  split; [exact (findPath_success _ _ _ _ Hr Hok)|].
  split; [exact Hlen|].
  intros l [Hh [Hl [Hs _]]].
  pose proof (walk_length l a b Hh Hl Hs). lia.
Qed.

Lemma restaurant_paths_are_shortest_witness :
  exists r,
    findPath pathfinder ROBOT_START_POSITION (TABLE_POSITIONS T1) = Some r
    /\ success r = true
    /\ Z.of_nat (List.length (path r)) = 6.
Proof.
  destruct (restaurant_paths_are_shortest ROBOT_START_POSITION
              (TABLE_POSITIONS T1))
    as [r [Hr [Hok [_ [Hlen _]]]]]; try reflexivity.
  exists r. split; [exact Hr|]. split; [exact Hok|exact Hlen].
Defined.

Lemma table_walkable (t : Table) : walkable pathfinder (TABLE_POSITIONS t).
Proof. destruct t; reflexivity. Qed.

Lemma visit_succeeds (tables : list Position) :
  Forall (walkable pathfinder) tables ->
  forall current total visited r,
    walkable pathfinder current ->
    visit pathfinder ROBOT_START_POSITION tables current total visited
    = Some r ->
    success r = true.
Proof.
  induction 1 as [|t ts Ht _ IH]; intros current total visited r Hc;
    cbn [visit].
  - destruct (restaurant_connected current ROBOT_START_POSITION Hc
                eq_refl) as [back [Hb [Hok _]]].
    rewrite Hb, Hok. cbn [negb]. intros H. injection H as <-. reflexivity.
  - destruct (restaurant_connected current t Hc Ht)
      as [leg [Hl [Hok _]]].
    rewrite Hl, Hok. cbn [negb]. apply IH, Ht.
Qed.

(** For any selection the route is planned on the restaurant map. *)
Lemma route_planned (selectedTables : list Table) :
  exists r,
    findDeliveryRoute pathfinder ROBOT_START_POSITION
                      (map TABLE_POSITIONS selectedTables) = Some r
    /\ success r = true
    /\ hd_error (path r) = Some ROBOT_START_POSITION
    /\ (selectedTables = [] -> path r = [ROBOT_START_POSITION])
    /\ (selectedTables <> [] ->
        walk pathfinder ROBOT_START_POSITION ROBOT_START_POSITION (path r)
        /\ visits (map TABLE_POSITIONS selectedTables) (path r)).
Proof.
  unfold findDeliveryRoute. destruct selectedTables as [|t ts]; cbn [map].
  - eexists. split; [reflexivity|]. split; [reflexivity|].
    split; [reflexivity|]. split; [reflexivity|]. intros H. contradiction.
  - set (tables := TABLE_POSITIONS t :: map TABLE_POSITIONS ts).
    destruct (visit_returns pathfinder ROBOT_START_POSITION tables
                ROBOT_START_POSITION [ROBOT_START_POSITION] []) as [r Hr].
    exists r. split; [exact Hr|].
    assert (Hok : success r = true).
    { apply (visit_succeeds tables) in Hr; [exact Hr| |reflexivity].
      constructor; [apply table_walkable|].
      apply Forall_forall. intros p Hp. apply in_map_iff in Hp.
      destruct Hp as [t' [<- _]]. apply table_walkable. }
    destruct (visit_spec pathfinder ROBOT_START_POSITION tables
                ROBOT_START_POSITION [ROBOT_START_POSITION] [] r Hr)
      as [ext [Hpath Hw]].
    split; [exact Hok|]. split; [rewrite Hpath; reflexivity|].
    split; [discriminate|]. intros _. rewrite Hpath.
    destruct (Hw Hok) as [Hwalk [Hvisits _]]. split; assumption.
Qed.

(** The route startDelivery sets out on goes step by step back to the
    start cell. *)
Lemma startDelivery_route (selectedTables : list Table) (c : Component) :
  exists route,
    startDelivery selectedTables c
    = Some (mkComponent
              (mkDeliveryState route 0 ROBOT_START_POSITION Up true None
                               false moving)
              0 (isMovingRef c) (isMountedRef c) (arduinoConnected c))
    /\ hd_error route = Some ROBOT_START_POSITION
    /\ stepwise route
    /\ last route ROBOT_START_POSITION = ROBOT_START_POSITION.
Proof.
  unfold startDelivery.
  destruct (route_planned selectedTables) as [r [Hr [Hok [Hh [Hnil Hcons]]]]].
  rewrite Hr, Hok. exists (path r). split; [reflexivity|].
  split; [exact Hh|].
  destruct selectedTables as [|t ts].
  - rewrite (Hnil eq_refl). split; reflexivity.
  - destruct Hcons as [[_ [Hlast [Hs _]]] _]; [discriminate|].
    split; assumption.
Qed.

(** X23.  startDelivery never fails: whatever tables are selected, in
    whatever order and however often, a route is planned on the restaurant
    map.  The component starts on the start cell facing up at step 0 with
    nothing completed, and, for at least one table, its path is a walk over
    walkable cells from the start cell back to it that passes the stops of
    the selected tables in the order selected. *)
Theorem every_delivery_can_be_planned (selectedTables : list Table)
        (c : Component) :
  exists route,
    startDelivery selectedTables c
    = Some (mkComponent
              (mkDeliveryState route 0 ROBOT_START_POSITION Up true None
                               false moving)
              0 (isMovingRef c) (isMountedRef c) (arduinoConnected c))
    /\ hd_error route = Some ROBOT_START_POSITION
    /\ (selectedTables <> [] ->
        walk pathfinder ROBOT_START_POSITION ROBOT_START_POSITION route
        /\ visits (map TABLE_POSITIONS selectedTables) route).
Proof.
  unfold startDelivery.
  destruct (route_planned selectedTables) as [r [Hr [Hok [Hh [_ Hcons]]]]].
  rewrite Hr, Hok. exists (path r). split; [reflexivity|].
  split; [exact Hh|exact Hcons].
Qed.

End RouteProofs.

(** * Commands at the edges *)

Module EdgeProofs.
Import Firmware MotionProofs.

Lemma publishObstacle_latch (s : Scan) (d : Device) :
  latch (state_of (publishObstacle s d)) = cycle (latch d) (medians s).
Proof.
  unfold publishObstacle. rewrite bind_state, bind_read.
  rewrite <- (proj1 (LatchProofs.checkForObstacles_cycle s d)).
  destruct (negb _); reflexivity.
Qed.

Lemma moveTimeMs_zero (q : Float32.float) :
  Float32.isZero q = true -> moveTimeMs q = 0.
Proof.
  intros H. destruct q as [s|s| |s m e]; try discriminate H.
  destruct s; reflexivity.
Qed.

Lemma wrap32_nonneg (z : Z) : 0 <= wrap32 z.
Proof. unfold wrap32. apply Z.mod_pos_bound. reflexivity. Qed.

(** X24.  A MOVE_DISTANCE line whose argument toFloat reads as zero (no
    number at all, a zero, or a number too small for a float) is accepted
    by an idle device as a move of no length: unless the obstacle latch is
    on at the check, the same pass of [loop] reports it complete and leaves
    the device stopped, whatever the clock says. *)
Theorem empty_move_completes_at_once (arg line : string) (t : Tick)
        (d : Device) :
  rx t = Some line ->
  toUpperCase (trim line) = ("MOVE_DISTANCE:" ++ arg)%string ->
  Float32.isZero (toFloat arg) = true ->
  isMoving (motion d) = false ->
  obstacleLatched
    (cycle (cycle (latch d) (medians (loop_scan t))) (medians (check_scan t)))
  = false ->
  let r := loop t d in
  In (MovingInches (toFloat arg) 0) (output_of r)
  /\ In (DistanceComplete (toFloat arg)) (output_of r)
  /\ completions (output_of r) = 1%nat
  /\ stoppedState (state_of r).
Proof.
  intros Hrx Hline Hzero Hidle Hclear. cbn zeta.
  unfold loop. rewrite Hrx. cbn [UTS_ENABLED when].
  destruct (publishObstacle_frame (loop_scan t) d) as [Hm [Hp [_ Ho]]].
  pose proof (publishObstacle_latch (loop_scan t) d) as Hl.
  rewrite !bind_output, !bind_state.
  set (d1 := state_of (publishObstacle (loop_scan t) d)) in *.
  set (o1 := output_of (publishObstacle (loop_scan t) d)) in *.
  assert (Hidle1 : isMoving (motion d1) = false) by (rewrite Hm; exact Hidle).
  set (q := toFloat arg) in *.
  assert (Hrecv : receive line t d1
                  = (let '(u, d', o) := moveDistance q (cmd_millis t) d1 in
                     (u, d', Received ("MOVE_DISTANCE:" ++ arg) :: o))).
  { rewrite CommandProofs.receive_dispatch, Hline. unfold dispatch.
    rewrite (WireProofs.startsWith_app "MOVE_DISTANCE:" arg).
    pose proof (WireProofs.substringFrom_app "MOVE_DISTANCE:" arg) as Hsub.
    cbn [String.length] in Hsub. rewrite Hsub. reflexivity. }
  rewrite Hrecv. clear Hrecv.
  assert (Hacc : moveDistance q (cmd_millis t) d1
                 = (tt,
                    state_of (moveDistance q (cmd_millis t) d1),
                    [MovingInches q (moveTimeMs q)])
                   /\ movingState q (cmd_millis t)
                        (state_of (moveDistance q (cmd_millis t) d1))
                   /\ latch (state_of (moveDistance q (cmd_millis t) d1))
                      = latch d1).
  { unfold moveDistance. rewrite bind_read, Hidle1.
    split; [reflexivity|]. split; [repeat split|reflexivity]. }
  destruct Hacc as [Hmove [Hstate Hlatch]]. rewrite Hmove.
  set (d2 := state_of (moveDistance q (cmd_millis t) d1)) in *.
  pose proof Hstate as [Hmv [Hpr _]].
  pose proof (move_check (check_millis t) (check_scan t) (check_accel t)
                q (cmd_millis t) d2 Hstate) as Hcheck.
  cbn zeta in Hcheck. rewrite Hlatch, Hl, Hclear in Hcheck.
  rewrite (moveTimeMs_zero q Hzero) in Hcheck |- *.
  destruct (Z.ltb_spec (wrap32 (check_millis t - cmd_millis t)) 0) as [Hneg|_].
  { pose proof (wrap32_nonneg (check_millis t - cmd_millis t)). lia. }
  destruct Hcheck as [Hc [Hin Hstop]].
  destruct (sensorLine_not_completion _ Ho) as [Hz1 _].
  clearbody d2 d1 o1.
  change (state_of (tt, d2, ?o)) with d2.
  change (output_of (tt, d2, ?o)) with o.
  unfold read. change (state_of (?a, d2, ?o)) with d2.
  change (output_of (?a, d2, ?o)) with o.
  cbn [fst snd app]. rewrite Hmv, Hpr. cbn [andb when].
  split; [apply in_or_app; right; right; left; reflexivity|].
  split; [apply in_or_app; right; right; right; exact Hin|].
  split; [|exact Hstop].
  rewrite completions_app, Hz1.
  change (completions (Received ?c :: MovingInches ?a ?b :: ?o))
    with (completions o).
  exact Hc.
Qed.

Lemma empty_move_completes_at_once_witness :
  let r := loop (pass 0 (Some "move_distance:abc") 5) booted in
  In (MovingInches Float32.zero 0) (output_of r)
  /\ In (DistanceComplete Float32.zero) (output_of r)
  /\ completions (output_of r) = 1%nat
  /\ stoppedState (state_of r).
Proof.
  apply (empty_move_completes_at_once "ABC" "move_distance:abc"
           (pass 0 (Some "move_distance:abc") 5) booted);
    vm_compute; reflexivity.
Defined.

(** X25.  The table lights, from the host's call to the LED pin: on an
    open link tableArrived(n) and tableReceived(n), for n from 1 to 3, each
    write one line; the sketch answers the first by switching the LED of
    table n on and the second by switching it off again, in whatever state
    the device is (the commands are never blocked), and neither touches the
    motion state, the latch, the motor pins or the other two LEDs. *)
Theorem table_light_follows_the_host
        (n after : Z) (c : Host.Controller) (t : Tick) (d : Device) :
  1 <= n <= 3 -> Host.port c = true -> Host.isConnected c = true ->
  exists on off,
    snd (Host.tableArrived n (Host.WriteCallback after false) c) = [on]
    /\ snd (Host.tableReceived n (Host.WriteCallback after false) c) = [off]
    /\ let r1 := receive on t d in
       let r2 := receive off t (state_of r1) in
       In (TableLight n true) (output_of r1)
       /\ In (TableLight n false) (output_of r2)
       /\ ~ In Blocked (output_of r1 ++ output_of r2)
       /\ pins (state_of r1) = set_led n true (pins d)
       /\ pins (state_of r2) = set_led n false (pins d)
       /\ motion (state_of r2) = motion d
       /\ latch (state_of r2) = latch d.
Proof.
  intros Hn Hport Hconn.
  assert (Hcases : n = 1 \/ n = 2 \/ n = 3) by lia.
  unfold Host.tableArrived, Host.tableReceived, Host.afterAwait.
  destruct Hcases as [-> | [-> | ->]]; cbn [Z.ltb Z.gtb Z.compare Pos.compare
    Pos.compare_cont orb];
    rewrite !WireProofs.sent_line by assumption;
    repeat match goal with
           | |- context [Host.settled ?r] => destruct (Host.settled r)
           end; cbn [snd];
    (eexists; eexists; split; [reflexivity|]; split; [reflexivity|]);
    cbn zeta; rewrite !CommandProofs.receive_dispatch;
    match goal with
    | |- context [dispatch (toUpperCase (trim ?s)) t d] =>
        let v := eval vm_compute in (toUpperCase (trim s)) in
        change (toUpperCase (trim s)) with v
    end;
    match goal with
    | |- context [dispatch ?c1 t d] =>
        match c1 with
        | "TABLE1_ARRIVED" => change (dispatch c1 t d) with (tableArrived 1 d)
        | "TABLE2_ARRIVED" => change (dispatch c1 t d) with (tableArrived 2 d)
        | "TABLE3_ARRIVED" => change (dispatch c1 t d) with (tableArrived 3 d)
        end
    end;
    unfold tableArrived; cbn [hasLed Z.eqb orb when Pos.eqb];
    unfold bind, modify, println, state_of, output_of; cbn [fst snd app];
    match goal with
    | |- context [dispatch (toUpperCase (trim ?s)) t ?d1] =>
        let v := eval vm_compute in (toUpperCase (trim s)) in
        change (toUpperCase (trim s)) with v
    end;
    match goal with
    | |- context [dispatch ?c1 t ?d1] =>
        match c1 with
        | "TABLE1_RECEIVED" =>
            change (dispatch c1 t d1) with (tableReceived 1 d1)
        | "TABLE2_RECEIVED" =>
            change (dispatch c1 t d1) with (tableReceived 2 d1)
        | "TABLE3_RECEIVED" =>
            change (dispatch c1 t d1) with (tableReceived 3 d1)
        end
    end;
    unfold tableReceived; cbn [hasLed Z.eqb orb when Pos.eqb];
    unfold bind, modify, println; cbn [fst snd app];
    (split; [right; left; reflexivity|]);
    (split; [right; left; reflexivity|]);
    (split; [intros [H|[H|[H|[H|[]]]]]; discriminate H|]);
    repeat split.
Qed.

Lemma table_light_follows_the_host_witness :
  exists on off,
    snd (Host.tableArrived 2 (Host.WriteCallback 3 false)
           (Host.mkController true true Host.initialPosition)) = [on]
    /\ snd (Host.tableReceived 2 (Host.WriteCallback 3 false)
              (Host.mkController true true Host.initialPosition)) = [off]
    /\ TABLE2_LED_PIN (pins (state_of (receive on (pass 0 None 0) booted)))
       = true
    /\ TABLE2_LED_PIN
         (pins (state_of (receive off (pass 0 None 0)
                            (state_of (receive on (pass 0 None 0) booted)))))
       = false.
Proof.
  destruct (table_light_follows_the_host 2 3
              (Host.mkController true true Host.initialPosition)
              (pass 0 None 0) booted)
    as [on [off [Hon [Hoff [_ [_ [_ [H1 [H2 _]]]]]]]]];
    try reflexivity; [lia|].
  exists on, off. split; [exact Hon|]. split; [exact Hoff|].
  cbn zeta in H1, H2. rewrite H1, H2. split; reflexivity.
Defined.

End EdgeProofs.

(** ** Deliveries from start to end *)

Module DeliveryProofs.
Import Planner Pathfinder.

(** X26.  Turning back undoes a turn: for every facing and every angle
    that is a multiple of 90 from -360 to 360, getNewDirection gives a
    facing, and applying the opposite angle to it gives the first facing
    again. *)
Theorem turning_back_restores_the_facing (d : Direction) (angle : Z) :
  angle mod 90 = 0 -> -360 <= angle <= 360 ->
  exists d',
    getNewDirection d angle = Some d'
    /\ getNewDirection d' (- angle) = Some d.
Proof.
  intros Hmod Hrange.
  pose proof (Z.div_mod angle 90 ltac:(lia)) as Hdiv.
  rewrite Hmod, Z.add_0_r in Hdiv.
  assert (Hk : angle = -360 \/ angle = -270 \/ angle = -180 \/ angle = -90
               \/ angle = 0 \/ angle = 90 \/ angle = 180 \/ angle = 270
               \/ angle = 360) by lia.
  destruct Hk as [-> | [-> | [-> | [-> | [-> | [-> | [-> | [-> | ->]]]]]]]];
    destruct d; eexists; split; reflexivity.
Qed.

Lemma turning_back_restores_the_facing_witness :
  exists d',
    getNewDirection Left (-180) = Some d'
    /\ getNewDirection d' (- -180) = Some Left.
Proof.
  apply (turning_back_restores_the_facing Left (-180)); [reflexivity|lia].
Defined.

(** moveRobot at the end of the path. *)
Lemma moveRobot_at_end (sel : list Table) (comp : Component) :
  isMovingRef comp = false ->
  nth_error (currentPath (deliveryState comp))
            (S (currentStep (deliveryState comp))) = None ->
  moveRobot sel comp
  = ([], if isMountedRef comp
         then withState comp (markComplete (deliveryState comp))
         else comp).
Proof. unfold moveRobot. intros -> ->. reflexivity. Qed.

(** X27.  When moveRobot does nothing: a call made while another is in
    progress returns at once with no call to the robot and the component as
    it was; at the end of the path nothing is sent and the delivery is
    marked complete (if the component is still mounted); a next cell that is
    the robot's own cell sends nothing and changes nothing, so such a step
    would never be passed; and an unmounted component is never changed. *)
Theorem moveRobot_leaves_things_alone (sel : list Table) (comp : Component) :
  let st := deliveryState comp in
  (isMovingRef comp = true -> moveRobot sel comp = ([], comp))
  /\ (isMovingRef comp = false ->
      nth_error (currentPath st) (S (currentStep st)) = None ->
      moveRobot sel comp
      = ([], if isMountedRef comp then withState comp (markComplete st)
             else comp))
  /\ (isMovingRef comp = false ->
      forall nextPos,
        nth_error (currentPath st) (S (currentStep st)) = Some nextPos ->
        x nextPos = x (robotPosition st) ->
        y nextPos = y (robotPosition st) ->
        moveRobot sel comp = ([], comp))
  /\ (isMountedRef comp = false -> snd (moveRobot sel comp) = comp).
Proof.
  cbn zeta. split; [|split; [exact (moveRobot_at_end sel comp)|split]];
    unfold moveRobot.
  - intros ->. reflexivity.
  - intros -> nextPos -> Hx Hy. rewrite Hx, Hy, !Z.sub_diag. reflexivity.
  - intros Hm. rewrite Hm. destruct (isMovingRef comp); [reflexivity|].
    destruct (nth_error _ _); [|reflexivity].
    destruct (getDirectionFromDelta _ _); reflexivity.
Qed.

(** *** A whole delivery *)

Lemma stepwise_nth (l : list Position) :
  forall k p q,
    stepwise l -> nth_error l k = Some p -> nth_error l (S k) = Some q ->
    adjacent p q.
Proof.
  induction l as [|a l IH]; intros k p q Hs Hp Hq.
  - destruct k; discriminate Hp.
  - destruct l as [|b l]; [destruct k; discriminate Hq|].
    cbn [stepwise] in Hs. destruct Hs as [Hab Hs].
    destruct k as [|k].
    + cbn in Hp, Hq. injection Hp as <-. injection Hq as <-. exact Hab.
    + exact (IH k p q Hs Hp Hq).
Qed.

Lemma adjacent_direction (p q : Position) :
  adjacent p q ->
  exists d, getDirectionFromDelta (x q - x p) (y q - y p) = Some d.
Proof.
  unfold adjacent. intros H.
  destruct (SyncProofs.unit_step _ _ H)
    as [[-> ->]|[[-> ->]|[[-> ->]|[-> ->]]]]; eexists; reflexivity.
Qed.

(** Every event keeps the delivery under way and, unless it is complete,
    brings it nearer its end; a complete delivery is left as it is. *)
Lemma nextEvent_progress (sel : list Table) (route : list Position)
      (c : Component) :
  stepwise route -> underway route c ->
  underway route (nextEvent sel c)
  /\ (rank (nextEvent sel c) < rank c
      \/ (rank c = O /\ nextEvent sel c = c))%nat.
Proof.
  intros Hroute [Hpath [Hmounted [Hbusy [Hpos [Hdone Hstatus]]]]].
  unfold nextEvent, autoMove.
  destruct Hstatus
    as [[Hmoving [Hgo Hmodal]]
       |[[Harrived Hdialog]|[Hcomplete [Hhalt [Hmodal Hlast]]]]].
  - rewrite Hmoving, Hgo, Hbusy, Hmounted. cbn [andb negb].
    destruct (nth_error route (S (currentStep (deliveryState c))))
      as [nextPos|] eqn:Hnext.
    + pose proof (stepwise_nth route _ _ _ Hroute Hpos Hnext) as Hadj.
      destruct (adjacent_direction _ _ Hadj) as [targetDir Hdir].
      rewrite <- Hpath in Hnext.
      destruct (SyncProofs.moveRobot_state sel c nextPos targetDir
                  Hbusy Hmounted Hnext Hdir)
        as [Hp' [_ [Hs' [Hpath' [Hdone' [Hbusy' [Hmounted' Hstatus']]]]]]].
      cbn zeta in *.
      set (c' := snd (moveRobot sel c)) in *.
      assert (Hlt : (S (currentStep (deliveryState c))
                     < List.length route)%nat).
      { rewrite <- Hpath. apply nth_error_Some. rewrite Hnext.
        discriminate. }
      split.
      * unfold underway. rewrite Hpath', Hs', Hp', Hdone', Hdone.
        rewrite Hpath in Hnext.
        repeat split; try assumption; try lia.
        destruct Hstatus' as [Ha|[Hsame [Hgo' Hmodal']]];
          [right; left; exact Ha|left; repeat split; congruence].
      * left. unfold rank. rewrite Hpath', Hs', Hpath, Hmoving.
        destruct Hstatus' as [[Ha _]|[Hsame _]].
        -- rewrite Ha. lia.
        -- rewrite Hsame, Hmoving. lia.
    + rewrite <- Hpath in Hnext.
      rewrite (moveRobot_at_end sel c Hbusy Hnext), Hmounted. cbn [snd].
      assert (Hlast : S (currentStep (deliveryState c)) = List.length route).
      { apply nth_error_None in Hnext. rewrite Hpath in Hnext.
        assert (currentStep (deliveryState c) < List.length route)%nat
          by (apply nth_error_Some; rewrite Hpos; discriminate).
        lia. }
      split.
      * unfold underway. cbn. repeat split; try assumption.
        right. right. repeat split; assumption.
      * left. unfold rank. cbn. rewrite Hmoving. lia.
  - rewrite Harrived, Hdialog, andb_false_r. cbn [andb].
    unfold confirmDelivery. rewrite Hmounted. cbn [snd].
    split.
    + unfold underway. cbn. repeat split; try assumption.
      left. repeat split.
    + left. unfold rank. cbn. rewrite Harrived. lia.
  - unfold dialogUp. rewrite Hcomplete, Hmodal, andb_false_r. cbn [andb].
    split.
    + unfold underway. repeat split; try assumption.
      right. right. repeat split; assumption.
    + right. unfold rank. rewrite Hcomplete. split; reflexivity.
Qed.

Lemma events_reach_the_end (sel : list Table) (route : list Position)
      (n : nat) :
  stepwise route ->
  forall c,
    underway route c -> (rank c <= n)%nat ->
    underway route (Nat.iter n (nextEvent sel) c)
    /\ rank (Nat.iter n (nextEvent sel) c) = O.
Proof.
  intros Hroute. induction n as [|n IH]; intros c Hc Hrank.
  - split; [exact Hc|]. cbn. lia.
  - rewrite Nat.iter_succ_r.
    destruct (nextEvent_progress sel route c Hroute Hc) as [Hc' Hless].
    apply IH; [exact Hc'|].
    destruct Hless as [Hless|[Hzero Hfix]]; [lia|].
    rewrite Hfix. lia.
Qed.

Lemma nth_error_last (A : Type) (l : list A) (k : nat) (a d : A) :
  nth_error l k = Some a -> S k = List.length l -> last l d = a.
Proof.
  revert k. induction l as [|b l IH]; intros k Hk Hlen.
  - discriminate Hlen.
  - destruct l as [|b' l].
    + destruct k; [|discriminate Hlen]. cbn in Hk. injection Hk as <-.
      reflexivity.
    + destruct k as [|k]; [discriminate Hlen|].
      change (last (b :: b' :: l) d) with (last (b' :: l) d).
      apply (IH k); [exact Hk|]. cbn [List.length] in Hlen |- *. lia.
Qed.

(** X28.  With no obstacle reported, a delivery started on a mounted
    component with no moveRobot in flight always runs to its end: whatever
    tables are selected, after at most two events for every cell of the
    planned route (the auto-move timer calling moveRobot, the customer
    confirming an arrival) the status is complete, the robot is marked back
    on the start cell and has stopped moving, the step counter is on the
    last cell of the route and one step is counted for every cell after the
    first. *)
Theorem unobstructed_delivery_completes (selectedTables : list Table)
        (c : Component) :
  isMountedRef c = true -> isMovingRef c = false ->
  exists c0,
    startDelivery selectedTables c = Some c0
    /\ let route := currentPath (deliveryState c0) in
       let c' := Nat.iter (2 * List.length route)
                          (nextEvent selectedTables) c0 in
       let st' := deliveryState c' in
       currentPath st' = route
       /\ deliveryStatus st' = complete
       /\ isMoving st' = false
       /\ robotPosition st' = ROBOT_START_POSITION
       /\ S (currentStep st') = List.length route
       /\ completedSteps c' = Z.of_nat (List.length route) - 1.
Proof.
  intros Hmounted Hbusy.
  destruct (RouteProofs.startDelivery_route selectedTables c)
    as [route [Hstart [Hhead [Hsteps Hlast]]]].
  eexists. split; [exact Hstart|]. cbn [deliveryState currentPath].
  destruct route as [|p route]; [discriminate Hhead|].
  cbn in Hhead. injection Hhead as ->.
  set (c0 := mkComponent _ _ _ _ _).
  assert (Hc0 : underway (ROBOT_START_POSITION :: route) c0).
  { unfold underway. subst c0. cbn. rewrite Hmounted, Hbusy.
    repeat split. left. repeat split. }
  destruct (events_reach_the_end selectedTables _
              (2 * List.length (ROBOT_START_POSITION :: route))
              Hsteps c0 Hc0) as [Hend Hrank].
  { unfold rank. subst c0. cbn. lia. }
  set (c' := Nat.iter _ _ c0) in *.
  destruct Hend as [Hpath [_ [_ [Hpos [Hdone Hstatus]]]]].
  unfold rank in Hrank.
  destruct Hstatus as [[Hs _]|[[Hs _]|[Hs [Hhalt [_ Hlen]]]]];
    try (rewrite Hs in Hrank; lia).
  split; [exact Hpath|]. split; [exact Hs|]. split; [exact Hhalt|].
  split.
  - rewrite <- Hlast. symmetry.
    exact (nth_error_last _ _ _ _ _ Hpos Hlen).
  - split; [exact Hlen|]. rewrite Hdone. lia.
Qed.

Lemma unobstructed_delivery_completes_witness :
  exists c0,
    startDelivery [T2; T1] (started []) = Some c0
    /\ let route := currentPath (deliveryState c0) in
       let c' := Nat.iter (2 * List.length route) (nextEvent [T2; T1]) c0 in
       let st' := deliveryState c' in
       currentPath st' = route
       /\ deliveryStatus st' = complete
       /\ isMoving st' = false
       /\ robotPosition st' = ROBOT_START_POSITION
       /\ S (currentStep st') = List.length route
       /\ completedSteps c' = Z.of_nat (List.length route) - 1.
Proof.
  apply (unobstructed_delivery_completes [T2; T1] (started []));
    reflexivity.
Defined.

End DeliveryProofs.

(** ** The fixed-duration path handler *)

Module LegacyProofs.
Import Host.

Lemma command_books (p : Port) (command : MovementCommand) (r : Run) :
  exists out,
    match mc_action command with
    | act_forward => moveForward p r
    | act_left => turnLeft p r
    | act_right => turnRight p r
    | act_stop => stop p r
    end
    = Some (mkRun (book command (ctl r))
                  (calls r + sends [command]) (wire r ++ out)).
Proof.
  unfold book, moveForward, turnLeft, turnRight, stop. cbn [sends].
  destruct (mc_action command);
    cbn [Nat.add]; rewrite ?Nat.add_succ_r, ?Nat.add_0_r;
    [apply PoseProofs.legacy_turn ..|apply PoseProofs.awaitSend_resolves].
Qed.

(** executeMovementSequence books every command and makes every call. *)
Lemma execute_books (p : Port) (commands : list MovementCommand) :
  forall r,
  exists out,
    executeMovementSequence p commands r
    = Some (mkRun (booked commands (ctl r)) (calls r + sends commands)
                  (wire r ++ out)).
Proof.
  induction commands as [|command rest IH]; intros r;
    cbn [executeMovementSequence booked fold_left sends].
  - exists []. rewrite Nat.add_0_r, app_nil_r. destruct r. reflexivity.
  - destruct (command_books p command r) as [o1 H1]. rewrite H1.
    cbn [andThen].
    destruct (IH (mkRun (book command (ctl r)) (calls r + sends [command])
                        (wire r ++ o1))) as [o2 H2].
    rewrite H2. cbn [ctl calls wire sends].
    exists (o1 ++ o2). rewrite app_assoc, Nat.add_0_r, Nat.add_assoc.
    reflexivity.
Qed.

Lemma book_onGrid (command : MovementCommand) (c : Controller) :
  onGrid (currentPosition c) -> onGrid (currentPosition (book command c)).
Proof.
  unfold onGrid, book. destruct c as [prt conn [px py dir]].
  destruct (mc_action command), dir; cbn; lia.
Qed.

Lemma booked_onGrid (commands : list MovementCommand) :
  forall c,
    onGrid (currentPosition c) ->
    onGrid (currentPosition (booked commands c)).
Proof.
  induction commands as [|command rest IH]; intros c Hc; [exact Hc|].
  cbn [booked fold_left]. apply IH, book_onGrid, Hc.
Qed.

Lemma booked_link (commands : list MovementCommand) :
  forall c,
    port (booked commands c) = port c
    /\ isConnected (booked commands c) = isConnected c.
Proof.
  induction commands as [|command rest IH]; intros c; [split; reflexivity|].
  cbn [booked fold_left]. destruct (IH (book command c)) as [Hp Hc].
  unfold booked in Hp, Hc. rewrite Hp, Hc.
  unfold book. destruct (mc_action command); split; reflexivity.
Qed.

(** X29.  executeMovementSequence always runs to the end of its list,
    whatever the serial port does at each write and whether or not the link
    is up: it calls sendCommand twice for every forward, left and right
    (the command, then STOP) and once for every stop, only adds to what is
    written, and books every movement on the believed pose in order, so
    that a pose on the grid stays on the grid. *)
Theorem movement_sequence_always_completes (p : Port)
        (commands : list MovementCommand) (r : Run) :
  exists r',
    executeMovementSequence p commands r = Some r'
    /\ ctl r' = booked commands (ctl r)
    /\ calls r' = (calls r + sends commands)%nat
    /\ (exists out, wire r' = wire r ++ out)
    /\ isConnected (ctl r') = isConnected (ctl r)
    /\ (onGrid (currentPosition (ctl r)) ->
        onGrid (currentPosition (ctl r'))).
Proof.
  destruct (execute_books p commands r) as [out Hout].
  eexists. split; [exact Hout|]. cbn [ctl calls wire].
  split; [reflexivity|]. split; [reflexivity|].
  split; [exists out; reflexivity|].
  split; [apply booked_link|apply booked_onGrid].
Qed.

Lemma executePath_books (p : Port) (path : list (Z * Z)) (r : Run) :
  exists r',
    executePath p path r = Some r'
    /\ ctl r' = booked (convertPathToCommands (ctl r) path) (ctl r).
Proof.
  unfold executePath.
  destruct (execute_books p (convertPathToCommands (ctl r) path) r)
    as [out Hout].
  eexists. split; [exact Hout|reflexivity].
Qed.

(** X30.  The path handler computes every turn from the facing the robot
    has when the path is converted.  For a pose on the grid and a path of
    two steps between adjacent cells of the grid, starting on the pose's
    cell: the first step is always booked right, and the believed pose ends
    on the last cell of the path exactly when the first step heads the way
    the robot was facing. *)
Theorem legacy_path_turns_from_first_facing (p : Port) (r : Run)
        (q1 q2 : Z * Z) :
  let pos := currentPosition (ctl r) in
  onGrid pos ->
  Z.abs (fst q1 - x pos) + Z.abs (snd q1 - y pos) = 1 ->
  Z.abs (fst q2 - fst q1) + Z.abs (snd q2 - snd q1) = 1 ->
  0 <= fst q1 <= 4 -> 0 <= snd q1 <= 4 ->
  0 <= fst q2 <= 4 -> 0 <= snd q2 <= 4 ->
  exists r1 r2,
    executePath p [cell pos; q1] r = Some r1
    /\ cell (currentPosition (ctl r1)) = q1
    /\ executePath p [cell pos; q1; q2] r = Some r2
    /\ (cell (currentPosition (ctl r2)) = q2
        <-> requiredDirection (fst q1 - x pos) (snd q1 - y pos)
            = Some (direction pos)).
Proof.
  cbn zeta. intros Hg Hu1 Hu2 Hx1 Hy1 Hx2 Hy2.
  destruct (executePath_books p [cell (currentPosition (ctl r)); q1] r)
    as [r1 [Hr1 Hc1]].
  destruct (executePath_books p [cell (currentPosition (ctl r)); q1; q2] r)
    as [r2 [Hr2 Hc2]].
  exists r1, r2. rewrite Hc1, Hc2. clear Hc1 Hc2.
  split; [exact Hr1|]. split; [|split; [exact Hr2|]];
    clear Hr1 Hr2; destruct (ctl r) as [prt conn [px py dir]];
    destruct q1 as [x1 y1]; destruct q2 as [x2 y2];
    unfold onGrid, cell in *; cbn [fst snd x y direction currentPosition] in *;
    cbn [convertPathToCommands fst snd currentPosition direction].
  - destruct (SyncProofs.unit_step _ _ Hu1)
      as [[E1 E2]|[[E1 E2]|[[E1 E2]|[E1 E2]]]];
      rewrite E1, E2; destruct dir; cbn -[Z.min Z.max]; f_equal; lia.
  - destruct (SyncProofs.unit_step _ _ Hu1)
      as [[E1 E2]|[[E1 E2]|[[E1 E2]|[E1 E2]]]];
      destruct (SyncProofs.unit_step _ _ Hu2)
        as [[F1 F2]|[[F1 F2]|[[F1 F2]|[F1 F2]]]];
      rewrite E1, E2, F1, F2; destruct dir; cbn -[Z.min Z.max];
      (split;
       [intros H; first [reflexivity | exfalso; injection H; lia]
       |intros H; first [discriminate H | f_equal; lia]]).
Qed.

Lemma legacy_path_turns_from_first_facing_witness :
  let r := mkRun (mkController true true initialPosition) 0 [] in
  let p := fun _ : nat => WriteCallback 3 false in
  exists r2,
    executePath p [(2, 4); (3, 4); (3, 3)] r = Some r2
    /\ cell (currentPosition (ctl r2)) <> (3, 3).
Proof.
  cbn zeta.
  destruct (legacy_path_turns_from_first_facing
              (fun _ : nat => WriteCallback 3 false)
              (mkRun (mkController true true initialPosition) 0 [])
              (3, 4) (3, 3))
    as [r1 [r2 [_ [_ [Hr2 Hiff]]]]];
    try (unfold onGrid; cbn; lia).
  exists r2. split; [exact Hr2|].
  intros H. apply Hiff in H. discriminate H.
Defined.

End LegacyProofs.
